(** * Polyfills: the structured-clone codec and [Object.fromEntries]

    A shallow embedding of the value-graph codec of the structuredClone
    polyfill ([typeOf], [shouldSkip], [serializer], [serialize],
    [deserializer], [deserialize], [structuredClone], [parseJSON],
    [stringifyJSON]) and of the
    [Object.fromEntries] polyfill, with the properties of the specification
    stated and proved over it.

    JavaScript values live in an explicit heap: an object is a cell of the
    heap and a reference is the index of its cell, so that identity, sharing
    and cycles are first-class.  The two identity maps of the codec and the
    output sequence are threaded through the recursive functions as explicit
    state; recursion is bounded by a fuel argument and the termination
    theorems give the fuel that is always enough. *)

From Stdlib Require Import ZArith String Ascii List Lia DecimalString DecimalPos DecimalZ.
From stdpp Require Import base tactics option list numbers strings relations gmap.

Local Open Scope string_scope.
Local Open Scope nat_scope.
Local Open Scope list_scope.

(** ** Value graph *)

(** A JavaScript number.  The codec never computes with numbers: it stores
    them, compares them as [Map] keys and hands them to [JSON.stringify].
    A finite double is kept as the integer or the dyadic fraction [m / 2^e]
    it denotes. *)
Inductive number : Type :=
| NaN
| Infinity (negative : bool)
| NegZero
| Int (z : Z)
| Frac (m : Z) (e : positive).

(** The values on which [typeOf] answers [PRIMITIVE]: the primitives proper
    and, since their [typeof] is not ['object'], functions and symbols
    (known by their identity only). *)
Inductive prim : Type :=
| PNull
| PUndefined
| PBool (b : bool)
| PNumber (n : number)
| PString (s : string)
| PBigInt (z : Z)
| PFunction (id : nat)
| PSymbol (id : nat).

Abbreviation loc := nat (only parsing).

Inductive value : Type :=
| VPrim (p : prim)
| VRef (l : loc).

Inductive typed_kind : Type :=
| Int8Array | Uint8Array | Uint8ClampedArray | Int16Array | Uint16Array
| Int32Array | Uint32Array | Float32Array | Float64Array
| BigInt64Array | BigUint64Array.

(** Heap cells.
    - [OObject]: the own enumerable string-keyed properties in [Object.keys]
      order, each key once; [toJSON] is [Some j] when ['toJSON' in value]
      holds and the call [value.toJSON()] returns [j].
    - [ODate]: a valid date, kept as the string [toISOString] returns.
    - [OMap], [OSet]: the entries in iteration order.
    - [OError]: the [name] and [message] properties of an error object.
    - [OTyped]: the elements read through a typed array.
    - [OArrayBuffer]: the bytes, each as the number a [Uint8Array] over the
      buffer reads.
    - [ODataView]: the viewed buffer and the window of the view. *)
Inductive obj : Type :=
| OArray (elems : list value)
| OObject (props : list (string * value)) (toJSON : option value)
| ODate (iso : string)
| ORegExp (source flags : string)
| OMap (entries : list (value * value))
| OSet (elems : list value)
| OError (name message : string)
| OBoolean (b : bool)
| ONumber (n : number)
| OString (s : string)
| OBigInt (z : Z)
| OTyped (kind : typed_kind) (elems : list prim)
| OArrayBuffer (bytes : list prim)
| ODataView (buffer : loc) (byteOffset byteLength : nat).

Abbreviation heap := (list obj).

#[global] Instance number_eq_dec : EqDecision number.
Proof. solve_decision. Defined.
#[global] Instance prim_eq_dec : EqDecision prim.
Proof. solve_decision. Defined.
#[global] Instance value_eq_dec : EqDecision value.
Proof. solve_decision. Defined.
#[global] Instance typed_kind_eq_dec : EqDecision typed_kind.
Proof. solve_decision. Defined.

(** ** Built-ins the code relies on *)

(** [typeof value]. *)
Definition typeof (v : value) : string :=
  match v with
  | VPrim PNull => "object"
  | VPrim PUndefined => "undefined"
  | VPrim (PBool _) => "boolean"
  | VPrim (PNumber _) => "number"
  | VPrim (PString _) => "string"
  | VPrim (PBigInt _) => "bigint"
  | VPrim (PFunction _) => "function"
  | VPrim (PSymbol _) => "symbol"
  | VRef _ => "object"
  end.

Definition typed_name (k : typed_kind) : string :=
  match k with
  | Int8Array => "Int8Array" | Uint8Array => "Uint8Array"
  | Uint8ClampedArray => "Uint8ClampedArray"
  | Int16Array => "Int16Array" | Uint16Array => "Uint16Array"
  | Int32Array => "Int32Array" | Uint32Array => "Uint32Array"
  | Float32Array => "Float32Array" | Float64Array => "Float64Array"
  | BigInt64Array => "BigInt64Array" | BigUint64Array => "BigUint64Array"
  end.

(** The class name inside [Object.prototype.toString.call(value)], that is
    [toString.call(value).slice(8, -1)].  Every native error class answers
    ["Error"], whatever its [name]. *)
Definition class_of (o : obj) : string :=
  match o with
  | OArray _ => "Array"
  | OObject _ _ => "Object"
  | ODate _ => "Date"
  | ORegExp _ _ => "RegExp"
  | OMap _ => "Map"
  | OSet _ => "Set"
  | OError _ _ => "Error"
  | OBoolean _ => "Boolean"
  | ONumber _ => "Number"
  | OString _ => "String"
  | OBigInt _ => "BigInt"
  | OTyped k _ => typed_name k
  | OArrayBuffer _ => "ArrayBuffer"
  | ODataView _ _ _ => "DataView"
  end.

(** [hay.includes(needle)]. *)
Fixpoint includes (needle hay : string) : bool :=
  String.prefix needle hay ||
  match hay with
  | EmptyString => false
  | String _ rest => includes needle rest
  end.

(** [BigInt.prototype.toString] and [BigInt(string)] on decimal text, the
    text that [toString] writes; what [BigInt] makes of another string (it
    reads some, rejects the others) is not modelled. *)
Definition bigint_toString (z : Z) : string :=
  NilZero.string_of_int (Z.to_int z).

Definition BigInt_of_string (s : string) : option Z :=
  Z.of_int <$> NilZero.int_of_string s.

(** A JavaScript [Map] or [Set] compares keys with SameValueZero and stores
    [-0] as [+0]; [canon] is that normalisation, after which SameValueZero
    is plain equality. *)
Definition canon (v : value) : value :=
  match v with
  | VPrim (PNumber NegZero) => VPrim (PNumber (Int 0))
  | _ => v
  end.

Section jsmap.
Context {K V : Type} `{EqDecision K}.

(** [m.get(k)], with [m.has(k)] its [is_Some]. *)
Fixpoint jsmap_get (m : list (K * V)) (k : K) : option V :=
  match m with
  | [] => None
  | (k', v) :: rest => if decide (k' = k) then Some v else jsmap_get rest k
  end.

(** [m.set(k, v)]: an existing key keeps its place, a new one goes last. *)
Fixpoint jsmap_set (k : K) (v : V) (m : list (K * V)) : list (K * V) :=
  match m with
  | [] => [(k, v)]
  | (k', v') :: rest =>
      if decide (k' = k) then (k', v) :: rest
      else (k', v') :: jsmap_set k v rest
  end.
End jsmap.

(** [s.add(x)]. *)
Fixpoint jsset_add (x : value) (s : list value) : list value :=
  match s with
  | [] => [x]
  | y :: rest => if decide (y = x) then s else y :: jsset_add x rest
  end.

(** ** Outcomes *)

Inductive exn : Type :=
| TypeNotSerializable (type : string)
    (* TypeError('unable to serialize ' + type) *)
| NotAnEntryObject (entry : prim)
    (* TypeError('Iterator value ' + entry + ' is not an entry object') *)
| NoSuchRecord (index : nat)
    (* TypeError: destructuring [_[index]] when it is undefined *)
| NotAConstructor
    (* TypeError: [env[type]] is not a constructor *)
| JsonBigInt.
    (* TypeError: JSON.stringify meets a bigint *)

(** A run returns, throws, leaves the part of JavaScript that is modelled
    ([Stuck]: a dangling reference, a record whose payload does not have the
    shape of its tag) or exhausts its fuel. *)
Inductive failure : Type :=
| Throw (e : exn)
| Stuck
| OutOfFuel.

Inductive result (A : Type) : Type :=
| Ok (a : A)
| Fail (f : failure).
Arguments Ok {A} a.
Arguments Fail {A} f.

Notation "'let*' x := e 'in' k" :=
  (match e with Ok x => k | Fail f => Fail f end)
  (at level 10, x pattern, e at level 100, k at level 200, only parsing).

Definition lift {A} (o : option A) : result A :=
  match o with Some a => Ok a | None => Fail Stuck end.

(** ** Wire records *)

(** Type constants. *)
Definition VOID : Z := -1.
Definition PRIMITIVE : Z := 0.
Definition ARRAY : Z := 1.
Definition OBJECT : Z := 2.
Definition DATE : Z := 3.
Definition REGEXP : Z := 4.
Definition MAP : Z := 5.
Definition SET : Z := 6.
Definition ERROR : Z := 7.
Definition BIGINT : Z := 8.

Definition EMPTY : string := "".

(** The first component of a record is one of the constants above or a
    class name. *)
Inductive tag : Type :=
| TNum (z : Z)
| TStr (s : string).

(** The second component, by shape: absent ([[VOID]]), a literal, a list of
    slots, a list of pairs of slots, [{source, flags}], [{name, message}],
    or a list of element values. *)
Inductive payload : Type :=
| PayNone
| PayLit (p : prim)
| PaySlots (slots : list nat)
| PayPairs (pairs : list (nat * nat))
| PayRegExp (source flags : string)
| PayError (name message : string)
| PayElems (elems : list prim).

Abbreviation record := (tag * payload)%type.

#[global] Instance tag_eq_dec : EqDecision tag.
Proof. solve_decision. Defined.
#[global] Instance payload_eq_dec : EqDecision payload.
Proof. solve_decision. Defined.

(** ** Type detection *)

Definition typeOf (h : heap) (value : value) : Z * string :=
  let type := typeof value in
  match value with
  | VRef l =>
      let asString := from_option class_of EMPTY (h !! l) in
      if String.eqb asString "Array" then (ARRAY, EMPTY)
      else if String.eqb asString "Object" then (OBJECT, EMPTY)
      else if String.eqb asString "Date" then (DATE, EMPTY)
      else if String.eqb asString "RegExp" then (REGEXP, EMPTY)
      else if String.eqb asString "Map" then (MAP, EMPTY)
      else if String.eqb asString "Set" then (SET, EMPTY)
      else if String.eqb asString "DataView" then (ARRAY, asString)
      else if includes "Array" asString then (ARRAY, asString)
      else if includes "Error" asString then (ERROR, asString)
      else (OBJECT, asString)
  | VPrim _ => (PRIMITIVE, type)   (* type !== 'object' || !value *)
  end.

Definition shouldSkip (t : Z * string) : bool :=
  let '(TYPE, type) := t in
  (TYPE =? PRIMITIVE)%Z && (String.eqb type "function" || String.eqb type "symbol").

(** ** Serializer *)

(** The identity map [$] and the output sequence [_]. *)
Record sstate : Type := SState {
  st_map : list (value * nat);
  st_out : list record
}.

(** [arr.push(i)] on the payload array of the record in slot [index], which
    the sequence holds by reference. *)
Definition push_slot (index i : nat) (out : list record) : list record :=
  alter (λ r, match r with
              | (t, PaySlots l) => (t, PaySlots (l ++ [i]))
              | _ => r
              end) index out.

Definition push_pair (index : nat) (p : nat * nat) (out : list record)
  : list record :=
  alter (λ r, match r with
              | (t, PayPairs l) => (t, PayPairs (l ++ [p]))
              | _ => r
              end) index out.

Section serializer.
Context (h : heap) (strict json : bool).

Definition as_ (out : record) (value : value) (st : sstate) : nat * sstate :=
  let index := length (st_out st) in
  (index, {| st_map := jsmap_set (canon value) index (st_map st);
             st_out := st_out st ++ [out] |}).

(** [[...spread]] of the ARRAY case with a non-empty [type]. *)
Definition spread (type : string) (value : value) : option (list prim) :=
  match value with
  | VRef l =>
      o ← h !! l;
      if String.eqb type "DataView" then
        match o with
        | ODataView b _ _ =>
            match h !! b with
            | Some (OArrayBuffer bytes) => Some bytes
            | _ => None
            end
        | _ => None
        end
      else if String.eqb type "ArrayBuffer" then
        match o with OArrayBuffer bytes => Some bytes | _ => None end
      else
        match o with OTyped _ elems => Some elems | _ => None end
  | VPrim _ => None
  end.

Definition deref (value : value) : option obj :=
  match value with VRef l => h !! l | VPrim _ => None end.

(** [value.valueOf()] of a boxed primitive. *)
Definition valueOf (o : obj) : option prim :=
  match o with
  | OBoolean b => Some (PBool b)
  | ONumber n => Some (PNumber n)
  | OString s => Some (PString s)
  | OBigInt z => Some (PBigInt z)
  | _ => None
  end.

(** The loops [for (const entry of value)] of the ARRAY and SET cases;
    [keep] is the guard of the SET loop and constantly true for ARRAY. *)
Fixpoint pair_each (pair : value → sstate → result (nat * sstate))
    (keep : value → bool) (index : nat) (entries : list value)
    (st : sstate) : result sstate :=
  match entries with
  | [] => Ok st
  | entry :: rest =>
      if keep entry then
        let* (i, st1) := pair entry st in
        pair_each pair keep index rest
          {| st_map := st_map st1;
             st_out := push_slot index i (st_out st1) |}
      else pair_each pair keep index rest st
  end.

(** The loops of the OBJECT and MAP cases: key first, then value. *)
Fixpoint pair_entries (pair : value → sstate → result (nat * sstate))
    (keep : value → value → bool) (index : nat)
    (entries : list (value * value)) (st : sstate) : result sstate :=
  match entries with
  | [] => Ok st
  | (key, entry) :: rest =>
      if keep key entry then
        let* (k, st1) := pair key st in
        let* (e, st2) := pair entry st1 in
        pair_entries pair keep index rest
          {| st_map := st_map st2;
             st_out := push_pair index (k, e) (st_out st2) |}
      else pair_entries pair keep index rest st
  end.

Definition key_entries (props : list (string * value)) : list (value * value) :=
  (λ kv, (VPrim (PString kv.1), kv.2)) <$> props.

Fixpoint pair (fuel : nat) (value : value) (st : sstate)
  : result (nat * sstate) :=
  match fuel with
  | O => Fail OutOfFuel
  | S fuel =>
  match jsmap_get (st_map st) (canon value) with
  | Some index => Ok (index, st)
  | None =>
    let '(TYPE, type) := typeOf h value in
    if (TYPE =? PRIMITIVE)%Z then
      match value with
      | VPrim entry =>
          if String.eqb type "bigint" then
            match entry with
            | PBigInt z =>
                Ok (as_ (TNum BIGINT, PayLit (PString (bigint_toString z)))
                      value st)
            | _ => Fail Stuck
            end
          else if String.eqb type "function" || String.eqb type "symbol" then
            if strict then Fail (Throw (TypeNotSerializable type))
            else Ok (as_ (TNum TYPE, PayLit PNull) value st)
          else if String.eqb type "undefined" then
            Ok (as_ (TNum VOID, PayNone) value st)
          else Ok (as_ (TNum TYPE, PayLit entry) value st)
      | VRef _ => Fail Stuck
      end
    else if (TYPE =? ARRAY)%Z then
      if negb (String.eqb type EMPTY) then
        let* elems := lift (spread type value) in
        Ok (as_ (TStr type, PayElems elems) value st)
      else
        match deref value with
        | Some (OArray entries) =>
            let '(index, st1) := as_ (TNum TYPE, PaySlots []) value st in
            let* st2 := pair_each (pair fuel) (λ _, true) index entries st1 in
            Ok (index, st2)
        | _ => Fail Stuck
        end
    else if (TYPE =? OBJECT)%Z then
      match deref value with
      | None => Fail Stuck
      | Some o =>
        if String.eqb type "BigInt" then
          match o with
          | OBigInt z =>
              Ok (as_ (TStr type, PayLit (PString (bigint_toString z))) value st)
          | _ => Fail Stuck
          end
        else if String.eqb type "Boolean" || String.eqb type "Number"
                || String.eqb type "String" then
          let* entry := lift (valueOf o) in
          Ok (as_ (TStr type, PayLit entry) value st)
        else
          match o with
          | OObject props toJSON =>
              match (if json then toJSON else None) with
              | Some j => pair fuel j st
              | None =>
                  let '(index, st1) := as_ (TNum TYPE, PayPairs []) value st in
                  let* st2 :=
                    pair_entries (pair fuel)
                      (λ _ entry, strict || negb (shouldSkip (typeOf h entry)))
                      index (key_entries props) st1 in
                  Ok (index, st2)
              end
          | _ => Fail Stuck
          end
      end
    else if (TYPE =? DATE)%Z then
      match deref value with
      | Some (ODate iso) => Ok (as_ (TNum TYPE, PayLit (PString iso)) value st)
      | _ => Fail Stuck
      end
    else if (TYPE =? REGEXP)%Z then
      match deref value with
      | Some (ORegExp source flags) =>
          Ok (as_ (TNum TYPE, PayRegExp source flags) value st)
      | _ => Fail Stuck
      end
    else if (TYPE =? MAP)%Z then
      match deref value with
      | Some (OMap entries) =>
          let '(index, st1) := as_ (TNum TYPE, PayPairs []) value st in
          let* st2 :=
            pair_entries (pair fuel)
              (λ key entry,
                 strict || negb (shouldSkip (typeOf h key)
                                 || shouldSkip (typeOf h entry)))
              index entries st1 in
          Ok (index, st2)
      | _ => Fail Stuck
      end
    else if (TYPE =? SET)%Z then
      match deref value with
      | Some (OSet entries) =>
          let '(index, st1) := as_ (TNum TYPE, PaySlots []) value st in
          let* st2 :=
            pair_each (pair fuel)
              (λ entry, strict || negb (shouldSkip (typeOf h entry)))
              index entries st1 in
          Ok (index, st2)
      | _ => Fail Stuck
      end
    else
      match deref value with
      | Some (OError _ message) =>
          Ok (as_ (TNum TYPE, PayError type message) value st)
      | _ => Fail Stuck
      end
  end
  end.
End serializer.

(** The options object [{ json, lossy }]; an absent field is [false]. *)
Record options : Type := Options { json : bool; lossy : bool }.

Definition no_options : options := {| json := false; lossy := false |}.

Definition serialize (fuel : nat) (h : heap) (value : value) (o : options)
  : result (list record) :=
  let* (_, st) :=
    pair h (negb (json o || lossy o)) (json o) fuel value
      {| st_map := []; st_out := [] |} in
  Ok (st_out st).

(** ** Deserializer *)

(** Keys of the decoder's map [$]: a slot number or, where the code passes
    the payload instead of the index, the payload array of a record (known
    by the slot of its record). *)
Inductive dkey : Type :=
| KIndex (index : nat)
| KPayload (index : nat).

#[global] Instance dkey_eq_dec : EqDecision dkey.
Proof. solve_decision. Defined.

(** The map [$] and the heap in which the reconstructed objects are
    allocated. *)
Record dstate : Type := DState {
  ds_map : list (dkey * value);
  ds_heap : heap
}.

(** [new C(...)], [[]], [{}]: a fresh cell at the end of the heap. *)
Definition alloc (o : obj) (st : dstate) : loc * dstate :=
  (length (ds_heap st),
   {| ds_map := ds_map st; ds_heap := ds_heap st ++ [o] |}).

Definition set_key (k : dkey) (out : value) (st : dstate) : dstate :=
  {| ds_map := jsmap_set k out (ds_map st); ds_heap := ds_heap st |}.

(** [object[key] = val] on an object made by [{}].  The only accessor such
    an object inherits is [__proto__]: every other name becomes an own
    property.  The setter of [__proto__] ignores a primitive other than
    [null] and creates no property; given an object or [null] it replaces
    the prototype, which is not modelled here.  A new name is listed last:
    that is its place when the names come in the order of [Object.keys], as
    they do in the sequences that the serializer writes. *)
Definition assign (key : string) (val : value) (props : list (string * value))
  : option (list (string * value)) :=
  if String.eqb key "__proto__" then
    match val with
    | VPrim PNull | VPrim (PFunction _) | VRef _ => None
    | VPrim _ => Some props
    end
  else Some (jsmap_set key val props).

(** [arr.push(v)], [set.add(v)], [object[k] = v], [map.set(k, v)] on a
    cell.  A property key is a string here. *)
Definition array_push (v : value) (o : obj) : option obj :=
  match o with OArray l => Some (OArray (l ++ [v])) | _ => None end.

Definition set_add (v : value) (o : obj) : option obj :=
  match o with OSet s => Some (OSet (jsset_add (canon v) s)) | _ => None end.

Definition object_put (k v : value) (o : obj) : option obj :=
  match k, o with
  | VPrim (PString s), OObject props tj =>
      (λ props', OObject props' tj) <$> assign s v props
  | _, _ => None
  end.

Definition map_put (k v : value) (o : obj) : option obj :=
  match o with
  | OMap es => Some (OMap (jsmap_set (canon k) v es))
  | _ => None
  end.

Definition update (a : loc) (f : obj → option obj) (st : dstate)
  : result dstate :=
  match ds_heap st !! a with
  | Some o =>
      match f o with
      | Some o' => Ok {| ds_map := ds_map st; ds_heap := <[a := o']> (ds_heap st) |}
      | None => Fail Stuck
      end
  | None => Fail Stuck
  end.

Definition typed_of_name (s : string) : option typed_kind :=
  if String.eqb s "Int8Array" then Some Int8Array
  else if String.eqb s "Uint8Array" then Some Uint8Array
  else if String.eqb s "Uint8ClampedArray" then Some Uint8ClampedArray
  else if String.eqb s "Int16Array" then Some Int16Array
  else if String.eqb s "Uint16Array" then Some Uint16Array
  else if String.eqb s "Int32Array" then Some Int32Array
  else if String.eqb s "Uint32Array" then Some Uint32Array
  else if String.eqb s "Float32Array" then Some Float32Array
  else if String.eqb s "Float64Array" then Some Float64Array
  else if String.eqb s "BigInt64Array" then Some BigInt64Array
  else if String.eqb s "BigUint64Array" then Some BigUint64Array
  else None.

Definition native_errors : list string :=
  ["Error"; "EvalError"; "RangeError"; "ReferenceError"; "SyntaxError";
   "TypeError"; "URIError"].

(** [new env[name](message)] of the ERROR case: the global object holds the
    native error classes; what another name denotes is not modelled. *)
Definition env_error (name message : string) : result obj :=
  if bool_decide (name ∈ native_errors) then Ok (OError name message)
  else Fail Stuck.

(** [new env[type](value)] of the fall-through: no global is named by a
    number; the wrapper classes and the typed arrays are modelled on a
    payload of their own kind, on which the conversion of the constructor
    is the identity. *)
Definition env_new (type : tag) (value : payload) : result obj :=
  match type with
  | TNum _ => Fail (Throw NotAConstructor)
  | TStr name =>
      if String.eqb name "Boolean" then
        match value with PayLit (PBool b) => Ok (OBoolean b) | _ => Fail Stuck end
      else if String.eqb name "Number" then
        match value with PayLit (PNumber n) => Ok (ONumber n) | _ => Fail Stuck end
      else if String.eqb name "String" then
        match value with PayLit (PString s) => Ok (OString s) | _ => Fail Stuck end
      else
        match typed_of_name name, value with
        | Some k, PayElems elems => Ok (OTyped k elems)
        | _, _ => Fail Stuck
        end
  end.

Section deserializer.
Context (w : list record).

(** [as(out, index)] for an object just built. *)
Definition as_new (o : obj) (k : dkey) (st : dstate) : value * dstate :=
  let '(a, st1) := alloc o st in
  (VRef a, set_key k (VRef a) st1).

(** [for (const index of value) arr.push(unpair(index))] and the loop of
    the SET case. *)
Fixpoint unpair_each (unpair : nat → dstate → result (value * dstate))
    (push : value → obj → option obj) (a : loc) (slots : list nat)
    (st : dstate) : result dstate :=
  match slots with
  | [] => Ok st
  | index :: rest =>
      let* (v, st1) := unpair index st in
      let* st2 := update a (push v) st1 in
      unpair_each unpair push a rest st2
  end.

(** [for (const [key, index] of value) object[unpair(key)] = unpair(index)]
    and the loop of the MAP case. *)
Fixpoint unpair_entries (unpair : nat → dstate → result (value * dstate))
    (put : value → value → obj → option obj) (a : loc)
    (pairs : list (nat * nat)) (st : dstate) : result dstate :=
  match pairs with
  | [] => Ok st
  | (key, index) :: rest =>
      let* (k, st1) := unpair key st in
      let* (v, st2) := unpair index st1 in
      let* st3 := update a (put k v) st2 in
      unpair_entries unpair put a rest st3
  end.

(** The constructors are modelled on the payloads that the serializer
    writes for an object of their class: on these [new Date], [new RegExp]
    and the constructors of the typed arrays give back the object that the
    payload was read from.  What they make of another payload (a source
    that is no regular expression, a date in another format, elements of
    another kind) is not modelled. *)
Fixpoint unpair (fuel : nat) (index : nat) (st : dstate)
  : result (value * dstate) :=
  match fuel with
  | O => Fail OutOfFuel
  | S fuel =>
  match jsmap_get (ds_map st) (KIndex index) with
  | Some out => Ok (out, st)
  | None =>
    match w !! index with
    | None => Fail (Throw (NoSuchRecord index))
    | Some (type, value) =>
      if bool_decide (type = TNum PRIMITIVE) || bool_decide (type = TNum VOID) then
        match value with
        | PayLit p => Ok (VPrim p, set_key (KIndex index) (VPrim p) st)
        | PayNone => Ok (VPrim PUndefined, set_key (KIndex index) (VPrim PUndefined) st)
        | _ => Fail Stuck
        end
      else if bool_decide (type = TNum ARRAY) then
        match value with
        | PaySlots slots =>
            let '(arr, st1) := as_new (OArray []) (KIndex index) st in
            let* st2 :=
              match arr with
              | VRef a => unpair_each (unpair fuel) array_push a slots st1
              | VPrim _ => Fail Stuck
              end in
            Ok (arr, st2)
        | _ => Fail Stuck
        end
      else if bool_decide (type = TNum OBJECT) then
        match value with
        | PayPairs pairs =>
            let '(object, st1) := as_new (OObject [] None) (KIndex index) st in
            let* st2 :=
              match object with
              | VRef a => unpair_entries (unpair fuel) object_put a pairs st1
              | VPrim _ => Fail Stuck
              end in
            Ok (object, st2)
        | _ => Fail Stuck
        end
      else if bool_decide (type = TNum DATE) then
        match value with
        | PayLit (PString iso) => Ok (as_new (ODate iso) (KIndex index) st)
        | _ => Fail Stuck
        end
      else if bool_decide (type = TNum REGEXP) then
        match value with
        | PayRegExp source flags =>
            Ok (as_new (ORegExp source flags) (KIndex index) st)
        | _ => Fail Stuck
        end
      else if bool_decide (type = TNum MAP) then
        match value with
        | PayPairs pairs =>
            let '(map, st1) := as_new (OMap []) (KIndex index) st in
            let* st2 :=
              match map with
              | VRef a => unpair_entries (unpair fuel) map_put a pairs st1
              | VPrim _ => Fail Stuck
              end in
            Ok (map, st2)
        | _ => Fail Stuck
        end
      else if bool_decide (type = TNum SET) then
        match value with
        | PaySlots slots =>
            let '(set, st1) := as_new (OSet []) (KIndex index) st in
            let* st2 :=
              match set with
              | VRef a => unpair_each (unpair fuel) set_add a slots st1
              | VPrim _ => Fail Stuck
              end in
            Ok (set, st2)
        | _ => Fail Stuck
        end
      else if bool_decide (type = TNum ERROR) then
        match value with
        | PayError name message =>
            let* o := env_error name message in
            Ok (as_new o (KIndex index) st)
        | _ => Fail Stuck
        end
      else if bool_decide (type = TNum BIGINT) then
        match value with
        | PayLit (PString s) =>
            let* z := lift (BigInt_of_string s) in
            Ok (VPrim (PBigInt z), set_key (KIndex index) (VPrim (PBigInt z)) st)
        | _ => Fail Stuck
        end
      else if bool_decide (type = TStr "BigInt") then
        match value with
        | PayLit (PString s) =>
            let* z := lift (BigInt_of_string s) in
            Ok (as_new (OBigInt z) (KIndex index) st)
        | _ => Fail Stuck
        end
      else if bool_decide (type = TStr "ArrayBuffer") then
        match value with
        | PayElems bytes => Ok (as_new (OArrayBuffer bytes) (KPayload index) st)
        | _ => Fail Stuck
        end
      else if bool_decide (type = TStr "DataView") then
        match value with
        | PayElems bytes =>
            let '(buffer, st1) := alloc (OArrayBuffer bytes) st in
            Ok (as_new (ODataView buffer 0 (length bytes)) (KPayload index) st1)
        | _ => Fail Stuck
        end
      else
        let* o := env_new type value in
        Ok (as_new o (KIndex index) st)
    end
  end
  end.
End deserializer.

(** The reconstructed value together with the heap it lives in. *)
Definition deserialize (fuel : nat) (serialized : list record)
  : result (value * heap) :=
  let* (v, st) :=
    unpair serialized fuel 0 {| ds_map := []; ds_heap := [] |} in
  Ok (v, ds_heap st).

(** ** Main structuredClone polyfill *)

(** The [options] argument when it is an object: each of the two keys is
    absent or holds a value, kept by its truth. *)
Record options_arg : Type := OptionsArg {
  arg_json : option bool;
  arg_lossy : option bool
}.

(** ['json' in options], ['lossy' in options]. *)
Definition has_key (field : option bool) : bool :=
  match field with Some _ => true | None => false end.

(** [{ json, lossy } = {}] on the argument, [None] being [undefined]. *)
Definition destructure (a : option options_arg) : options :=
  match a with
  | None => no_options
  | Some a =>
      {| json := default false (arg_json a);
         lossy := default false (arg_lossy a) |}
  end.

(** [structuredClone]; [native] is [global.structuredClone] where the
    environment has that function.  The two runs of the polyfill get a fuel
    each. *)
Definition structuredClone
    (native : option (heap → value → result (value * heap)))
    (fuel fuel' : nat) (h : heap) (any : value) (options : option options_arg)
  : result (value * heap) :=
  let polyfill :=
    let* serialized := serialize fuel h any (destructure options) in
    deserialize fuel' serialized in
  match native with
  | Some global_structuredClone =>
      match options with
      | Some a =>
          if has_key (arg_json a) || has_key (arg_lossy a)
          then polyfill else global_structuredClone h any
      | None => global_structuredClone h any
      end
  | None => polyfill
  end.

(** ** Transport as JSON text *)

(** A JSON text, kept as the document it denotes: [JSON.parse] of the text
    that [JSON.stringify] writes for a document is that document.  A number
    of a document is finite. *)
#[warnings="-register-all"]
Inductive document : Type :=
| JNull
| JBool (b : bool)
| JNumber (n : number)
| JString (s : string)
| JArray (items : list document)
| JObject (members : list (string * document)).

(** [JSON.stringify] on the values a sequence of records is made of.  A
    number that is not finite is written [null] and [-0] is written [0];
    inside an array [undefined], a function and a symbol are written [null];
    a bigint is refused. *)
Definition stringify_number (n : number) : document :=
  match n with
  | NaN | Infinity _ => JNull
  | NegZero => JNumber (Int 0)
  | _ => JNumber n
  end.

Definition stringify_prim (p : prim) : result document :=
  match p with
  | PNull | PUndefined | PFunction _ | PSymbol _ => Ok JNull
  | PBool b => Ok (JBool b)
  | PNumber n => Ok (stringify_number n)
  | PString s => Ok (JString s)
  | PBigInt _ => Fail (Throw JsonBigInt)
  end.

Fixpoint stringify_elems (elems : list prim) : result (list document) :=
  match elems with
  | [] => Ok []
  | p :: rest =>
      let* d := stringify_prim p in
      let* ds := stringify_elems rest in
      Ok (d :: ds)
  end.

Definition stringify_tag (t : tag) : document :=
  match t with
  | TNum z => JNumber (Int z)
  | TStr s => JString s
  end.

Definition stringify_slot (i : nat) : document := JNumber (Int (Z.of_nat i)).

Definition stringify_record (r : record) : result document :=
  let '(type, value) := r in
  let* rest :=
    match value with
    | PayNone => Ok []
    | PayLit p => let* d := stringify_prim p in Ok [d]
    | PaySlots slots => Ok [JArray (stringify_slot <$> slots)]
    | PayPairs pairs =>
        Ok [JArray ((λ p, JArray [stringify_slot p.1; stringify_slot p.2])
                      <$> pairs)]
    | PayRegExp source flags =>
        Ok [JObject [("source", JString source); ("flags", JString flags)]]
    | PayError name message =>
        Ok [JObject [("name", JString name); ("message", JString message)]]
    | PayElems elems => let* ds := stringify_elems elems in Ok [JArray ds]
    end in
  Ok (JArray (stringify_tag type :: rest)).

Fixpoint stringify_records (w : list record) : result (list document) :=
  match w with
  | [] => Ok []
  | r :: rest =>
      let* d := stringify_record r in
      let* ds := stringify_records rest in
      Ok (d :: ds)
  end.

Definition JSON_stringify (w : list record) : result document :=
  let* ds := stringify_records w in
  Ok (JArray ds).

(** [JSON.parse], seen as the deserializer reads its result: an array of
    records [[type, value]], the value taken in the shape the case of
    [type] uses.  [None]: the document is no such array. *)
Definition read_tag (d : document) : option tag :=
  match d with
  | JNumber (Int z) => Some (TNum z)
  | JString s => Some (TStr s)
  | _ => None
  end.

Definition read_lit (d : document) : option prim :=
  match d with
  | JNull => Some PNull
  | JBool b => Some (PBool b)
  | JNumber n => Some (PNumber n)
  | JString s => Some (PString s)
  | _ => None
  end.

Definition read_slot (d : document) : option nat :=
  match d with
  | JNumber (Int z) => if (0 <=? z)%Z then Some (Z.to_nat z) else None
  | _ => None
  end.

Definition read_pair (d : document) : option (nat * nat) :=
  match d with
  | JArray (k :: v :: _) => i ← read_slot k; j ← read_slot v; Some (i, j)
  | _ => None
  end.

Definition read_slots (d : document) : option payload :=
  match d with
  | JArray items => PaySlots <$> mapM read_slot items
  | _ => None
  end.

Definition read_pairs (d : document) : option payload :=
  match d with
  | JArray items => PayPairs <$> mapM read_pair items
  | _ => None
  end.

Definition read_strings (d : document) (a b : string) (f : string → string → payload)
  : option payload :=
  match d with
  | JObject members =>
      match jsmap_get members a, jsmap_get members b with
      | Some (JString x), Some (JString y) => Some (f x y)
      | _, _ => None
      end
  | _ => None
  end.

Definition read_value (type : tag) (d : document) : option payload :=
  match type with
  | TNum z =>
      if (z =? ARRAY)%Z || (z =? SET)%Z then read_slots d
      else if (z =? OBJECT)%Z || (z =? MAP)%Z then read_pairs d
      else if (z =? REGEXP)%Z then read_strings d "source" "flags" PayRegExp
      else if (z =? ERROR)%Z then read_strings d "name" "message" PayError
      else PayLit <$> read_lit d
  | TStr _ =>
      match d with
      | JArray items => PayElems <$> mapM read_lit items
      | _ => PayLit <$> read_lit d
      end
  end.

Definition read_record (d : document) : option record :=
  match d with
  | JArray (t :: rest) =>
      type ← read_tag t;
      value ← match rest with
              | [] => Some PayNone
              | d :: _ => read_value type d
              end;
      Some (type, value)
  | _ => None
  end.

Definition JSON_parse (str : document) : option (list record) :=
  match str with
  | JArray items => mapM read_record items
  | _ => None
  end.

Definition jsonOptions : options := {| json := true; lossy := true |}.

Definition parseJSON (fuel : nat) (str : document) : result (value * heap) :=
  let* serialized := lift (JSON_parse str) in
  deserialize fuel serialized.

Definition stringifyJSON (fuel : nat) (h : heap) (any : value)
  : result document :=
  let* serialized := serialize fuel h any jsonOptions in
  JSON_stringify serialized.

(** ** [Object.fromEntries] *)

(** [Object(entry) === entry]: the entry is an object, which a function is
    too. *)
Definition is_object (entry : value) : bool :=
  match entry with
  | VRef _ | VPrim (PFunction _) => true
  | VPrim _ => false
  end.

(** [String(n)] for the numbers whose text is their decimal expansion: the
    integers below [2^53] in magnitude, which a double holds exactly and of
    which the shortest digits that read back are all the digits.  The text
    of a larger number or of a fraction is not modelled. *)
Definition number_toString (n : number) : option string :=
  match n with
  | NaN => Some "NaN"
  | Infinity negative => Some (if negative then "-Infinity" else "Infinity")
  | NegZero => Some "0"
  | Int z => if (Z.abs z <? 2 ^ 53)%Z then Some (bigint_toString z) else None
  | Frac _ _ => None
  end.

(** The property name that [obj[key]] uses for a primitive key.  [None]: a
    symbol, which names no string-keyed property, or a key whose text is
    not modelled (an object, a function, a fraction, a large number). *)
Definition ToPropertyKey (key : value) : option string :=
  match key with
  | VPrim PNull => Some "null"
  | VPrim PUndefined => Some "undefined"
  | VPrim (PBool b) => Some (if b then "true" else "false")
  | VPrim (PNumber n) => number_toString n
  | VPrim (PString s) => Some s
  | VPrim (PBigInt z) => Some (bigint_toString z)
  | _ => None
  end.

(** [entry[i]] for [i] = 0, 1 on an entry that passed the test. *)
Definition Get (h : heap) (entry : value) (i : nat) : option value :=
  match entry with
  | VRef l =>
      o ← h !! l;
      Some match o with
           | OArray elems => default (VPrim PUndefined) (elems !! i)
           | OObject props _ =>
               default (VPrim PUndefined)
                 (jsmap_get props (bigint_toString (Z.of_nat i)))
           | OTyped _ elems => from_option VPrim (VPrim PUndefined) (elems !! i)
           | OString s =>
               from_option (λ c, VPrim (PString (String c "")))
                 (VPrim PUndefined) (String.get i s)
           | _ => VPrim PUndefined
           end
  | VPrim (PFunction _) => Some (VPrim PUndefined)
  | VPrim _ => None
  end.

(** The accumulator [obj] of the reduction, an object made by [{}] and used
    as a map: its own properties by name, and whether its prototype is still
    [Object.prototype].  The order in which the properties are listed is
    not kept. *)
Record plain_object : Type := PlainObject {
  own : gmap string value;
  inherits : bool
}.

(** [{}]. *)
Definition empty_object : plain_object := {| own := ∅; inherits := true |}.

(** [obj[key] = val].  What [obj] inherits from [Object.prototype] are data
    properties, which an assignment shadows with an own property, and one
    accessor, [__proto__]: the assignment to that name calls its setter,
    which ignores a primitive other than [null], takes the prototype away
    on [null] and replaces it on an object, which a function is too (an
    object with another prototype is not modelled).  Once the prototype is
    gone every name becomes an own property, [__proto__] too. *)
Definition set_property (key : string) (val : value) (obj : plain_object)
  : option plain_object :=
  if inherits obj && String.eqb key "__proto__" then
    match val with
    | VPrim PNull => Some {| own := own obj; inherits := false |}
    | VPrim (PFunction _) | VRef _ => None
    | VPrim _ => Some obj
    end
  else Some {| own := <[key := val]> (own obj); inherits := inherits obj |}.

(** The callback of [reduce].  For a symbol the TypeError is the one raised
    while the message is built. *)
Definition callback (h : heap) (obj : plain_object) (entry : value)
  : result plain_object :=
  if negb (is_object entry) then
    match entry with
    | VPrim p => Fail (Throw (NotAnEntryObject p))
    | VRef _ => Fail Stuck
    end
  else
    let* key := lift (Get h entry 0) in
    let* val := lift (Get h entry 1) in
    let* name := lift (ToPropertyKey key) in
    lift (set_property name val obj).

(** [Array.prototype.reduce.call(iterable, callback, obj)] on an array,
    given by its elements. *)
Fixpoint reduce (h : heap) (iterable : list value) (obj : plain_object)
  : result plain_object :=
  match iterable with
  | [] => Ok obj
  | entry :: rest =>
      let* obj' := callback h obj entry in
      reduce h rest obj'
  end.

(** [Object.fromEntries(iterable)]. *)
Definition fromEntries (h : heap) (iterable : list value)
  : result plain_object :=
  reduce h iterable empty_object.


(** * Properties *)

(** ** The identity maps *)

Section jsmap_facts.
Context {K V : Type} `{EqDecision K}.
Implicit Types (m : list (K * V)) (k : K) (v : V).

Lemma jsmap_get_set m k v k' :
  jsmap_get (jsmap_set k v m) k' =
  if decide (k = k') then Some v else jsmap_get m k'.
Proof.
  induction m as [|[k0 v0] m IH]; simpl.
  - repeat case_decide; congruence.
  - destruct (decide (k0 = k)) as [->|Hne]; simpl.
    + repeat case_decide; congruence.
    + rewrite IH. repeat case_decide; congruence.
Qed.

Lemma jsmap_get_set_eq m k v : jsmap_get (jsmap_set k v m) k = Some v.
Proof. rewrite jsmap_get_set. by case_decide. Qed.

Lemma jsmap_get_set_ne m k v k' :
  k ≠ k' → jsmap_get (jsmap_set k v m) k' = jsmap_get m k'.
Proof. intros. rewrite jsmap_get_set. by case_decide. Qed.

(** On a key that is absent, [set] appends. *)
Lemma jsmap_set_fresh m k v :
  jsmap_get m k = None → jsmap_set k v m = m ++ [(k, v)].
Proof.
  induction m as [|[k0 v0] m IH]; simpl; [done|].
  case_decide; [done|]. intros Hm. by rewrite IH.
Qed.
End jsmap_facts.

Lemma jsset_add_fresh x s : x ∉ s → jsset_add x s = s ++ [x].
Proof.
  induction s as [|y s IH]; simpl; [done|].
  intros Hx. apply not_elem_of_cons in Hx as [Hne Hx].
  case_decide; [congruence|]. by rewrite IH.
Qed.

Lemma canon_idemp v : canon (canon v) = canon v.
Proof. by destruct v as [[| | |[]| | | |]|]. Qed.

Lemma canon_ref v l : canon v = VRef l ↔ v = VRef l.
Proof. destruct v as [[| | |[]| | | |]|]; simpl; split; congruence. Qed.

(** ** Classification by kind *)

(** What [typeOf] answers on each kind of object. *)
Definition classify (o : obj) : Z * string :=
  match o with
  | OArray _ => (ARRAY, EMPTY)
  | OObject _ _ => (OBJECT, EMPTY)
  | ODate _ => (DATE, EMPTY)
  | ORegExp _ _ => (REGEXP, EMPTY)
  | OMap _ => (MAP, EMPTY)
  | OSet _ => (SET, EMPTY)
  | OError _ _ => (ERROR, "Error")
  | OBoolean _ => (OBJECT, "Boolean")
  | ONumber _ => (OBJECT, "Number")
  | OString _ => (OBJECT, "String")
  | OBigInt _ => (OBJECT, "BigInt")
  | OTyped k _ => (ARRAY, typed_name k)
  | OArrayBuffer _ => (ARRAY, "ArrayBuffer")
  | ODataView _ _ _ => (ARRAY, "DataView")
  end.

Lemma typeOf_ref h l o : h !! l = Some o → typeOf h (VRef l) = classify o.
Proof.
  intros Hl. unfold typeOf. rewrite Hl.
  destruct o as [| | | | | | | | | | |k ?| |]; try reflexivity.
  by destruct k.
Qed.

Lemma typeOf_prim h p : typeOf h (VPrim p) = (PRIMITIVE, typeof (VPrim p)).
Proof. reflexivity. Qed.

Definition is_callable (v : value) : bool :=
  match v with
  | VPrim (PFunction _) | VPrim (PSymbol _) => true
  | _ => false
  end.

(** What relaxed mode leaves of a cell: the entries of an object, [Map] or
    [Set] that hold a function or a symbol are gone. *)
Definition prune (o : obj) : obj :=
  match o with
  | OObject props toJSON =>
      OObject (List.filter (λ kv, negb (is_callable kv.2)) props) toJSON
  | OMap es =>
      OMap (List.filter (λ kv, negb (is_callable kv.1 || is_callable kv.2)) es)
  | OSet es => OSet (List.filter (λ e, negb (is_callable e)) es)
  | _ => o
  end.

(** [shouldSkip(typeOf(value))] holds of functions and symbols only. *)
Lemma shouldSkip_typeOf h v : shouldSkip (typeOf h v) = is_callable v.
Proof.
  destruct v as [p|l].
  - by destruct p.
  - destruct (h !! l) as [o|] eqn:Hl.
    + rewrite (typeOf_ref _ _ _ Hl). by destruct o.
    + unfold typeOf. by rewrite Hl.
Qed.

Lemma typed_of_name_name k : typed_of_name (typed_name k) = Some k.
Proof. by destruct k. Qed.

Lemma BigInt_of_toString z : BigInt_of_string (bigint_toString z) = Some z.
Proof.
  unfold BigInt_of_string, bigint_toString.
  rewrite NilZero.isi.
  - simpl. f_equal. apply DecimalZ.of_to.
  - destruct z; simpl; try discriminate.
    intros [= Hp]. by apply DecimalPos.Unsigned.to_uint_nonnil in Hp.
  - destruct z; simpl; try discriminate.
    intros [= Hp]. by apply DecimalPos.Unsigned.to_uint_nonnil in Hp.
Qed.

(** ** The serializer, case by case *)

Section pair_cases.
Context (h : heap) (strict json : bool).

Definition keep_value (entry : value) : bool :=
  strict || negb (shouldSkip (typeOf h entry)).

Definition keep_pair (key entry : value) : bool :=
  strict || negb (shouldSkip (typeOf h key) || shouldSkip (typeOf h entry)).

(** The PRIMITIVE case of [pair], by kind of primitive. *)
Definition pair_prim (p : prim) (st : sstate) : result (nat * sstate) :=
  match p with
  | PBigInt z =>
      Ok (as_ (TNum BIGINT, PayLit (PString (bigint_toString z))) (VPrim p) st)
  | PFunction _ | PSymbol _ =>
      if strict then Fail (Throw (TypeNotSerializable (typeof (VPrim p))))
      else Ok (as_ (TNum PRIMITIVE, PayLit PNull) (VPrim p) st)
  | PUndefined => Ok (as_ (TNum VOID, PayNone) (VPrim p) st)
  | _ => Ok (as_ (TNum PRIMITIVE, PayLit p) (VPrim p) st)
  end.

(** The other cases of [pair], by kind of object. *)
Definition pair_obj (rec : value → sstate → result (nat * sstate))
    (o : obj) (value : value) (st : sstate) : result (nat * sstate) :=
  match o with
  | OArray entries =>
      let '(index, st1) := as_ (TNum ARRAY, PaySlots []) value st in
      let* st2 := pair_each rec (λ _, true) index entries st1 in
      Ok (index, st2)
  | OObject props toJSON =>
      match (if json then toJSON else None) with
      | Some j => rec j st
      | None =>
          let '(index, st1) := as_ (TNum OBJECT, PayPairs []) value st in
          let* st2 :=
            pair_entries rec (λ _ entry, keep_value entry) index
              (key_entries props) st1 in
          Ok (index, st2)
      end
  | ODate iso => Ok (as_ (TNum DATE, PayLit (PString iso)) value st)
  | ORegExp source flags => Ok (as_ (TNum REGEXP, PayRegExp source flags) value st)
  | OMap entries =>
      let '(index, st1) := as_ (TNum MAP, PayPairs []) value st in
      let* st2 := pair_entries rec keep_pair index entries st1 in
      Ok (index, st2)
  | OSet entries =>
      let '(index, st1) := as_ (TNum SET, PaySlots []) value st in
      let* st2 := pair_each rec keep_value index entries st1 in
      Ok (index, st2)
  | OError _ message => Ok (as_ (TNum ERROR, PayError "Error" message) value st)
  | OBoolean b => Ok (as_ (TStr "Boolean", PayLit (PBool b)) value st)
  | ONumber n => Ok (as_ (TStr "Number", PayLit (PNumber n)) value st)
  | OString s => Ok (as_ (TStr "String", PayLit (PString s)) value st)
  | OBigInt z =>
      Ok (as_ (TStr "BigInt", PayLit (PString (bigint_toString z))) value st)
  | OTyped k elems => Ok (as_ (TStr (typed_name k), PayElems elems) value st)
  | OArrayBuffer bytes => Ok (as_ (TStr "ArrayBuffer", PayElems bytes) value st)
  | ODataView b _ _ =>
      match h !! b with
      | Some (OArrayBuffer bytes) =>
          Ok (as_ (TStr "DataView", PayElems bytes) value st)
      | _ => Fail Stuck
      end
  end.

Lemma pair_unfold fuel v st :
  pair h strict json (S fuel) v st =
  match jsmap_get (st_map st) (canon v) with
  | Some index => Ok (index, st)
  | None =>
      match v with
      | VPrim p => pair_prim p st
      | VRef l =>
          match h !! l with
          | Some o => pair_obj (pair h strict json fuel) o v st
          | None => Fail Stuck
          end
      end
  end.
Proof.
  simpl. destruct (jsmap_get (st_map st) (canon v)) as [i|]; [done|].
  destruct v as [p|l].
  - by destruct p.
  - destruct (h !! l) as [o|] eqn:Hl.
    + rewrite (typeOf_ref _ _ _ Hl). simpl. rewrite Hl.
      destruct o as [| | | | | | | | | | |k ?| |]; try reflexivity.
      * by destruct k.
      * simpl. by destruct (h !! buffer) as [[]|].
    + unfold typeOf. rewrite Hl. simpl. by rewrite Hl.
Qed.
End pair_cases.

(** ** What a run of the serializer establishes

    The facts below follow the run of [pair] without [json]: the [toJSON]
    shortcut is the only path on which [pair] recurses without reserving a
    slot first. *)

Lemma filter_all {A} (f : A → bool) (l : list A) :
  (∀ x, f x = true) → List.filter f l = l.
Proof. intros Hf. induction l as [|x l IH]; simpl; [done|]. by rewrite Hf, IH. Qed.

Lemma filter_ext_in {A} (f g : A → bool) l :
  (∀ x, f x = g x) → List.filter f l = List.filter g l.
Proof. intros Hfg. induction l as [|x l IH]; simpl; [done|]. by rewrite Hfg, IH. Qed.

Section encoder.
Context (h : heap) (strict : bool).

Definition slot_of (st : sstate) (v : value) (i : nat) : Prop :=
  jsmap_get (st_map st) (canon v) = Some i.

Definition slots_of (st : sstate) (kv : value * value) (p : nat * nat) : Prop :=
  slot_of st kv.1 p.1 ∧ slot_of st kv.2 p.2.

(** The record that a finished slot holds for an object. *)
Definition describes_obj (st : sstate) (o : obj) (r : record) : Prop :=
  match o with
  | OArray es =>
      ∃ slots, r = (TNum ARRAY, PaySlots slots) ∧ Forall2 (slot_of st) es slots
  | OObject props _ =>
      ∃ pairs, r = (TNum OBJECT, PayPairs pairs) ∧
        Forall2 (slots_of st)
          (List.filter (λ kv, keep_value h strict kv.2) (key_entries props))
          pairs
  | ODate iso => r = (TNum DATE, PayLit (PString iso))
  | ORegExp source flags => r = (TNum REGEXP, PayRegExp source flags)
  | OMap es =>
      ∃ pairs, r = (TNum MAP, PayPairs pairs) ∧
        Forall2 (slots_of st)
          (List.filter (λ kv, keep_pair h strict kv.1 kv.2) es) pairs
  | OSet es =>
      ∃ slots, r = (TNum SET, PaySlots slots) ∧
        Forall2 (slot_of st) (List.filter (keep_value h strict) es) slots
  | OError _ message => r = (TNum ERROR, PayError "Error" message)
  | OBoolean b => r = (TStr "Boolean", PayLit (PBool b))
  | ONumber n => r = (TStr "Number", PayLit (PNumber n))
  | OString s => r = (TStr "String", PayLit (PString s))
  | OBigInt z => r = (TStr "BigInt", PayLit (PString (bigint_toString z)))
  | OTyped k elems => r = (TStr (typed_name k), PayElems elems)
  | OArrayBuffer bytes => r = (TStr "ArrayBuffer", PayElems bytes)
  | ODataView b _ _ =>
      ∃ bytes, h !! b = Some (OArrayBuffer bytes) ∧
               r = (TStr "DataView", PayElems bytes)
  end.

(** The record that a finished slot holds for the key [k] of the map. *)
Definition describes (st : sstate) (k : value) (r : record) : Prop :=
  match k with
  | VPrim PUndefined => r = (TNum VOID, PayNone)
  | VPrim (PBigInt z) =>
      r = (TNum BIGINT, PayLit (PString (bigint_toString z)))
  | VPrim (PFunction _) | VPrim (PSymbol _) =>
      strict = false ∧ r = (TNum PRIMITIVE, PayLit PNull)
  | VPrim p =>
      ∃ p', r = (TNum PRIMITIVE, PayLit p') ∧ canon (VPrim p') = VPrim p
  | VRef l => ∃ o, h !! l = Some o ∧ describes_obj st o r
  end.

Record enc_inv (st : sstate) : Prop := {
  inv_range : ∀ k i, jsmap_get (st_map st) k = Some i → i < length (st_out st);
  inv_inj : ∀ k k' i,
    jsmap_get (st_map st) k = Some i → jsmap_get (st_map st) k' = Some i →
    k = k';
  inv_surj : ∀ i, i < length (st_out st) →
    ∃ k, jsmap_get (st_map st) k = Some i
}.

(** From [st] to [st']: the map grows, and every key it gains has a
    finished slot. *)
Record enc_step (st st' : sstate) : Prop := {
  step_mono : ∀ k i,
    jsmap_get (st_map st) k = Some i → jsmap_get (st_map st') k = Some i;
  step_len : length (st_out st) ≤ length (st_out st');
  step_inv : enc_inv st';
  step_new : ∀ k j,
    jsmap_get (st_map st') k = Some j → jsmap_get (st_map st) k = None →
    length (st_out st) ≤ j ∧
    ∃ r, st_out st' !! j = Some r ∧ describes st' k r
}.

Definition pair_post (st : sstate) (v : value) (i : nat) (st' : sstate) : Prop :=
  enc_step st st' ∧
  (∀ j, j < length (st_out st) → st_out st' !! j = st_out st !! j) ∧
  slot_of st' v i.

Lemma describes_mono st st' k r :
  (∀ k i, jsmap_get (st_map st) k = Some i → jsmap_get (st_map st') k = Some i) →
  describes st k r → describes st' k r.
Proof.
  intros Hm. destruct k as [p|l]; [done|].
  intros (o & Hl & Ho). exists o. split; [done|].
  assert (Hs : ∀ v i, slot_of st v i → slot_of st' v i) by (intros ??; apply Hm).
  assert (Hp : ∀ kv p, slots_of st kv p → slots_of st' kv p).
  { intros ?? [??]. split; by apply Hs. }
  destruct o; simpl in *; try done;
    destruct Ho as (x & -> & HF); exists x; (split; [done|]);
    eapply Forall2_impl; eauto.
Qed.

Lemma enc_step_refl st : enc_inv st → enc_step st st.
Proof. intros Hi. split; try done. intros k j ??. congruence. Qed.

Lemma enc_step_trans a b c :
  enc_step a b → enc_step b c →
  (∀ j, length (st_out a) ≤ j → j < length (st_out b) →
        st_out c !! j = st_out b !! j) →
  enc_step a c.
Proof.
  intros [Hm1 Hl1 Hi1 Hn1] [Hm2 Hl2 Hi2 Hn2] Hfr. split; [auto|lia|done|].
  intros k j Hc Ha. destruct (jsmap_get (st_map b) k) as [j'|] eqn:Hb.
  - destruct (Hn1 _ _ Hb Ha) as (Hle & r & Hr & Hd).
    assert (j' = j) as -> by (apply Hm2 in Hb; congruence).
    split; [done|]. exists r. split.
    + rewrite Hfr; [done..|]. by eapply lookup_lt_Some.
    + by eapply describes_mono.
  - destruct (Hn2 _ _ Hc Hb) as (Hle & r & Hr & Hd).
    split; [lia|]. by exists r.
Qed.

(** Reserving a slot. *)
Lemma as_inv out v st :
  enc_inv st → jsmap_get (st_map st) (canon v) = None →
  enc_inv (as_ out v st).2.
Proof.
  intros [Hr Hj Hs] Hnone. split; simpl.
  - intros k i. rewrite jsmap_get_set, length_app. simpl.
    case_decide; [intros [= <-]; lia|]. intros Hk%Hr. lia.
  - intros k k' i. rewrite !jsmap_get_set.
    repeat case_decide; subst; try congruence.
    + intros [= <-] Hk%Hr. lia.
    + intros Hk%Hr [= <-]. lia.
    + eauto.
  - intros i. rewrite length_app. simpl. intros Hi.
    destruct (decide (i = length (st_out st))) as [->|Hne].
    + exists (canon v). by rewrite jsmap_get_set_eq.
    + destruct (Hs i) as [k Hk]; [lia|]. exists k.
      rewrite jsmap_get_set_ne; [done|]. congruence.
Qed.

Lemma as_mono out v st k i :
  jsmap_get (st_map st) (canon v) = None →
  jsmap_get (st_map st) k = Some i →
  jsmap_get (st_map (as_ out v st).2) k = Some i.
Proof.
  intros Hnone Hk. simpl. rewrite jsmap_get_set_ne; [done|]. congruence.
Qed.

(** A slot reserved in [st] and finished in [st2]. *)
Lemma enc_step_open out v st st2 :
  enc_inv st → jsmap_get (st_map st) (canon v) = None →
  enc_step (as_ out v st).2 st2 →
  (∀ j, j < length (st_out st) → st_out st2 !! j = st_out st !! j) →
  (∃ r, st_out st2 !! length (st_out st) = Some r ∧ describes st2 (canon v) r) →
  pair_post st v (length (st_out st)) st2.
Proof.
  intros Hi Hnone [Hm Hl Hi2 Hn] Hfr (r & Hr & Hd).
  assert (Hv : jsmap_get (st_map st2) (canon v) = Some (length (st_out st))).
  { apply Hm. simpl. apply jsmap_get_set_eq. }
  split; [|done]. split; [| |done|].
  - intros k i Hk. apply Hm. by apply (as_mono out).
  - simpl in Hl. rewrite length_app in Hl. simpl in Hl. lia.
  - intros k j Hk2 Hk. destruct (decide (canon v = k)) as [<-|Hne].
    + assert (j = length (st_out st)) as -> by congruence.
      split; [done|]. by exists r.
    + destruct (Hn k j Hk2) as (Hle & r' & Hr' & Hd').
      { simpl. by rewrite jsmap_get_set_ne. }
      simpl in Hle. rewrite length_app in Hle. simpl in Hle.
      split; [lia|]. by exists r'.
Qed.

(** A slot reserved and finished at once. *)
Lemma pair_post_leaf out v st :
  enc_inv st → jsmap_get (st_map st) (canon v) = None →
  describes (as_ out v st).2 (canon v) out →
  pair_post st v (length (st_out st)) (as_ out v st).2.
Proof.
  intros Hi Hnone Hd. apply (enc_step_open out); try done.
  - apply enc_step_refl. by apply as_inv.
  - intros j Hj. simpl. by rewrite lookup_app_l.
  - exists out. split; [|done]. simpl. by rewrite list_lookup_middle.
Qed.

Lemma enc_step_alter st st1 f index :
  enc_step st st1 → index < length (st_out st) →
  enc_step st {| st_map := st_map st1; st_out := alter f index (st_out st1) |}.
Proof.
  intros [Hm Hl [Hr Hj Hs] Hn] Hidx. split; simpl.
  - done.
  - by rewrite length_alter.
  - split; simpl; rewrite ?length_alter; done.
  - intros k j Hk2 Hk. destruct (Hn k j Hk2 Hk) as (Hle & r & Hr' & Hd).
    split; [done|]. exists r. split; [|done].
    rewrite list_lookup_alter_ne; [done|lia].
Qed.

Definition rec_ok (rec : value → sstate → result (nat * sstate)) : Prop :=
  ∀ v st i st', enc_inv st → rec v st = Ok (i, st') → pair_post st v i st'.

Lemma pair_each_spec rec keep index (Hrec : rec_ok rec) es :
  ∀ st st' t done,
  enc_inv st → st_out st !! index = Some (t, PaySlots done) →
  pair_each rec keep index es st = Ok st' →
  enc_step st st' ∧
  (∀ j, j < length (st_out st) → j ≠ index →
        st_out st' !! j = st_out st !! j) ∧
  ∃ news, st_out st' !! index = Some (t, PaySlots (done ++ news)) ∧
          Forall2 (slot_of st') (List.filter keep es) news.
Proof.
  induction es as [|e es IH]; intros st st' t done Hi Hidx Hrun; simpl in *.
  - injection Hrun as <-. split; [by apply enc_step_refl|]. split; [done|].
    exists []. by rewrite app_nil_r.
  - destruct (keep e) eqn:Hk; [|by eapply IH].
    destruct (rec e st) as [[i st1]|] eqn:He; [|done].
    destruct (Hrec _ _ _ _ Hi He) as (Hs1 & Hf1 & Hsl).
    assert (Hlt : index < length (st_out st)) by by eapply lookup_lt_Some.
    pose proof (enc_step_alter _ _
      (λ r, match r with
            | (t, PaySlots l) => (t, PaySlots (l ++ [i]))
            | _ => r
            end) index Hs1 Hlt) as Hs1'.
    fold (push_slot index i (st_out st1)) in Hs1'.
    set (st1' := {| st_map := st_map st1;
                    st_out := push_slot index i (st_out st1) |}) in *.
    assert (Hidx1' : st_out st1' !! index = Some (t, PaySlots (done ++ [i]))).
    { simpl. unfold push_slot. rewrite list_lookup_alter_eq, Hf1 by done.
      by rewrite Hidx. }
    destruct (IH _ _ _ _ (step_inv _ _ Hs1') Hidx1' Hrun)
      as (Hs2 & Hf2 & news & Hn & HF).
    pose proof (step_len _ _ Hs1') as Hlen1.
    split; [|split].
    + eapply enc_step_trans; [exact Hs1'|exact Hs2|].
      intros j Hj1 Hj2. apply Hf2; [done|lia].
    + intros j Hj Hne. rewrite Hf2; [|lia|done]. simpl. unfold push_slot.
      rewrite list_lookup_alter_ne; [|done]. by apply Hf1.
    + exists (i :: news). split; [by rewrite Hn, <-app_assoc|].
      constructor; [|done]. by apply (step_mono _ _ Hs2).
Qed.

Lemma pair_entries_spec rec keep index (Hrec : rec_ok rec) es :
  ∀ st st' t done,
  enc_inv st → st_out st !! index = Some (t, PayPairs done) →
  pair_entries rec keep index es st = Ok st' →
  enc_step st st' ∧
  (∀ j, j < length (st_out st) → j ≠ index →
        st_out st' !! j = st_out st !! j) ∧
  ∃ news, st_out st' !! index = Some (t, PayPairs (done ++ news)) ∧
          Forall2 (slots_of st') (List.filter (λ kv, keep kv.1 kv.2) es) news.
Proof.
  induction es as [|[k e] es IH]; intros st st' t done Hi Hidx Hrun; simpl in *.
  - injection Hrun as <-. split; [by apply enc_step_refl|]. split; [done|].
    exists []. by rewrite app_nil_r.
  - destruct (keep k e) eqn:Hk; [|by eapply IH].
    destruct (rec k st) as [[ki st0]|] eqn:Hek; [|done].
    destruct (Hrec _ _ _ _ Hi Hek) as (Hs0 & Hf0 & Hsk).
    destruct (rec e st0) as [[ei st1]|] eqn:He; [|done].
    destruct (Hrec _ _ _ _ (step_inv _ _ Hs0) He) as (Hs01 & Hf01 & Hse).
    assert (Hlt : index < length (st_out st)) by by eapply lookup_lt_Some.
    pose proof (step_len _ _ Hs0) as Hlen0.
    assert (Hs1 : enc_step st st1).
    { eapply enc_step_trans; [exact Hs0|exact Hs01|]. intros j _ Hj. by apply Hf01. }
    assert (Hf1 : ∀ j, j < length (st_out st) → st_out st1 !! j = st_out st !! j).
    { intros j Hj. rewrite Hf01; [by apply Hf0|lia]. }
    pose proof (enc_step_alter _ _
      (λ r, match r with
            | (t, PayPairs l) => (t, PayPairs (l ++ [(ki, ei)]))
            | _ => r
            end) index Hs1 Hlt) as Hs1'.
    fold (push_pair index (ki, ei) (st_out st1)) in Hs1'.
    set (st1' := {| st_map := st_map st1;
                    st_out := push_pair index (ki, ei) (st_out st1) |}) in *.
    assert (Hidx1' : st_out st1' !! index = Some (t, PayPairs (done ++ [(ki, ei)]))).
    { simpl. unfold push_pair. rewrite list_lookup_alter_eq, Hf1 by done.
      by rewrite Hidx. }
    destruct (IH _ _ _ _ (step_inv _ _ Hs1') Hidx1' Hrun)
      as (Hs2 & Hf2 & news & Hn & HF).
    pose proof (step_len _ _ Hs1') as Hlen1.
    split; [|split].
    + eapply enc_step_trans; [exact Hs1'|exact Hs2|].
      intros j Hj1 Hj2. apply Hf2; [done|lia].
    + intros j Hj Hne. rewrite Hf2; [|lia|done]. simpl. unfold push_pair.
      rewrite list_lookup_alter_ne; [|done]. by apply Hf1.
    + exists ((ki, ei) :: news). split; [by rewrite Hn, <-app_assoc|].
      constructor; [|done]. split; simpl.
      * apply (step_mono _ _ Hs2). simpl. by apply (step_mono _ _ Hs01).
      * by apply (step_mono _ _ Hs2).
Qed.

Lemma filter_key_entries (f : value → bool) props :
  List.filter (λ kv : value * value, f kv.2) (key_entries props) =
  key_entries (List.filter (λ kv : string * value, f kv.2) props).
Proof.
  induction props as [|[k v] props IH]; simpl; [done|].
  destruct (f v); simpl; by rewrite IH.
Qed.

Theorem pair_spec fuel : rec_ok (pair h strict false fuel).
Proof.
  induction fuel as [|fuel IH]; intros v st i st' Hi Hrun; [done|].
  rewrite pair_unfold in Hrun.
  destruct (jsmap_get (st_map st) (canon v)) as [i0|] eqn:Hget.
  { injection Hrun as <- <-. split; [by apply enc_step_refl|]. by split. }
  destruct v as [p|l].
  - destruct p as [| | |n| | | |]; simpl in Hrun;
      try (destruct strict eqn:Hstrict; [done|]);
      injection Hrun as <- <-;
      (eapply pair_post_leaf; [done|done|]); simpl; eauto.
    destruct n; simpl; eauto.
  - destruct (h !! l) as [o|] eqn:Hl; [|done].
    assert (Hleaf : ∀ out,
      describes_obj (as_ out (VRef l) st).2 o out →
      pair_post st (VRef l) (length (st_out st)) (as_ out (VRef l) st).2).
    { intros out Hd. eapply pair_post_leaf; [done|done|]. by exists o. }
    assert (Hopen : ∀ out st2,
      enc_step (as_ out (VRef l) st).2 st2 →
      (∀ j, j < length (st_out (as_ out (VRef l) st).2) →
            j ≠ length (st_out st) →
            st_out st2 !! j = st_out (as_ out (VRef l) st).2 !! j) →
      (∃ r, st_out st2 !! length (st_out st) = Some r ∧ describes_obj st2 o r) →
      pair_post st (VRef l) (length (st_out st)) st2).
    { intros out st2 Hs Hf (r & Hr & Hd). eapply enc_step_open; eauto.
      - intros j Hj. rewrite Hf; simpl; [|rewrite length_app; lia|lia].
        by rewrite lookup_app_l.
      - exists r. split; [done|]. by exists o. }
    assert (Hhere : ∀ out, st_out (as_ out (VRef l) st).2 !! length (st_out st)
                           = Some out).
    { intros out. simpl. by rewrite list_lookup_middle. }
    destruct o; simpl in Hrun.
    + destruct pair_each as [st2|] eqn:Hloop; [|done]. injection Hrun as <- <-.
      destruct (pair_each_spec _ _ _ IH _ _ _ _ _
                  (as_inv _ _ _ Hi Hget) (Hhere _) Hloop)
        as (Hs & Hf & news & Hn & HF).
      eapply Hopen; eauto. exists (TNum ARRAY, PaySlots news). split; [done|].
      exists news. split; [done|]. by rewrite filter_all in HF.
    + destruct pair_entries as [st2|] eqn:Hloop; [|done]. injection Hrun as <- <-.
      destruct (pair_entries_spec _ _ _ IH _ _ _ _ _
                  (as_inv _ _ _ Hi Hget) (Hhere _) Hloop)
        as (Hs & Hf & news & Hn & HF).
      eapply Hopen; eauto. exists (TNum OBJECT, PayPairs news). split; [done|].
      exists news. by split.
    + injection Hrun as <- <-. by apply Hleaf.
    + injection Hrun as <- <-. by apply Hleaf.
    + destruct pair_entries as [st2|] eqn:Hloop; [|done]. injection Hrun as <- <-.
      destruct (pair_entries_spec _ _ _ IH _ _ _ _ _
                  (as_inv _ _ _ Hi Hget) (Hhere _) Hloop)
        as (Hs & Hf & news & Hn & HF).
      eapply Hopen; eauto. exists (TNum MAP, PayPairs news). split; [done|].
      exists news. by split.
    + destruct pair_each as [st2|] eqn:Hloop; [|done]. injection Hrun as <- <-.
      destruct (pair_each_spec _ _ _ IH _ _ _ _ _
                  (as_inv _ _ _ Hi Hget) (Hhere _) Hloop)
        as (Hs & Hf & news & Hn & HF).
      eapply Hopen; eauto. exists (TNum SET, PaySlots news). split; [done|].
      exists news. by split.
    + injection Hrun as <- <-. by apply Hleaf.
    + injection Hrun as <- <-. by apply Hleaf.
    + injection Hrun as <- <-. by apply Hleaf.
    + injection Hrun as <- <-. by apply Hleaf.
    + injection Hrun as <- <-. by apply Hleaf.
    + injection Hrun as <- <-. by apply Hleaf.
    + injection Hrun as <- <-. by apply Hleaf.
    + destruct (h !! buffer) as [[]|] eqn:Hb; try done.
      injection Hrun as <- <-. apply Hleaf. simpl. eauto.
Qed.
End encoder.

(** ** Well-formed heaps and reachability *)

(** The values [pair] recurses into from an object. *)
Definition children (o : obj) : list value :=
  match o with
  | OArray es => es
  | OObject props _ => props.*2
  | OMap es => es.*1 ++ es.*2
  | OSet es => es
  | _ => []
  end.

Definition child (h : heap) (v c : value) : Prop :=
  ∃ l o, v = VRef l ∧ h !! l = Some o ∧ c ∈ children o.

Definition reachable (h : heap) : value → value → Prop := rtc (child h).

Definition wf_value (h : heap) (v : value) : Prop :=
  match v with VRef l => l < length h | VPrim _ => True end.

(** References point into the heap, a [DataView] views an [ArrayBuffer] of
    the heap, an object has each key once and no own property named
    [__proto__], and a [Map] or [Set] holds each key once, [-0] stored as
    [+0]. *)
Definition wf_obj (h : heap) (o : obj) : Prop :=
  Forall (wf_value h) (children o) ∧
  match o with
  | OObject props _ => NoDup props.*1 ∧ "__proto__" ∉ props.*1
  | OMap es => NoDup es.*1 ∧ Forall (λ k, canon k = k) es.*1
  | OSet es => NoDup es ∧ Forall (λ k, canon k = k) es
  | ODataView b _ _ =>
      match h !! b with Some (OArrayBuffer _) => True | _ => False end
  | _ => True
  end.

Definition wf_heap (h : heap) : Prop := Forall (wf_obj h) h.

#[global] Instance wf_value_dec h v : Decision (wf_value h v).
Proof. destruct v; simpl; apply _. Defined.

#[global] Instance wf_obj_dec h o : Decision (wf_obj h o).
Proof.
  unfold wf_obj. apply and_dec; [apply _|].
  destruct o; try apply _.
  destruct (h !! buffer) as [[]|]; apply _.
Defined.

#[global] Instance wf_heap_dec h : Decision (wf_heap h).
Proof. unfold wf_heap. apply _. Defined.

Lemma wf_heap_lookup h l o : wf_heap h → h !! l = Some o → wf_obj h o.
Proof. intros Hwf Hl. eapply Forall_lookup_1; eauto. Qed.

Lemma wf_value_lookup h l : wf_value h (VRef l) → ∃ o, h !! l = Some o.
Proof. simpl. intros Hl. by apply lookup_lt_is_Some_2. Qed.

Lemma child_prim h p c : ¬ child h (VPrim p) c.
Proof. by intros (l & o & [=] & _). Qed.

Lemma reachable_prim h p c : reachable h (VPrim p) c → c = VPrim p.
Proof.
  intros Hr. apply rtc_inv in Hr as [Heq|(x & Hc & _)]; [done|].
  by apply child_prim in Hc.
Qed.

Lemma reachable_child h l o e c :
  h !! l = Some o → e ∈ children o → reachable h e c → reachable h (VRef l) c.
Proof. intros Hl He Hr. eapply rtc_l; [|exact Hr]. by exists l, o. Qed.

(** ** The fuel the serializer needs *)

(** The references that have no slot yet bound the depth of the
    recursion. *)
Definition pending (h : heap) (st : sstate) : nat :=
  length (filter (λ l, jsmap_get (st_map st) (VRef l) = None)
                 (seq 0 (length h))).

Lemma filter_length_mono {A} (P Q : A → Prop)
    `{∀ x, Decision (P x)} `{∀ x, Decision (Q x)} (l : list A) :
  (∀ x, Q x → P x) → length (filter Q l) ≤ length (filter P l).
Proof.
  intros HQP. induction l as [|x l IH]; [done|].
  rewrite !filter_cons. destruct (decide (Q x)) as [HQ|HQ].
  - rewrite decide_True by auto. simpl. lia.
  - destruct (decide (P x)); simpl; lia.
Qed.

Lemma filter_length_lt {A} (P Q : A → Prop)
    `{∀ x, Decision (P x)} `{∀ x, Decision (Q x)} (l : list A) y :
  (∀ x, Q x → P x) → y ∈ l → P y → ¬ Q y →
  length (filter Q l) < length (filter P l).
Proof.
  intros HQP Hy HP HQ. induction l as [|x l IH]; [by apply elem_of_nil in Hy|].
  rewrite !filter_cons. apply elem_of_cons in Hy as [<-|Hy].
  - rewrite decide_False, decide_True by done. simpl.
    pose proof (filter_length_mono P Q l HQP). lia.
  - specialize (IH Hy). destruct (decide (Q x)) as [HQx|HQx].
    + rewrite decide_True by auto. simpl. lia.
    + destruct (decide (P x)); simpl; lia.
Qed.

Lemma pending_mono h st st' :
  (∀ k i, jsmap_get (st_map st) k = Some i → jsmap_get (st_map st') k = Some i) →
  pending h st' ≤ pending h st.
Proof.
  intros Hm. apply filter_length_mono. intros l Hl.
  destruct (jsmap_get (st_map st) (VRef l)) as [i|] eqn:Hi; [|done].
  apply Hm in Hi. congruence.
Qed.

Lemma pending_as h out l st :
  l < length h → jsmap_get (st_map st) (VRef l) = None →
  pending h (as_ out (VRef l) st).2 < pending h st.
Proof.
  intros Hl Hnone. apply filter_length_lt with (y := l); try done.
  - intros l'. simpl. rewrite jsmap_get_set. by case_decide.
  - apply elem_of_seq. lia.
  - simpl. by rewrite jsmap_get_set_eq.
Qed.

Section totality.
Context (h : heap) (strict : bool) (Hwf : wf_heap h).

(** The only failure of a run on a well-formed heap with enough fuel: in
    strict mode, on a function or symbol reachable from [v]. *)
Definition throws_at (v : value) (f : failure) : Prop :=
  strict = true ∧
  ∃ c, reachable h v c ∧ is_callable c = true ∧
       f = Throw (TypeNotSerializable (typeof c)).

Definition rec_total (n : nat)
    (rec : value → sstate → result (nat * sstate)) : Prop :=
  ∀ v st, enc_inv st → wf_value h v → pending h st < n →
    match rec v st with Ok _ => True | Fail f => throws_at v f end.

Lemma enc_inv_alter st f i :
  enc_inv st →
  enc_inv {| st_map := st_map st; st_out := alter f i (st_out st) |}.
Proof. intros [Hr Hj Hs]. split; simpl; rewrite ?length_alter; done. Qed.

Lemma pair_each_total n rec keep index es :
  rec_ok h strict rec → rec_total n rec → Forall (wf_value h) es →
  ∀ st, enc_inv st → pending h st < n →
  match pair_each rec keep index es st with
  | Ok _ => True
  | Fail f => ∃ e, e ∈ es ∧ throws_at e f
  end.
Proof.
  intros Hok Htot. induction es as [|e es IH]; intros Hes st Hi Hp; simpl; [done|].
  apply Forall_cons in Hes as [He Hes].
  assert (Hrest : ∀ st, enc_inv st → pending h st < n →
    match pair_each rec keep index es st with
    | Ok _ => True
    | Fail f => ∃ e0, e0 ∈ e :: es ∧ throws_at e0 f
    end).
  { intros st0 Hi0 Hp0. specialize (IH Hes st0 Hi0 Hp0).
    destruct pair_each; [done|]. destruct IH as (e0 & ? & ?).
    exists e0. split; [by apply elem_of_cons; right|done]. }
  destruct (keep e); [|by apply Hrest].
  pose proof (Htot e st Hi He Hp) as Hrun.
  destruct (rec e st) as [[i st1]|f] eqn:Hrec.
  - destruct (Hok _ _ _ _ Hi Hrec) as (Hs & _ & _).
    apply Hrest.
    + apply enc_inv_alter, Hs.
    + pose proof (pending_mono h st st1 (step_mono _ _ _ _ Hs)).
      unfold pending in *. simpl. lia.
  - exists e. split; [apply elem_of_cons; by left|done].
Qed.

Lemma pair_entries_total n rec keep index es :
  rec_ok h strict rec → rec_total n rec →
  Forall (wf_value h) (es.*1 ++ es.*2) →
  ∀ st, enc_inv st → pending h st < n →
  match pair_entries rec keep index es st with
  | Ok _ => True
  | Fail f => ∃ e, e ∈ es.*1 ++ es.*2 ∧ throws_at e f
  end.
Proof.
  intros Hok Htot.
  induction es as [|[k e] es IH]; intros Hes st Hi Hp; simpl; [done|].
  apply Forall_app in Hes as [Hks Hvs]. simpl in Hks, Hvs.
  apply Forall_cons in Hks as [Hk Hks]. apply Forall_cons in Hvs as [He Hvs].
  assert (Hrest : ∀ st, enc_inv st → pending h st < n →
    match pair_entries rec keep index es st with
    | Ok _ => True
    | Fail f => ∃ e0, e0 ∈ k :: es.*1 ++ e :: es.*2 ∧ throws_at e0 f
    end).
  { intros st0 Hi0 Hp0.
    specialize (IH (proj2 (Forall_app _ _ _) (conj Hks Hvs)) st0 Hi0 Hp0).
    destruct pair_entries; [done|]. destruct IH as (e0 & Hin & ?).
    exists e0. split; [|done].
    apply elem_of_app in Hin as [?|?].
    - apply elem_of_cons; right. apply elem_of_app; by left.
    - apply elem_of_cons; right. apply elem_of_app; right.
      by apply elem_of_cons; right. }
  destruct (keep k e); [|by apply Hrest].
  pose proof (Htot k st Hi Hk Hp) as Hrun.
  destruct (rec k st) as [[ki st0]|f] eqn:Hreck.
  - destruct (Hok _ _ _ _ Hi Hreck) as (Hs0 & _ & _).
    pose proof (pending_mono h st st0 (step_mono _ _ _ _ Hs0)) as Hp0.
    pose proof (Htot e st0 (step_inv _ _ _ _ Hs0) He ltac:(lia)) as Hrun'.
    destruct (rec e st0) as [[ei st1]|f] eqn:Hrece.
    + destruct (Hok _ _ _ _ (step_inv _ _ _ _ Hs0) Hrece) as (Hs1 & _ & _).
      apply Hrest.
      * apply enc_inv_alter, Hs1.
      * pose proof (pending_mono h st0 st1 (step_mono _ _ _ _ Hs1)).
        unfold pending in *. simpl. lia.
    + exists e. split; [|done]. apply elem_of_cons; right.
      apply elem_of_app; right. apply elem_of_cons; by left.
  - exists k. split; [apply elem_of_cons; by left|done].
Qed.

Lemma throws_at_child l o e f :
  h !! l = Some o → e ∈ children o → throws_at e f → throws_at (VRef l) f.
Proof.
  intros Hl He (Hs & c & Hr & Hc & ->). split; [done|]. exists c.
  split; [|done]. by eapply reachable_child.
Qed.

Theorem pair_total fuel : rec_total fuel (pair h strict false fuel).
Proof.
  induction fuel as [|fuel IH]; intros v st Hi Hv Hp; [lia|].
  rewrite pair_unfold.
  destruct (jsmap_get (st_map st) (canon v)) as [i0|] eqn:Hget; [done|].
  destruct v as [p|l].
  - destruct p; simpl; try done;
      (destruct strict eqn:Hstrict; [|done]);
      (split; [done|]); eexists; (split; [apply rtc_refl|]); done.
  - destruct (wf_value_lookup _ _ Hv) as [o Hl]. rewrite Hl.
    pose proof (wf_heap_lookup _ _ _ Hwf Hl) as [Hch Ho].
    assert (Hp1 : ∀ out, pending h (as_ out (VRef l) st).2 < fuel).
    { intros out. pose proof (pending_as h out l st Hv Hget). lia. }
    assert (Hi1 : ∀ out, enc_inv (as_ out (VRef l) st).2).
    { intros out. by apply as_inv. }
    destruct o; simpl in *; try done.
    + pose proof (pair_each_total fuel _ (λ _, true) (length (st_out st)) elems
        (pair_spec h strict fuel) IH Hch _ (Hi1 (TNum ARRAY, PaySlots []))
        (Hp1 (TNum ARRAY, PaySlots []))) as Hloop.
      destruct pair_each; [done|]. destruct Hloop as (e & He & Ht).
      by eapply throws_at_child.
    + pose proof (pair_entries_total fuel _ (λ _ entry, keep_value h strict entry)
        (length (st_out st)) (key_entries props)
        (pair_spec h strict fuel) IH) as Hloop.
      ospecialize* (Hloop _ _ (Hi1 (TNum OBJECT, PayPairs []))
        (Hp1 (TNum OBJECT, PayPairs []))).
      { apply Forall_app. split.
        - unfold key_entries. rewrite <-list_fmap_compose.
          apply Forall_fmap, Forall_true. done.
        - unfold key_entries. rewrite <-list_fmap_compose. exact Hch. }
      destruct pair_entries; [done|]. destruct Hloop as (e & He & Ht).
      apply elem_of_app in He as [He|He].
      * unfold key_entries in He. rewrite <-list_fmap_compose in He.
        apply list_elem_of_fmap in He as ([k x] & -> & _). simpl in Ht.
        destruct Ht as (_ & c & Hr & Hc & _).
        apply reachable_prim in Hr as ->. done.
      * unfold key_entries in He. rewrite <-list_fmap_compose in He.
        by eapply throws_at_child.
    + pose proof (pair_entries_total fuel _ (keep_pair h strict)
        (length (st_out st)) entries
        (pair_spec h strict fuel) IH Hch _ (Hi1 (TNum MAP, PayPairs []))
        (Hp1 (TNum MAP, PayPairs []))) as Hloop.
      destruct pair_entries; [done|]. destruct Hloop as (e & He & Ht).
      by eapply throws_at_child.
    + pose proof (pair_each_total fuel _ (keep_value h strict)
        (length (st_out st)) elems
        (pair_spec h strict fuel) IH Hch _ (Hi1 (TNum SET, PaySlots []))
        (Hp1 (TNum SET, PaySlots []))) as Hloop.
      destruct pair_each; [done|]. destruct Hloop as (e & He & Ht).
      by eapply throws_at_child.
    + destruct (h !! buffer) as [[]|]; done.
Qed.
End totality.

(** ** The finished sequence *)

Definition st_empty : sstate := {| st_map := []; st_out := [] |}.

(** Every key of the map has a finished slot. *)
Definition closed (h : heap) (strict : bool) (st : sstate) : Prop :=
  ∀ k i, jsmap_get (st_map st) k = Some i →
    ∃ r, st_out st !! i = Some r ∧ describes h strict st k r.

Lemma enc_inv_empty : enc_inv st_empty.
Proof. split; simpl; intros; try done. lia. Qed.

Section closed.
Context (h : heap) (strict : bool).

Lemma pair_closed fuel v i st :
  pair h strict false fuel v st_empty = Ok (i, st) →
  enc_inv st ∧ closed h strict st ∧ slot_of st v i.
Proof.
  intros Hrun.
  destruct (pair_spec h strict fuel _ _ _ _ enc_inv_empty Hrun) as (Hs & _ & Hv).
  split; [apply Hs|]. split; [|done].
  intros k j Hk. by destruct (step_new _ _ _ _ Hs k j Hk) as (_ & Hr).
Qed.

Lemma closed_child st l o c i :
  strict = true → closed h strict st →
  h !! l = Some o → slot_of st (VRef l) i → c ∈ children o →
  ∃ j, slot_of st c j.
Proof.
  intros -> Hcl Hl Hi Hc. destruct (Hcl _ _ Hi) as (r & _ & o' & Hl' & Hd).
  simpl in Hl'. assert (o' = o) as -> by congruence.
  destruct o; simpl in Hc, Hd; try by apply elem_of_nil in Hc.
  - destruct Hd as (slots & _ & HF).
    apply list_elem_of_lookup in Hc as [n Hn].
    destruct (Forall2_lookup_l _ _ _ _ _ HF Hn) as (j & _ & Hj). eauto.
  - destruct Hd as (pairs & _ & HF).
    rewrite filter_all in HF by done.
    apply list_elem_of_fmap in Hc as ([k x] & -> & Hin).
    apply list_elem_of_lookup in Hin as [n Hn].
    assert (Hn' : key_entries props !! n = Some (VPrim (PString k), x)).
    { unfold key_entries. by rewrite list_lookup_fmap, Hn. }
    destruct (Forall2_lookup_l _ _ _ _ _ HF Hn') as ([kj j] & _ & _ & Hj). eauto.
  - destruct Hd as (pairs & _ & HF).
    rewrite filter_all in HF by done.
    apply elem_of_app in Hc as [Hc|Hc];
      apply list_elem_of_fmap in Hc as ([k x] & -> & Hin);
      apply list_elem_of_lookup in Hin as [n Hn];
      destruct (Forall2_lookup_l _ _ _ _ _ HF Hn) as ([kj j] & _ & Hk & Hj);
      eauto.
  - destruct Hd as (slots & _ & HF).
    rewrite filter_all in HF by done.
    apply list_elem_of_lookup in Hc as [n Hn].
    destruct (Forall2_lookup_l _ _ _ _ _ HF Hn) as (j & _ & Hj). eauto.
Qed.

Lemma closed_reachable st v c :
  strict = true → closed h strict st →
  reachable h v c → (∃ i, slot_of st v i) → ∃ j, slot_of st c j.
Proof.
  intros Hs Hcl Hr. induction Hr as [|x y z (l & o & -> & Hl & Hy) _ IH]; [done|].
  intros [i Hi]. apply IH. by eapply closed_child.
Qed.

Lemma closed_not_callable st c j :
  strict = true → closed h strict st → slot_of st c j → is_callable c = false.
Proof.
  intros -> Hcl Hj. destruct (Hcl _ _ Hj) as (r & _ & Hd).
  destruct c as [[]|]; try done; by destruct Hd.
Qed.
End closed.

(** ** Failures of the serializer, whatever the options *)

Section throws.
Context (h : heap) (strict json : bool).

Definition strict_throw (e : exn) : Prop :=
  strict = true ∧
  (e = TypeNotSerializable "function" ∨ e = TypeNotSerializable "symbol").

Lemma pair_each_throw rec keep index es st e :
  (∀ v st e, rec v st = Fail (Throw e) → strict_throw e) →
  pair_each rec keep index es st = Fail (Throw e) → strict_throw e.
Proof.
  intros Hrec. revert st. induction es as [|x es IH]; intros st; simpl; [done|].
  destruct (keep x); [|by apply IH].
  destruct (rec x st) as [[i st1]|f] eqn:Hx; [by apply IH|].
  intros [= ->]. by eapply Hrec.
Qed.

Lemma pair_entries_throw rec keep index es st e :
  (∀ v st e, rec v st = Fail (Throw e) → strict_throw e) →
  pair_entries rec keep index es st = Fail (Throw e) → strict_throw e.
Proof.
  intros Hrec. revert st.
  induction es as [|[k x] es IH]; intros st; simpl; [done|].
  destruct (keep k x); [|by apply IH].
  destruct (rec k st) as [[ki st0]|f] eqn:Hk.
  - destruct (rec x st0) as [[xi st1]|f] eqn:Hx; [by apply IH|].
    intros [= ->]. by eapply Hrec.
  - intros [= ->]. by eapply Hrec.
Qed.

Lemma pair_throw fuel v st e :
  pair h strict json fuel v st = Fail (Throw e) → strict_throw e.
Proof.
  revert v st e. induction fuel as [|fuel IH]; intros v st e; [done|].
  rewrite pair_unfold.
  destruct (jsmap_get (st_map st) (canon v)); [done|].
  destruct v as [p|l].
  - destruct p; simpl; try done; destruct strict eqn:Hs; try done;
      intros [= <-]; (split; [done|]); simpl; auto.
  - destruct (h !! l) as [o|]; [|done].
    destruct o; simpl; try done.
    + destruct pair_each eqn:Hloop; [done|]. intros [= ->].
      by eapply pair_each_throw.
    + destruct (if json then toJSON else None); [apply IH|].
      destruct pair_entries eqn:Hloop; [done|]. intros [= ->].
      by eapply pair_entries_throw.
    + destruct pair_entries eqn:Hloop; [done|]. intros [= ->].
      by eapply pair_entries_throw.
    + destruct pair_each eqn:Hloop; [done|]. intros [= ->].
      by eapply pair_each_throw.
    + by destruct (h !! buffer) as [[]|].
Qed.

(** The first slot a run reserves is the slot it returns. *)
Lemma pair_root fuel v st i st' :
  st_map st = [] →
  pair h strict json fuel v st = Ok (i, st') → i = length (st_out st).
Proof.
  revert v. induction fuel as [|fuel IH]; intros v Hempty; [done|].
  rewrite pair_unfold, Hempty. simpl.
  destruct v as [p|l].
  - destruct p; simpl; try destruct strict; try done; by intros [= <- _].
  - destruct (h !! l) as [o|]; [|done].
    destruct o; simpl; try (by intros [= <- _]).
    + destruct pair_each; [|done]. by intros [= <- _].
    + destruct (if json then toJSON else None); [by apply IH|].
      destruct pair_entries; [|done]. by intros [= <- _].
    + destruct pair_entries; [|done]. by intros [= <- _].
    + destruct pair_each; [|done]. by intros [= <- _].
    + destruct (h !! buffer) as [[]|]; try done. by intros [= <- _].
Qed.
End throws.

(** ** Slots in range *)

Definition payload_slots (p : payload) : list nat :=
  match p with
  | PaySlots l => l
  | PayPairs l => l.*1 ++ l.*2
  | _ => []
  end.

(** No record refers to a slot outside the sequence. *)
Definition wire_closed (w : list record) : Prop :=
  ∀ i r, w !! i = Some r → Forall (λ j, j < length w) (payload_slots r.2).

(** The slots the map knows are slots of the sequence, and so are the
    slots the records refer to. *)
Definition sstate_ok (st : sstate) : Prop :=
  (∀ k i, jsmap_get (st_map st) k = Some i → i < length (st_out st)) ∧
  wire_closed (st_out st).

Section in_range.
Context (h : heap) (strict json : bool).

Definition ok_post (st : sstate) (i : nat) (st' : sstate) : Prop :=
  sstate_ok st' ∧ i < length (st_out st') ∧
  length (st_out st) ≤ length (st_out st').

Lemma as_ok out v st :
  payload_slots out.2 = [] → sstate_ok st →
  ok_post st (as_ out v st).1 (as_ out v st).2.
Proof.
  intros Hout [Hr Hw]. unfold ok_post. simpl. rewrite !length_app. simpl.
  split; [split|lia].
  - simpl. intros k i. rewrite jsmap_get_set, length_app. simpl.
    case_decide; [intros [= <-]; lia|]. intros Hk%Hr. lia.
  - intros i r. simpl. rewrite length_app. simpl.
    intros [Hi|[_ <-]]%lookup_snoc_Some.
    + destruct Hi as [_ Hi]. eapply Forall_impl; [by eapply Hw|].
      simpl. intros. lia.
    + rewrite Hout. constructor.
Qed.

Lemma wire_closed_alter f index w :
  wire_closed w →
  (∀ r, w !! index = Some r →
        Forall (λ j, j < length w) (payload_slots (f r).2)) →
  wire_closed (alter f index w).
Proof.
  intros Hw Hf i r. rewrite length_alter.
  destruct (decide (index = i)) as [->|Hne].
  - rewrite list_lookup_alter_eq. destruct (w !! i) as [r0|] eqn:Hi; [|done].
    intros [= <-]. by apply Hf.
  - rewrite list_lookup_alter_ne by done. apply Hw.
Qed.

Lemma push_slot_ok index i st :
  sstate_ok st → i < length (st_out st) →
  sstate_ok {| st_map := st_map st; st_out := push_slot index i (st_out st) |}.
Proof.
  intros [Hr Hw] Hi. split; simpl; unfold push_slot.
  - by rewrite length_alter.
  - apply wire_closed_alter; [done|]. intros [t p] Hidx.
    pose proof (Hw _ _ Hidx) as Hp. destruct p; simpl in *; try done.
    apply Forall_app. split; [done|]. by repeat constructor.
Qed.

Lemma push_pair_ok index k e st :
  sstate_ok st → k < length (st_out st) → e < length (st_out st) →
  sstate_ok {| st_map := st_map st; st_out := push_pair index (k, e) (st_out st) |}.
Proof.
  intros [Hr Hw] Hk He. split; simpl; unfold push_pair.
  - by rewrite length_alter.
  - apply wire_closed_alter; [done|]. intros [t p] Hidx.
    pose proof (Hw _ _ Hidx) as Hp. destruct p; simpl in *; try done.
    rewrite !fmap_app. simpl. apply Forall_app in Hp as [H1 H2].
    repeat (apply Forall_app; split); try done; by repeat constructor.
Qed.

Definition rec_in_range (rec : value → sstate → result (nat * sstate)) : Prop :=
  ∀ v st i st', sstate_ok st → rec v st = Ok (i, st') → ok_post st i st'.

Lemma pair_each_ok rec keep index es :
  rec_in_range rec →
  ∀ st st', sstate_ok st → pair_each rec keep index es st = Ok st' →
  sstate_ok st' ∧ length (st_out st) ≤ length (st_out st').
Proof.
  intros Hrec. induction es as [|x es IH]; intros st st' Hok; simpl.
  - by intros [= <-].
  - destruct (keep x); [|by apply IH].
    destruct (rec x st) as [[i st1]|] eqn:Hx; [|done].
    destruct (Hrec _ _ _ _ Hok Hx) as (Hok1 & Hi & Hlen).
    intros Hrun. apply IH in Hrun as [? Hlen']; [|by apply push_slot_ok].
    split; [done|]. simpl in Hlen'. unfold push_slot in Hlen'.
    rewrite length_alter in Hlen'. lia.
Qed.

Lemma pair_entries_ok rec keep index es :
  rec_in_range rec →
  ∀ st st', sstate_ok st → pair_entries rec keep index es st = Ok st' →
  sstate_ok st' ∧ length (st_out st) ≤ length (st_out st').
Proof.
  intros Hrec. induction es as [|[k x] es IH]; intros st st' Hok; simpl.
  - by intros [= <-].
  - destruct (keep k x); [|by apply IH].
    destruct (rec k st) as [[ki st0]|] eqn:Hk; [|done].
    destruct (Hrec _ _ _ _ Hok Hk) as (Hok0 & Hki & Hlen0).
    destruct (rec x st0) as [[xi st1]|] eqn:Hx; [|done].
    destruct (Hrec _ _ _ _ Hok0 Hx) as (Hok1 & Hxi & Hlen1).
    intros Hrun. apply IH in Hrun as [? Hlen']; [|apply push_pair_ok; [done|lia|done]].
    split; [done|]. simpl in Hlen'. unfold push_pair in Hlen'.
    rewrite length_alter in Hlen'. lia.
Qed.

Lemma pair_in_range fuel : rec_in_range (pair h strict json fuel).
Proof.
  induction fuel as [|fuel IH]; intros v st i st' Hok; [done|].
  rewrite pair_unfold.
  destruct (jsmap_get (st_map st) (canon v)) as [i0|] eqn:Hget.
  { intros [= <- <-]. split; [done|]. split; [|done]. by eapply (proj1 Hok). }
  assert (Hleaf : ∀ out, payload_slots out.2 = [] →
    Ok (as_ out v st) = Ok (i, st') → ok_post st i st').
  { intros out Hout [= <- <-]. by apply (as_ok out v st). }
  assert (Hopen : ∀ out st2, payload_slots out.2 = [] →
    sstate_ok st2 ∧ length (st_out (as_ out v st).2) ≤ length (st_out st2) →
    ok_post st (length (st_out st)) st2).
  { intros out st2 Hout [Hok2 Hlen]. simpl in Hlen.
    rewrite length_app in Hlen. simpl in Hlen. split; [done|]. lia. }
  destruct v as [p|l].
  - destruct p; simpl; try destruct strict; try done; by apply Hleaf.
  - destruct (h !! l) as [o|]; [|done].
    destruct o; simpl; try (by apply Hleaf).
    + destruct pair_each eqn:Hloop; [|done]. intros [= <- <-].
      eapply (Hopen (TNum ARRAY, PaySlots [])); [done|].
      eapply pair_each_ok; [exact IH| |exact Hloop].
      by apply (as_ok (TNum ARRAY, PaySlots []) (VRef l) st).
    + destruct (if json then toJSON else None); [by apply IH|].
      destruct pair_entries eqn:Hloop; [|done]. intros [= <- <-].
      eapply (Hopen (TNum OBJECT, PayPairs [])); [done|].
      eapply pair_entries_ok; [exact IH| |exact Hloop].
      by apply (as_ok (TNum OBJECT, PayPairs []) (VRef l) st).
    + destruct pair_entries eqn:Hloop; [|done]. intros [= <- <-].
      eapply (Hopen (TNum MAP, PayPairs [])); [done|].
      eapply pair_entries_ok; [exact IH| |exact Hloop].
      by apply (as_ok (TNum MAP, PayPairs []) (VRef l) st).
    + destruct pair_each eqn:Hloop; [|done]. intros [= <- <-].
      eapply (Hopen (TNum SET, PaySlots [])); [done|].
      eapply pair_each_ok; [exact IH| |exact Hloop].
      by apply (as_ok (TNum SET, PaySlots []) (VRef l) st).
    + destruct (h !! buffer) as [[]|]; try done. by apply Hleaf.
Qed.
End in_range.

Lemma sstate_ok_empty : sstate_ok st_empty.
Proof. split; [done|]. intros i r. simpl. by rewrite lookup_nil. Qed.

(** ** What a run of the deserializer establishes *)

Fixpoint flatten_pairs {A} (l : list (A * A)) : list A :=
  match l with
  | [] => []
  | (a, b) :: rest => a :: b :: flatten_pairs rest
  end.

(** The cell after [push] of each value, in order. *)
Fixpoint fill_each (push : value → obj → option obj) (rs : list value)
    (o : obj) : option obj :=
  match rs with
  | [] => Some o
  | r :: rest => o' ← push r o; fill_each push rest o'
  end.

Fixpoint fill_entries (put : value → value → obj → option obj)
    (kvs : list (value * value)) (o : obj) : option obj :=
  match kvs with
  | [] => Some o
  | (k, v) :: rest => o' ← put k v o; fill_entries put rest o'
  end.

Definition below (r : value) (n : nat) : Prop :=
  match r with VRef a => a < n | VPrim _ => True end.

Definition above (r : value) (n : nat) : Prop :=
  match r with VRef a => n ≤ a | VPrim _ => True end.

Section decoder.
Context (w : list record).

Definition dget (st : dstate) (i : nat) : option value :=
  jsmap_get (ds_map st) (KIndex i).

(** The cell [b] is a buffer built for the record [rec], no cell of it
    below [n]. *)
Definition buffer_at (t : heap) (n : nat) (rec : record) (b : loc) : Prop :=
  ∃ bytes,
    (rec = (TStr "ArrayBuffer", PayElems bytes) ∧ n ≤ b ∧
     t !! b = Some (OArrayBuffer bytes)) ∨
    (rec = (TStr "DataView", PayElems bytes) ∧
     ∃ buf, n ≤ buf ∧ buf < b ∧
            t !! b = Some (ODataView buf 0 (length bytes)) ∧
            t !! buf = Some (OArrayBuffer bytes)).

(** What [unpair(i)] returned: the value the map holds for [i], or a
    buffer built on the spot. *)
Definition dec (st : dstate) (n : nat) (i : nat) (r : value) : Prop :=
  dget st i = Some r ∨
  ∃ rec b, w !! i = Some rec ∧ r = VRef b ∧ buffer_at (ds_heap st) n rec b.

(** The values returned for a list of slots, in order; the bounds record
    that a buffer built for a slot is above everything returned before
    it. *)
Inductive dec_seq (st : dstate) : nat → list nat → list value → Prop :=
| dec_nil n : dec_seq st n [] []
| dec_cons n n' i r slots rs :
    dec st n i r → below r n' → n ≤ n' → dec_seq st n' slots rs →
    dec_seq st n (i :: slots) (r :: rs).

(** The value a finished slot holds for its record. *)
Inductive realizes (st : dstate) : record → value → Prop :=
| re_lit t p :
    t = TNum PRIMITIVE ∨ t = TNum VOID →
    realizes st (t, PayLit p) (VPrim p)
| re_void t :
    t = TNum PRIMITIVE ∨ t = TNum VOID →
    realizes st (t, PayNone) (VPrim PUndefined)
| re_array slots a rs :
    ds_heap st !! a = Some (OArray rs) →
    dec_seq st (S a) slots rs →
    realizes st (TNum ARRAY, PaySlots slots) (VRef a)
| re_object pairs a kvs o :
    ds_heap st !! a = Some o →
    dec_seq st (S a) (flatten_pairs pairs) (flatten_pairs kvs) →
    fill_entries object_put kvs (OObject [] None) = Some o →
    realizes st (TNum OBJECT, PayPairs pairs) (VRef a)
| re_date iso a :
    ds_heap st !! a = Some (ODate iso) →
    realizes st (TNum DATE, PayLit (PString iso)) (VRef a)
| re_regexp source flags a :
    ds_heap st !! a = Some (ORegExp source flags) →
    realizes st (TNum REGEXP, PayRegExp source flags) (VRef a)
| re_map pairs a kvs o :
    ds_heap st !! a = Some o →
    dec_seq st (S a) (flatten_pairs pairs) (flatten_pairs kvs) →
    fill_entries map_put kvs (OMap []) = Some o →
    realizes st (TNum MAP, PayPairs pairs) (VRef a)
| re_set slots a rs o :
    ds_heap st !! a = Some o →
    dec_seq st (S a) slots rs →
    fill_each set_add rs (OSet []) = Some o →
    realizes st (TNum SET, PaySlots slots) (VRef a)
| re_error name message a :
    name ∈ native_errors →
    ds_heap st !! a = Some (OError name message) →
    realizes st (TNum ERROR, PayError name message) (VRef a)
| re_bigint s z :
    BigInt_of_string s = Some z →
    realizes st (TNum BIGINT, PayLit (PString s)) (VPrim (PBigInt z))
| re_boxed_bigint s z a :
    BigInt_of_string s = Some z →
    ds_heap st !! a = Some (OBigInt z) →
    realizes st (TStr "BigInt", PayLit (PString s)) (VRef a)
| re_new name p o a :
    env_new (TStr name) p = Ok o →
    name ≠ "BigInt" → name ≠ "ArrayBuffer" → name ≠ "DataView" →
    ds_heap st !! a = Some o →
    realizes st (TStr name, p) (VRef a).

Record dec_inv (st : dstate) : Prop := {
  dinv_range : ∀ i a, dget st i = Some (VRef a) → a < length (ds_heap st);
  dinv_inj : ∀ i j a,
    dget st i = Some (VRef a) → dget st j = Some (VRef a) → i = j;
  dinv_str : ∀ i s r,
    dget st i = Some r →
    w !! i = Some (TNum PRIMITIVE, PayLit (PString s)) →
    r = VPrim (PString s)
}.

(** From [st] to [st']: the map grows, and every slot it gains is
    finished, in cells that [st] did not have. *)
Record dec_step (st st' : dstate) : Prop := {
  dstep_mono : ∀ i r, dget st i = Some r → dget st' i = Some r;
  dstep_len : length (ds_heap st) ≤ length (ds_heap st');
  dstep_inv : dec_inv st';
  dstep_new : ∀ j r,
    dget st' j = Some r → dget st j = None →
    above r (length (ds_heap st)) ∧
    ∃ rec, w !! j = Some rec ∧ realizes st' rec r
}.

Definition unpair_post (st : dstate) (i : nat) (r : value) (st' : dstate)
  : Prop :=
  dec_step st st' ∧
  (∀ a, a < length (ds_heap st) → ds_heap st' !! a = ds_heap st !! a) ∧
  dec st' (length (ds_heap st)) i r ∧
  below r (length (ds_heap st')).

(** Moving a finished slot to a later state: the cells from [m] on are
    kept. *)
Definition keeps (m : nat) (st st' : dstate) : Prop :=
  (∀ i r, dget st i = Some r → dget st' i = Some r) ∧
  (∀ a o, m ≤ a → ds_heap st !! a = Some o → ds_heap st' !! a = Some o).

Lemma buffer_at_keeps st st' m n rec b :
  keeps m st st' → m ≤ n →
  buffer_at (ds_heap st) n rec b → buffer_at (ds_heap st') n rec b.
Proof.
  intros [_ Hk] Hmn [bytes [(-> & Hn & Hb)|(-> & buf & Hn & Hlt & Hb & Hbuf)]];
    exists bytes; [left|right].
  - split; [done|]. split; [done|]. apply Hk; [lia|done].
  - split; [done|]. exists buf. repeat split; try done; apply Hk; try done; lia.
Qed.

Lemma dec_keeps st st' m n i r :
  keeps m st st' → m ≤ n → dec st n i r → dec st' n i r.
Proof.
  intros Hk Hmn [Hi|(rec & b & Hrec & -> & Hb)]; [left; by apply Hk|].
  right. exists rec, b. repeat split; try done. by eapply buffer_at_keeps.
Qed.

Lemma dec_seq_keeps st st' m n slots rs :
  keeps m st st' → m ≤ n → dec_seq st n slots rs → dec_seq st' n slots rs.
Proof.
  intros Hk Hmn Hs. induction Hs as [|n n' i r slots rs Hd Hb Hle Hs IH];
    [constructor|].
  econstructor; [by eapply dec_keeps|done|done|]. apply IH. lia.
Qed.

Lemma realizes_keeps st st' m rec r :
  keeps m st st' → above r m → realizes st rec r → realizes st' rec r.
Proof.
  intros Hk Hm Hr. pose proof Hk as [_ Hcell].
  destruct Hr; simpl in Hm;
    try (econstructor; eauto; try (eapply dec_seq_keeps; eauto; lia); fail).
Qed.

Lemma keeps_refl m st : keeps m st st.
Proof. by split. Qed.

Lemma dec_step_refl st : dec_inv st → dec_step st st.
Proof. intros Hi. split; try done. intros j r ??. congruence. Qed.

Lemma dec_step_trans a b c :
  dec_step a b → dec_step b c →
  (∀ x o, length (ds_heap a) ≤ x →
          ds_heap b !! x = Some o → ds_heap c !! x = Some o) →
  dec_step a c.
Proof.
  intros [Hm1 Hl1 Hi1 Hn1] [Hm2 Hl2 Hi2 Hn2] Hfr. split; [auto|lia|done|].
  intros j r Hc Ha. destruct (dget b j) as [r'|] eqn:Hb.
  - destruct (Hn1 _ _ Hb Ha) as (Hab & rec & Hrec & Hre).
    assert (r' = r) as -> by (apply Hm2 in Hb; congruence).
    split; [done|]. exists rec. split; [done|].
    eapply realizes_keeps; [|exact Hab|exact Hre]. by split.
  - destruct (Hn2 _ _ Hc Hb) as (Hab & rec & Hrec & Hre).
    split; [|by exists rec]. destruct r; simpl in *; [done|lia].
Qed.

Lemma update_inv a f st st' :
  update a f st = Ok st' →
  ∃ o o', ds_heap st !! a = Some o ∧ f o = Some o' ∧
          st' = {| ds_map := ds_map st; ds_heap := <[a := o']> (ds_heap st) |}.
Proof.
  unfold update. destruct (ds_heap st !! a) as [o|] eqn:Ho; [|done].
  destruct (f o) as [o'|] eqn:Hf; [|done]. intros [= <-]. eauto.
Qed.

Lemma dec_inv_heap st t :
  dec_inv st → length t = length (ds_heap st) →
  dec_inv {| ds_map := ds_map st; ds_heap := t |}.
Proof. intros [Hr Hj Hs] Hlen. split; simpl; [|done..]. by rewrite Hlen. Qed.

(** Filling an older cell leaves the finished slots finished. *)
Lemma dec_step_insert st st1 a o :
  dec_step st st1 → a < length (ds_heap st) →
  dec_step st {| ds_map := ds_map st1; ds_heap := <[a := o]> (ds_heap st1) |}.
Proof.
  intros [Hm Hl Hi Hn] Ha. split; simpl.
  - done.
  - by rewrite length_insert.
  - apply dec_inv_heap; [done|]. by rewrite length_insert.
  - intros j r Hj1 Hj. destruct (Hn j r Hj1 Hj) as (Hab & rec & Hrec & Hre).
    split; [done|]. exists rec. split; [done|].
    eapply realizes_keeps; [|exact Hab|exact Hre]. split; [done|].
    simpl. intros x ox Hx Hox. rewrite list_lookup_insert_ne; [done|lia].
Qed.

Definition drec_ok (rec : nat → dstate → result (value * dstate)) : Prop :=
  ∀ i st r st', dec_inv st → rec i st = Ok (r, st') → unpair_post st i r st'.

Lemma unpair_each_spec rec push a (Hrec : drec_ok rec) slots :
  ∀ st st' o0,
  dec_inv st → ds_heap st !! a = Some o0 →
  unpair_each rec push a slots st = Ok st' →
  dec_step st st' ∧
  (∀ x, x < length (ds_heap st) → x ≠ a →
        ds_heap st' !! x = ds_heap st !! x) ∧
  ∃ rs o', ds_heap st' !! a = Some o' ∧ fill_each push rs o0 = Some o' ∧
           dec_seq st' (length (ds_heap st)) slots rs.
Proof.
  induction slots as [|i slots IH]; intros st st' o0 Hi Ha Hrun; simpl in *.
  - injection Hrun as <-. split; [by apply dec_step_refl|]. split; [done|].
    exists [], o0. repeat split; try done. constructor.
  - destruct (rec i st) as [[r st1]|] eqn:Hreci; [|done].
    destruct (Hrec _ _ _ _ Hi Hreci) as (Hs1 & Hf1 & Hd & Hb).
    destruct (update a (push r) st1) as [st2|] eqn:Hup; [|done].
    apply update_inv in Hup as (o & o1 & Ho & Hpush & ->).
    assert (Hlt : a < length (ds_heap st)) by by eapply lookup_lt_Some.
    rewrite Hf1, Ha in Ho by done. injection Ho as <-.
    pose proof (dstep_len _ _ Hs1) as Hlen1.
    pose proof (dec_step_insert _ _ a o1 Hs1 Hlt) as Hs2.
    set (st2 := {| ds_map := ds_map st1;
                   ds_heap := <[a := o1]> (ds_heap st1) |}) in *.
    assert (Ha2 : ds_heap st2 !! a = Some o1).
    { simpl. apply list_lookup_insert_eq. lia. }
    destruct (IH _ _ _ (dstep_inv _ _ Hs2) Ha2 Hrun)
      as (Hs' & Hf' & rs & o' & Ho' & Hfill & Hseq).
    assert (Hlen2 : length (ds_heap st2) = length (ds_heap st1)).
    { simpl. by rewrite length_insert. }
    assert (Hcells : ∀ x o, length (ds_heap st) ≤ x →
              ds_heap st2 !! x = Some o → ds_heap st' !! x = Some o).
    { intros x o Hx Hxo. rewrite Hf'; [done| |lia]. by eapply lookup_lt_Some. }
    split; [|split].
    + by eapply dec_step_trans.
    + intros x Hx Hne. rewrite Hf'; [|lia|done]. simpl.
      rewrite list_lookup_insert_ne by done. by apply Hf1.
    + exists (r :: rs), o'. split; [done|]. split; [simpl; by rewrite Hpush|].
      apply dec_cons with (n' := length (ds_heap st2)); [| |lia|done].
      * eapply dec_keeps; [|reflexivity|exact Hd]. split.
        -- intros j rj Hj. by apply (dstep_mono _ _ Hs').
        -- intros x o Hx Hxo. apply Hcells; [done|]. simpl.
           rewrite list_lookup_insert_ne; [done|lia].
      * by rewrite Hlen2.
Qed.

Lemma unpair_entries_spec rec put a (Hrec : drec_ok rec) pairs :
  ∀ st st' o0,
  dec_inv st → ds_heap st !! a = Some o0 →
  unpair_entries rec put a pairs st = Ok st' →
  dec_step st st' ∧
  (∀ x, x < length (ds_heap st) → x ≠ a →
        ds_heap st' !! x = ds_heap st !! x) ∧
  ∃ kvs o', ds_heap st' !! a = Some o' ∧ fill_entries put kvs o0 = Some o' ∧
            dec_seq st' (length (ds_heap st))
              (flatten_pairs pairs) (flatten_pairs kvs).
Proof.
  induction pairs as [|[ki vi] pairs IH]; intros st st' o0 Hi Ha Hrun; simpl in *.
  - injection Hrun as <-. split; [by apply dec_step_refl|]. split; [done|].
    exists [], o0. repeat split; try done. constructor.
  - destruct (rec ki st) as [[rk st0]|] eqn:Hreck; [|done].
    destruct (Hrec _ _ _ _ Hi Hreck) as (Hs0 & Hf0 & Hdk & Hbk).
    destruct (rec vi st0) as [[rv st1]|] eqn:Hrecv; [|done].
    destruct (Hrec _ _ _ _ (dstep_inv _ _ Hs0) Hrecv) as (Hs01 & Hf01 & Hdv & Hbv).
    destruct (update a (put rk rv) st1) as [st2|] eqn:Hup; [|done].
    apply update_inv in Hup as (o & o1 & Ho & Hput & ->).
    assert (Hlt : a < length (ds_heap st)) by by eapply lookup_lt_Some.
    pose proof (dstep_len _ _ Hs0) as Hlen0.
    pose proof (dstep_len _ _ Hs01) as Hlen01.
    assert (Hf1 : ∀ x, x < length (ds_heap st) →
              ds_heap st1 !! x = ds_heap st !! x).
    { intros x Hx. rewrite Hf01; [by apply Hf0|lia]. }
    rewrite Hf1, Ha in Ho by done. injection Ho as <-.
    assert (Hs1 : dec_step st st1).
    { eapply dec_step_trans; [exact Hs0|exact Hs01|].
      intros x o _ Hxo. rewrite Hf01; [done|]. by eapply lookup_lt_Some. }
    pose proof (dec_step_insert _ _ a o1 Hs1 Hlt) as Hs2.
    set (st2 := {| ds_map := ds_map st1;
                   ds_heap := <[a := o1]> (ds_heap st1) |}) in *.
    assert (Ha2 : ds_heap st2 !! a = Some o1).
    { simpl. apply list_lookup_insert_eq. lia. }
    destruct (IH _ _ _ (dstep_inv _ _ Hs2) Ha2 Hrun)
      as (Hs' & Hf' & kvs & o' & Ho' & Hfill & Hseq).
    assert (Hlen2 : length (ds_heap st2) = length (ds_heap st1)).
    { simpl. by rewrite length_insert. }
    assert (Hcells : ∀ x o, length (ds_heap st) ≤ x →
              ds_heap st2 !! x = Some o → ds_heap st' !! x = Some o).
    { intros x o Hx Hxo. rewrite Hf'; [done| |lia]. by eapply lookup_lt_Some. }
    assert (Hk1 : keeps (length (ds_heap st)) st1 st').
    { split.
      - intros j rj Hj. by apply (dstep_mono _ _ Hs').
      - intros x o Hx Hxo. apply Hcells; [done|]. simpl.
        rewrite list_lookup_insert_ne; [done|lia]. }
    split; [|split].
    + by eapply dec_step_trans.
    + intros x Hx Hne. rewrite Hf'; [|lia|done]. simpl.
      rewrite list_lookup_insert_ne by done. by apply Hf1.
    + exists ((rk, rv) :: kvs), o'. split; [done|].
      split; [simpl; by rewrite Hput|]. simpl.
      apply dec_cons with (n' := length (ds_heap st0)); [|done|lia|].
      * eapply dec_keeps; [exact Hk1|reflexivity|].
        eapply dec_keeps; [|reflexivity|exact Hdk]. split.
        -- apply (dstep_mono _ _ Hs01).
        -- intros x o Hx Hxo. rewrite Hf01; [done|]. by eapply lookup_lt_Some.
      * apply dec_cons with (n' := length (ds_heap st2)); [| |lia|done].
        -- eapply dec_keeps; [exact Hk1|lia|exact Hdv].
        -- by rewrite Hlen2.
Qed.

Definition no_str (rec : record) : Prop :=
  ∀ s, rec ≠ (TNum PRIMITIVE, PayLit (PString s)).

Lemma dget_set_index i j r st :
  dget (set_key (KIndex i) r st) j = if decide (i = j) then Some r else dget st j.
Proof.
  unfold dget. simpl. rewrite jsmap_get_set.
  repeat case_decide; congruence.
Qed.

Lemma dget_set_payload i j r st :
  dget (set_key (KPayload i) r st) j = dget st j.
Proof. unfold dget. simpl. by rewrite jsmap_get_set_ne. Qed.

Lemma dec_inv_prim p i st rec :
  dec_inv st → w !! i = Some rec →
  (∀ s, rec = (TNum PRIMITIVE, PayLit (PString s)) → p = PString s) →
  dec_inv (set_key (KIndex i) (VPrim p) st).
Proof.
  intros [Hr Hj Hs] Hrec Hstr. split.
  - intros j a. rewrite dget_set_index. case_decide; [done|]. apply Hr.
  - intros j j' a. rewrite !dget_set_index. repeat case_decide; try done.
    apply Hj.
  - intros j s r. rewrite dget_set_index. case_decide; [|apply Hs].
    subst j. intros [= <-] Hw. f_equal. apply Hstr. congruence.
Qed.

Lemma dec_inv_new o i st rec :
  dec_inv st → w !! i = Some rec → no_str rec →
  dec_inv (as_new o (KIndex i) st).2.
Proof.
  intros [Hr Hj Hs] Hrec Hstr. split.
  - intros j a. simpl. rewrite dget_set_index, length_app. simpl.
    case_decide; [intros [= <-]; lia|]. intros Ha. apply Hr in Ha. simpl in Ha. lia.
  - intros j j' a. simpl. rewrite !dget_set_index.
    repeat case_decide; try congruence.
    + intros [= <-] Ha. apply Hr in Ha. simpl in Ha. lia.
    + intros Ha [= <-]. apply Hr in Ha. simpl in Ha. lia.
    + apply Hj.
  - intros j s r. simpl. rewrite dget_set_index. case_decide; [|apply Hs].
    subst j. intros _ Hw. destruct (Hstr s). congruence.
Qed.

(** A cell allocated in [st] and filled by [st2]. *)
Lemma dec_step_open o i st st2 rec :
  dec_inv st → dget st i = None → w !! i = Some rec →
  dec_step (as_new o (KIndex i) st).2 st2 →
  (∀ x, x < length (ds_heap st) → ds_heap st2 !! x = ds_heap st !! x) →
  realizes st2 rec (VRef (length (ds_heap st))) →
  unpair_post st i (VRef (length (ds_heap st))) st2.
Proof.
  intros Hi Hnone Hrec [Hm Hl Hi2 Hn] Hfr Hre.
  simpl in Hl. rewrite length_app in Hl. simpl in Hl.
  assert (Hv : dget st2 i = Some (VRef (length (ds_heap st)))).
  { apply Hm. simpl. rewrite dget_set_index. by case_decide. }
  split; [|split; [done|split; [by left|simpl; lia]]].
  split; [| lia | done |].
  - intros j r Hj. apply Hm. simpl. rewrite dget_set_index.
    case_decide; [congruence|done].
  - intros j r Hj2 Hj. destruct (decide (i = j)) as [<-|Hne].
    + assert (r = VRef (length (ds_heap st))) as -> by congruence.
      split; [simpl; lia|]. by exists rec.
    + destruct (Hn j r Hj2) as (Hab & Hr).
      { simpl. rewrite dget_set_index. by case_decide. }
      split; [|done]. simpl in Hab. rewrite length_app in Hab.
      destruct r; simpl in *; [done|lia].
Qed.

Lemma unpair_post_new o i st rec :
  dec_inv st → dget st i = None → w !! i = Some rec → no_str rec →
  realizes (as_new o (KIndex i) st).2 rec (VRef (length (ds_heap st))) →
  unpair_post st i (VRef (length (ds_heap st))) (as_new o (KIndex i) st).2.
Proof.
  intros Hi Hnone Hrec Hstr Hre. eapply dec_step_open; eauto.
  - apply dec_step_refl. by eapply dec_inv_new.
  - intros x Hx. simpl. by rewrite lookup_app_l.
Qed.

Lemma unpair_post_prim p i st rec :
  dec_inv st → dget st i = None → w !! i = Some rec →
  (∀ s, rec = (TNum PRIMITIVE, PayLit (PString s)) → p = PString s) →
  (∀ st', realizes st' rec (VPrim p)) →
  unpair_post st i (VPrim p) (set_key (KIndex i) (VPrim p) st).
Proof.
  intros Hi Hnone Hrec Hstr Hre.
  assert (Hv : dget (set_key (KIndex i) (VPrim p) st) i = Some (VPrim p)).
  { rewrite dget_set_index. by case_decide. }
  split; [|split; [done|split; [by left|done]]].
  split; [|done|by eapply dec_inv_prim|].
  - intros j r Hj. rewrite dget_set_index. case_decide; [congruence|done].
  - intros j r. rewrite dget_set_index. case_decide; [|congruence].
    subst j. intros [= <-] _. split; [done|]. by exists rec.
Qed.

Lemma unpair_post_buffer news b i st rec :
  dec_inv st → w !! i = Some rec →
  buffer_at (ds_heap st ++ news) (length (ds_heap st)) rec b →
  unpair_post st i (VRef b)
    (set_key (KPayload i) (VRef b)
       {| ds_map := ds_map st; ds_heap := ds_heap st ++ news |}).
Proof.
  intros Hi Hrec Hb. split; [|split; [|split]].
  - split.
    + intros j r. simpl. by rewrite dget_set_payload.
    + simpl. rewrite length_app. lia.
    + destruct Hi as [Hr Hj Hs]. split; simpl.
      * intros j a. rewrite dget_set_payload, length_app. intros Ha%Hr. lia.
      * intros j j' a. rewrite !dget_set_payload. apply Hj.
      * intros j s r. rewrite dget_set_payload. apply Hs.
    + intros j r. simpl. rewrite dget_set_payload. unfold dget. simpl. congruence.
  - intros x Hx. simpl. by rewrite lookup_app_l.
  - right. exists rec, b. by repeat split.
  - simpl. destruct Hb as [bytes [(_ & _ & Hb)|(_ & buf & _ & _ & Hb & _)]];
      by eapply lookup_lt_Some.
Qed.

Lemma env_new_no_str name p o :
  env_new (TStr name) p = Ok o → no_str (TStr name, p).
Proof. intros _ s. congruence. Qed.

Lemma fill_array rs acc :
  fill_each array_push rs (OArray acc) = Some (OArray (acc ++ rs)).
Proof.
  revert acc. induction rs as [|r rs IH]; intros acc; simpl.
  - by rewrite app_nil_r.
  - by rewrite IH, <-app_assoc.
Qed.

Theorem unpair_spec fuel : drec_ok (unpair w fuel).
Proof.
  induction fuel as [|fuel IH]; intros i st r st' Hi; [done|].
  simpl. fold (dget st i).
  destruct (dget st i) as [r0|] eqn:Hget.
  { intros [= <- <-]. split; [by apply dec_step_refl|]. split; [done|].
    split; [by left|]. destruct r0 as [|a]; [done|]. simpl.
    by eapply (dinv_range _ Hi). }
  destruct (w !! i) as [[type value]|] eqn:Hrec; [|done].
  assert (Hhere : ∀ o, ds_heap (as_new o (KIndex i) st).2 !! length (ds_heap st)
                       = Some o).
  { intros o. simpl. by apply list_lookup_middle. }
  assert (Hopen : ∀ o st2,
    dec_step (as_new o (KIndex i) st).2 st2 →
    (∀ x, x < length (ds_heap (as_new o (KIndex i) st).2) →
          x ≠ length (ds_heap st) →
          ds_heap st2 !! x = ds_heap (as_new o (KIndex i) st).2 !! x) →
    realizes st2 (type, value) (VRef (length (ds_heap st))) →
    unpair_post st i (VRef (length (ds_heap st))) st2).
  { intros o st2 Hs Hf Hre. eapply dec_step_open; eauto.
    intros x Hx. rewrite Hf; simpl; [|rewrite length_app; lia|lia].
    by rewrite lookup_app_l. }
  assert (Hleaf : ∀ o, no_str (type, value) →
    realizes (as_new o (KIndex i) st).2 (type, value)
      (VRef (length (ds_heap st))) →
    unpair_post st i (VRef (length (ds_heap st))) (as_new o (KIndex i) st).2).
  { intros o Hns Hre. by eapply unpair_post_new. }
  assert (Hnew : ∀ o, no_str (type, value) →
    dec_inv (as_new o (KIndex i) st).2).
  { intros o Hns. by eapply dec_inv_new. }
  case_bool_decide as Ht; [subst type; simpl|].
  { destruct value; try done; intros [= <- <-];
      (eapply unpair_post_prim;
       [done|done|done|intros s Hs; by simplify_eq|intros; constructor; auto]). }
  case_bool_decide as Ht0; [subst type; simpl|].
  { destruct value; try done; intros [= <- <-];
      (eapply unpair_post_prim;
       [done|done|done|intros s Hs; by simplify_eq|intros; constructor; auto]). }
  simpl.
  case_bool_decide as Ht1; [subst type; simpl|].
  { destruct value; try done.
    destruct unpair_each as [st2|] eqn:Hloop; [|done]. intros [= <- <-].
    destruct (unpair_each_spec _ _ _ IH _ _ _ _
                (Hnew (OArray []) ltac:(by intros s)) (Hhere _) Hloop)
      as (Hs & Hf & rs & o' & Ho' & Hfill & Hseq).
    rewrite fill_array in Hfill. injection Hfill as <-.
    eapply Hopen; eauto. econstructor; [done|].
    simpl in Hseq. rewrite length_app in Hseq. simpl in Hseq.
    by replace (S (length (ds_heap st))) with (length (ds_heap st) + 1) by lia. }
  case_bool_decide as Ht2; [subst type; simpl|].
  { destruct value; try done.
    destruct unpair_entries as [st2|] eqn:Hloop; [|done]. intros [= <- <-].
    destruct (unpair_entries_spec _ _ _ IH _ _ _ _
                (Hnew (OObject [] None) ltac:(by intros s)) (Hhere _) Hloop)
      as (Hs & Hf & kvs & o' & Ho' & Hfill & Hseq).
    eapply Hopen; eauto. econstructor; [done| |done].
    simpl in Hseq. rewrite length_app in Hseq. simpl in Hseq.
    by replace (S (length (ds_heap st))) with (length (ds_heap st) + 1) by lia. }
  case_bool_decide as Ht3; [subst type; simpl|].
  { destruct value as [|[]| | | | |]; try done. intros [= <- <-].
    apply Hleaf; [by intros s'|]. constructor. apply Hhere. }
  case_bool_decide as Ht4; [subst type; simpl|].
  { destruct value; try done. intros [= <- <-].
    apply Hleaf; [by intros s'|]. constructor. apply Hhere. }
  case_bool_decide as Ht5; [subst type; simpl|].
  { destruct value; try done.
    destruct unpair_entries as [st2|] eqn:Hloop; [|done]. intros [= <- <-].
    destruct (unpair_entries_spec _ _ _ IH _ _ _ _
                (Hnew (OMap []) ltac:(by intros s)) (Hhere _) Hloop)
      as (Hs & Hf & kvs & o' & Ho' & Hfill & Hseq).
    eapply Hopen; eauto. econstructor; [done| |done].
    simpl in Hseq. rewrite length_app in Hseq. simpl in Hseq.
    by replace (S (length (ds_heap st))) with (length (ds_heap st) + 1) by lia. }
  case_bool_decide as Ht6; [subst type; simpl|].
  { destruct value; try done.
    destruct unpair_each as [st2|] eqn:Hloop; [|done]. intros [= <- <-].
    destruct (unpair_each_spec _ _ _ IH _ _ _ _
                (Hnew (OSet []) ltac:(by intros s)) (Hhere _) Hloop)
      as (Hs & Hf & rs & o' & Ho' & Hfill & Hseq).
    eapply Hopen; eauto. econstructor; [done| |done].
    simpl in Hseq. rewrite length_app in Hseq. simpl in Hseq.
    by replace (S (length (ds_heap st))) with (length (ds_heap st) + 1) by lia. }
  case_bool_decide as Ht7; [subst type; simpl|].
  { destruct value; try done. unfold env_error.
    case_bool_decide as Hname; [|done]. intros [= <- <-].
    apply Hleaf; [by intros s'|]. constructor; [done|]. apply Hhere. }
  case_bool_decide as Ht8; [subst type; simpl|].
  { destruct value as [|[]| | | | |]; try done.
    destruct (BigInt_of_string s) as [z|] eqn:Hz; [|done]. intros [= <- <-].
    eapply unpair_post_prim;
      [done|done|done|intros s' Hs; by simplify_eq|intros; by constructor]. }
  case_bool_decide as Ht9; [subst type; simpl|].
  { destruct value as [|[]| | | | |]; try done.
    destruct (BigInt_of_string s) as [z|] eqn:Hz; [|done]. intros [= <- <-].
    apply Hleaf; [by intros s'|]. econstructor; [done|]. apply Hhere. }
  case_bool_decide as Ht10; [subst type; simpl|].
  { destruct value; try done. intros [= <- <-].
    eapply (unpair_post_buffer [OArrayBuffer elems]); [done|done|].
    exists elems. left.
    split; [done|]. split; [done|]. by apply list_lookup_middle. }
  case_bool_decide as Ht11; [subst type; simpl|].
  { destruct value; try done. intros [= <- <-].
    rewrite length_app, <-app_assoc. simpl.
    replace (length (ds_heap st) + 1) with (S (length (ds_heap st))) by lia.
    eapply (unpair_post_buffer
              [OArrayBuffer elems; ODataView (length (ds_heap st)) 0 (length elems)]);
      [done|done|].
    exists elems. right. split; [done|]. exists (length (ds_heap st)).
    split; [done|]. split; [lia|]. split.
    - by rewrite (lookup_app_r _ _ (S _)), Nat.sub_succ_l, Nat.sub_diag by lia.
    - by apply list_lookup_middle. }
  destruct (env_new type value) as [o|] eqn:Hnew'; [|done]. intros [= <- <-].
  destruct type as [z|name]; [done|].
  apply Hleaf; [by intros s'|].
  econstructor; [done|congruence..|]. apply Hhere.
Qed.
End decoder.

(** ** Sequences the deserializer accepts, and the fuel it needs *)

Section decoder_total.
Context (w : list record).

Definition str_slot (k : nat) : Prop :=
  ∃ s, s ≠ "__proto__" ∧ w !! k = Some (TNum PRIMITIVE, PayLit (PString s)).

(** A record the deserializer can rebuild: the payload has the shape of
    the tag, the slots are slots of the sequence, a property key is the
    slot of a string other than [__proto__]. *)
Inductive record_ok : record → Prop :=
| ok_lit p : record_ok (TNum PRIMITIVE, PayLit p)
| ok_void : record_ok (TNum VOID, PayNone)
| ok_array slots :
    Forall (λ j, j < length w) slots → record_ok (TNum ARRAY, PaySlots slots)
| ok_object pairs :
    Forall (λ p, (str_slot p.1 ∧ p.1 < length w) ∧ p.2 < length w) pairs →
    record_ok (TNum OBJECT, PayPairs pairs)
| ok_date iso : record_ok (TNum DATE, PayLit (PString iso))
| ok_regexp source flags : record_ok (TNum REGEXP, PayRegExp source flags)
| ok_map pairs :
    Forall (λ p, (True ∧ p.1 < length w) ∧ p.2 < length w) pairs →
    record_ok (TNum MAP, PayPairs pairs)
| ok_set slots :
    Forall (λ j, j < length w) slots → record_ok (TNum SET, PaySlots slots)
| ok_error name message :
    name ∈ native_errors → record_ok (TNum ERROR, PayError name message)
| ok_bigint s :
    is_Some (BigInt_of_string s) → record_ok (TNum BIGINT, PayLit (PString s))
| ok_boxed_bigint s :
    is_Some (BigInt_of_string s) → record_ok (TStr "BigInt", PayLit (PString s))
| ok_buffer bytes : record_ok (TStr "ArrayBuffer", PayElems bytes)
| ok_view bytes : record_ok (TStr "DataView", PayElems bytes)
| ok_new name p o : env_new (TStr name) p = Ok o → record_ok (TStr name, p).

Definition wire_ok : Prop := ∀ i rec, w !! i = Some rec → record_ok rec.

(** The slots that hold no value yet bound the depth of the recursion. *)
Definition pending_d (st : dstate) : nat :=
  length (filter (λ i, dget st i = None) (seq 0 (length w))).

Lemma pending_d_mono st st' :
  (∀ i r, dget st i = Some r → dget st' i = Some r) →
  pending_d st' ≤ pending_d st.
Proof.
  intros Hm. apply filter_length_mono. intros i Hi.
  destruct (dget st i) as [r|] eqn:Hr; [|done].
  apply Hm in Hr. congruence.
Qed.

Lemma pending_d_new o i st rec :
  w !! i = Some rec → dget st i = None →
  pending_d (as_new o (KIndex i) st).2 < pending_d st.
Proof.
  intros Hrec Hnone. apply filter_length_lt with (y := i); try done.
  - intros j. simpl. rewrite dget_set_index. unfold dget at 2. simpl.
    by case_decide.
  - apply elem_of_seq. apply lookup_lt_Some in Hrec. lia.
  - simpl. rewrite dget_set_index. by case_decide.
Qed.

Definition dtotal (n : nat) (rec : nat → dstate → result (value * dstate))
  : Prop :=
  ∀ i st, dec_inv w st → pending_d st < n →
    match rec i st with
    | Ok _ => True
    | Fail f => f ≠ OutOfFuel ∧ (wire_ok → i < length w → False)
    end.

Lemma unpair_each_total n rec push (good : obj → Prop) a slots :
  drec_ok w rec → dtotal n rec →
  (∀ v o, good o → ∃ o', push v o = Some o' ∧ good o') →
  ∀ st o0, dec_inv w st → ds_heap st !! a = Some o0 → good o0 →
  pending_d st < n →
  match unpair_each rec push a slots st with
  | Ok _ => True
  | Fail f =>
      f ≠ OutOfFuel ∧ (wire_ok → Forall (λ j, j < length w) slots → False)
  end.
Proof.
  intros Hok Htot Hpush.
  induction slots as [|i slots IH]; intros st o0 Hi Ha Hg Hp; simpl; [done|].
  pose proof (Htot i st Hi Hp) as Hrun.
  destruct (rec i st) as [[r st1]|f] eqn:Hrec.
  - destruct (Hok _ _ _ _ Hi Hrec) as (Hs & Hf & _ & _).
    assert (Hlt : a < length (ds_heap st)) by by eapply lookup_lt_Some.
    destruct (Hpush r o0 Hg) as (o1 & Ho1 & Hg1).
    unfold update. rewrite Hf, Ha, Ho1 by done.
    pose proof (dstep_len _ _ _ Hs) as Hlen.
    specialize (IH {| ds_map := ds_map st1; ds_heap := <[a:=o1]> (ds_heap st1) |} o1).
    ospecialize* IH.
    + apply dec_inv_heap; [apply Hs|]. by rewrite length_insert.
    + simpl. apply list_lookup_insert_eq. lia.
    + done.
    + pose proof (pending_d_mono st st1 (dstep_mono _ _ _ Hs)).
      unfold pending_d, dget in *. simpl. lia.
    + destruct unpair_each; [done|]. destruct IH as [? IH]. split; [done|].
      intros Hw HF. apply Forall_cons in HF as [_ HF]. by apply IH.
  - destruct Hrun as [? Hrun]. split; [done|].
    intros Hw HF. apply Forall_cons in HF as [Hlt _]. by apply Hrun.
Qed.

Lemma unpair_entries_total n rec put (good : obj → Prop)
    (kslot : nat → Prop) (keyok : value → Prop) a pairs :
  drec_ok w rec → dtotal n rec →
  (∀ k v o, keyok k → good o → is_Some (put k v o)) →
  (∀ k v o o', good o → put k v o = Some o' → good o') →
  (∀ i st m r, kslot i → dec_inv w st → dec w st m i r → keyok r) →
  ∀ st o0, dec_inv w st → ds_heap st !! a = Some o0 → good o0 →
  pending_d st < n →
  match unpair_entries rec put a pairs st with
  | Ok _ => True
  | Fail f =>
      f ≠ OutOfFuel ∧
      (wire_ok →
       Forall (λ p, (kslot p.1 ∧ p.1 < length w) ∧ p.2 < length w) pairs →
       False)
  end.
Proof.
  intros Hok Htot Hput Hpres Hkey.
  induction pairs as [|[ki vi] pairs IH]; intros st o0 Hi Ha Hg Hp; simpl; [done|].
  pose proof (Htot ki st Hi Hp) as Hrunk.
  destruct (rec ki st) as [[rk st0]|f] eqn:Hreck.
  - destruct (Hok _ _ _ _ Hi Hreck) as (Hs0 & Hf0 & Hdk & _).
    pose proof (pending_d_mono st st0 (dstep_mono _ _ _ Hs0)) as Hp0.
    pose proof (Htot vi st0 (dstep_inv _ _ _ Hs0) ltac:(lia)) as Hrunv.
    destruct (rec vi st0) as [[rv st1]|f] eqn:Hrecv.
    + destruct (Hok _ _ _ _ (dstep_inv _ _ _ Hs0) Hrecv) as (Hs1 & Hf1 & _ & _).
      assert (Hlt : a < length (ds_heap st)) by by eapply lookup_lt_Some.
      pose proof (dstep_len _ _ _ Hs0) as Hlen0.
      pose proof (dstep_len _ _ _ Hs1) as Hlen1.
      assert (Ha1 : ds_heap st1 !! a = Some o0).
      { rewrite Hf1, Hf0 by lia. done. }
      unfold update. rewrite Ha1.
      destruct (put rk rv o0) as [o1|] eqn:Ho1.
      * specialize (IH {| ds_map := ds_map st1;
                          ds_heap := <[a:=o1]> (ds_heap st1) |} o1).
        ospecialize* IH.
        -- apply dec_inv_heap; [apply Hs1|]. by rewrite length_insert.
        -- simpl. apply list_lookup_insert_eq. lia.
        -- by eapply Hpres.
        -- pose proof (pending_d_mono st0 st1 (dstep_mono _ _ _ Hs1)).
           unfold pending_d, dget in *. simpl. lia.
        -- destruct unpair_entries; [done|]. destruct IH as [? IH].
           split; [done|].
           intros Hw HF. apply Forall_cons in HF as [_ HF]. by apply IH.
      * split; [done|]. intros Hw HF. apply Forall_cons in HF as [[[Hks _] _] _].
        simpl in Hks. pose proof (Hkey _ _ _ _ Hks (dstep_inv _ _ _ Hs0) Hdk) as Hrk.
        destruct (Hput rk rv o0 Hrk Hg) as (o1 & Ho1'). congruence.
    + destruct Hrunv as [? Hrunv]. split; [done|].
      intros Hw HF. apply Forall_cons in HF as [[_ Hlt] _]. by apply Hrunv.
  - destruct Hrunk as [? Hrunk]. split; [done|].
    intros Hw HF. apply Forall_cons in HF as [[[_ Hlt] _] _]. by apply Hrunk.
Qed.


Lemma env_new_fuel type value f : env_new type value = Fail f → f ≠ OutOfFuel.
Proof.
  destruct type as [z|name]; simpl; [by intros [= <-]|].
  repeat (case_match; try by intros [= <-]).
Qed.

Lemma str_slot_dec i st m r :
  str_slot i → dec_inv w st → dec w st m i r →
  ∃ s, s ≠ "__proto__" ∧ r = VPrim (PString s).
Proof.
  intros (s & Hne & Hs) Hi [Hr|(rec & b & Hrec & _ & bytes & [[-> _]|[-> _]])].
  - exists s. split; [done|]. by eapply (dinv_str _ _ Hi).
  - congruence.
  - congruence.
Qed.

Theorem unpair_total fuel : dtotal fuel (unpair w fuel).
Proof.
  induction fuel as [|fuel IH]; intros i st Hi Hp; [lia|].
  simpl. fold (dget st i).
  destruct (dget st i) as [r0|] eqn:Hget; [done|].
  destruct (w !! i) as [[type value]|] eqn:Hrec.
  2: { split; [done|]. intros _ Hlt. apply lookup_ge_None in Hrec. lia. }
  assert (Hbad : ∀ f : failure, f ≠ OutOfFuel →
    ¬ record_ok (type, value) →
    f ≠ OutOfFuel ∧ (wire_ok → i < length w → False)).
  { intros f Hf Hno. split; [done|]. intros Hw _. apply Hno. by eapply Hw. }
  assert (Hp1 : ∀ o, pending_d (as_new o (KIndex i) st).2 < fuel).
  { intros o. pose proof (pending_d_new o i st _ Hrec Hget). lia. }
  assert (Hi1 : ∀ o, no_str (type, value) → dec_inv w (as_new o (KIndex i) st).2).
  { intros o Hns. by eapply dec_inv_new. }
  assert (Hhere : ∀ o, ds_heap (as_new o (KIndex i) st).2 !! length (ds_heap st)
                       = Some o).
  { intros o. simpl. by apply list_lookup_middle. }
  case_bool_decide as Ht; [subst type; simpl|].
  { destruct value; try done; apply Hbad; try done; inversion 1. }
  case_bool_decide as Ht0; [subst type; simpl|].
  { destruct value; try done; apply Hbad; try done; inversion 1. }
  simpl.
  case_bool_decide as Ht1; [subst type; simpl|].
  { destruct value; try (apply Hbad; [done|inversion 1]).
    pose proof (unpair_each_total fuel _ array_push
      (λ o, ∃ l, o = OArray l) (length (ds_heap st)) slots
      (unpair_spec w fuel) IH) as Hloop.
    ospecialize* (Hloop _ _ (OArray []) (Hi1 _ _) (Hhere _) _ (Hp1 _)).
    { intros v o [l ->]. simpl. eauto. }
    { by intros s. }
    { eauto. }
    destruct unpair_each; [done|]. destruct Hloop as [? Hloop]. split; [done|].
    intros Hw _. apply Hloop; [done|]. specialize (Hw _ _ Hrec). by inversion Hw. }
  case_bool_decide as Ht2; [subst type; simpl|].
  { destruct value; try (apply Hbad; [done|inversion 1]).
    pose proof (unpair_entries_total fuel _ object_put
      (λ o, ∃ l t, o = OObject l t) str_slot
      (λ k, ∃ s, s ≠ "__proto__" ∧ k = VPrim (PString s))
      (length (ds_heap st)) pairs (unpair_spec w fuel) IH) as Hloop.
    ospecialize* (Hloop _ _ str_slot_dec _ (OObject [] None)
                    (Hi1 _ _) (Hhere _) _ (Hp1 _)).
    { intros k v o (s & Hne & ->) (l & t & ->). simpl. unfold assign.
      apply String.eqb_neq in Hne as ->. simpl. eauto. }
    { intros k v o o' (l & t & ->). destruct k as [[]|]; simpl; try done.
      destruct (assign _ _ _); simpl; [|done]. intros [= <-]. eauto. }
    { by intros s. }
    { eauto. }
    destruct unpair_entries; [done|]. destruct Hloop as [? Hloop]. split; [done|].
    intros Hw _. apply Hloop; [done|]. specialize (Hw _ _ Hrec). by inversion Hw. }
  case_bool_decide as Ht3; [subst type; simpl|].
  { destruct value as [|[]| | | | |]; try done; apply Hbad; try done; inversion 1. }
  case_bool_decide as Ht4; [subst type; simpl|].
  { destruct value; try done; apply Hbad; try done; inversion 1. }
  case_bool_decide as Ht5; [subst type; simpl|].
  { destruct value; try (apply Hbad; [done|inversion 1]).
    pose proof (unpair_entries_total fuel _ map_put
      (λ o, ∃ l, o = OMap l) (λ _, True) (λ _, True)
      (length (ds_heap st)) pairs (unpair_spec w fuel) IH) as Hloop.
    ospecialize* (Hloop _ _ _ _ (OMap []) (Hi1 _ _) (Hhere _) _ (Hp1 _)).
    { intros k v o _ [l ->]. simpl. eauto. }
    { intros k v o o' [l ->]. simpl. intros [= <-]. eauto. }
    { done. }
    { by intros s. }
    { eauto. }
    destruct unpair_entries; [done|]. destruct Hloop as [? Hloop]. split; [done|].
    intros Hw _. apply Hloop; [done|]. specialize (Hw _ _ Hrec). by inversion Hw. }
  case_bool_decide as Ht6; [subst type; simpl|].
  { destruct value; try (apply Hbad; [done|inversion 1]).
    pose proof (unpair_each_total fuel _ set_add
      (λ o, ∃ l, o = OSet l) (length (ds_heap st)) slots
      (unpair_spec w fuel) IH) as Hloop.
    ospecialize* (Hloop _ _ (OSet []) (Hi1 _ _) (Hhere _) _ (Hp1 _)).
    { intros v o [l ->]. simpl. eauto. }
    { by intros s. }
    { eauto. }
    destruct unpair_each; [done|]. destruct Hloop as [? Hloop]. split; [done|].
    intros Hw _. apply Hloop; [done|]. specialize (Hw _ _ Hrec). by inversion Hw. }
  case_bool_decide as Ht7; [subst type; simpl|].
  { destruct value; try (apply Hbad; [done|inversion 1]).
    unfold env_error. case_bool_decide as Hname; [done|].
    apply Hbad; [done|]. by inversion 1. }
  case_bool_decide as Ht8; [subst type; simpl|].
  { destruct value as [|[]| | | | |]; try (apply Hbad; [done|inversion 1]).
    destruct (BigInt_of_string s) as [z|] eqn:Hz; [done|].
    apply Hbad; [done|]. inversion 1 as [| | | | | | | | |? Hs| | | |]; subst.
    rewrite Hz in Hs. by destruct Hs. }
  case_bool_decide as Ht9; [subst type; simpl|].
  { destruct value as [|[]| | | | |]; try (apply Hbad; [done|by inversion 1]).
    destruct (BigInt_of_string s) as [z|] eqn:Hz; [done|].
    apply Hbad; [done|].
    inversion 1 as [| | | | | | | | | |? Hs| | |]; subst; try done.
    rewrite Hz in Hs. by destruct Hs. }
  case_bool_decide as Ht10; [subst type; simpl|].
  { destruct value; try done; apply Hbad; try done; by inversion 1. }
  case_bool_decide as Ht11; [subst type; simpl|].
  { destruct value; try done; apply Hbad; try done; by inversion 1. }
  destruct (env_new type value) as [o|f] eqn:Hnew; [done|].
  apply Hbad; [by eapply env_new_fuel|].
  inversion 1; subst; congruence.
Qed.
End decoder_total.

(** ** Structural equality of two value graphs *)

(** What survives of an error's name and of the window of a [DataView]:
    [exact] keeps both; [codec] names every error by its class and opens the
    view on the whole buffer. *)
Record fidelity : Type := Fidelity {
  err_name : string → string;
  view_window : nat → nat → nat → nat * nat
}.

Definition exact : fidelity :=
  {| err_name := λ name, name;
     view_window := λ byteOffset byteLength _, (byteOffset, byteLength) |}.

Definition codec : fidelity :=
  {| err_name := λ _, "Error";
     view_window := λ _ _ size, (0, size) |}.

Section simulation.
Context (F : fidelity) (h t : heap) (R : value → value → Prop).

(** Two cells of the same kind with the same contents, sub-values
    related by [R]. *)
Inductive obj_sim : obj → obj → Prop :=
| sim_array es rs :
    Forall2 R es rs → obj_sim (OArray es) (OArray rs)
| sim_object props tj props' :
    Forall2 (λ kv kv', kv.1 = kv'.1 ∧ R kv.2 kv'.2) props props' →
    obj_sim (OObject props tj) (OObject props' None)
| sim_date iso : obj_sim (ODate iso) (ODate iso)
| sim_regexp source flags :
    obj_sim (ORegExp source flags) (ORegExp source flags)
| sim_map es es' :
    Forall2 (λ kv kv', R kv.1 kv'.1 ∧ R kv.2 kv'.2) es es' →
    obj_sim (OMap es) (OMap es')
| sim_set es es' :
    Forall2 R es es' → obj_sim (OSet es) (OSet es')
| sim_error name message :
    obj_sim (OError name message) (OError (err_name F name) message)
| sim_boolean b : obj_sim (OBoolean b) (OBoolean b)
| sim_number n : obj_sim (ONumber n) (ONumber n)
| sim_string s : obj_sim (OString s) (OString s)
| sim_bigint z : obj_sim (OBigInt z) (OBigInt z)
| sim_typed k elems : obj_sim (OTyped k elems) (OTyped k elems)
| sim_buffer bytes : obj_sim (OArrayBuffer bytes) (OArrayBuffer bytes)
| sim_view b off len b' off' len' bytes :
    h !! b = Some (OArrayBuffer bytes) →
    t !! b' = Some (OArrayBuffer bytes) →
    view_window F off len (length bytes) = (off', len') →
    obj_sim (ODataView b off len) (ODataView b' off' len').

(** Primitives are compared as [Map] keys are (SameValueZero); references
    by the cells they point to. *)
Definition val_sim (v r : value) : Prop :=
  match v, r with
  | VPrim _, VPrim _ => canon v = canon r
  | VRef l, VRef a =>
      ∃ o o', h !! l = Some o ∧ t !! a = Some o' ∧ obj_sim o o'
  | _, _ => False
  end.

Definition simulation : Prop := ∀ v r, R v r → val_sim v r.
End simulation.

(** [r] in [t] is deeply structurally equal to [v] in [h]. *)
Definition clone_of (F : fidelity) (h : heap) (v : value) (t : heap) (r : value)
  : Prop :=
  ∃ R, R v r ∧ simulation F h t R.

(** ** Filling a container with distinct keys *)

Lemma jsmap_get_None {K V} `{EqDecision K} (m : list (K * V)) k :
  k ∉ m.*1 → jsmap_get m k = None.
Proof.
  induction m as [|[k' v] m IH]; simpl; [done|].
  intros Hk. apply not_elem_of_cons in Hk as [Hne Hk].
  case_decide; [congruence|]. by apply IH.
Qed.

Lemma fill_set rs acc :
  NoDup (acc ++ (canon <$> rs)) →
  fill_each set_add rs (OSet acc) = Some (OSet (acc ++ (canon <$> rs))).
Proof.
  revert acc. induction rs as [|r rs IH]; intros acc Hnd; simpl.
  - by rewrite app_nil_r.
  - rewrite jsset_add_fresh.
    + rewrite IH.
      * by rewrite <-app_assoc.
      * rewrite <-app_assoc. exact Hnd.
    + apply NoDup_app in Hnd as (_ & Hnd & _). intros Hin.
      apply (Hnd _ Hin). simpl. apply elem_of_cons. by left.
Qed.

Lemma fill_map (kvs : list (value * value)) acc :
  NoDup (acc.*1 ++ (canon <$> kvs.*1)) →
  fill_entries map_put kvs (OMap acc) =
  Some (OMap (acc ++ ((λ kv, (canon kv.1, kv.2)) <$> kvs))).
Proof.
  revert acc. induction kvs as [|[k v] kvs IH]; intros acc Hnd; simpl.
  - by rewrite app_nil_r.
  - rewrite jsmap_set_fresh.
    + rewrite IH.
      * by rewrite <-app_assoc.
      * rewrite fmap_app, <-app_assoc. exact Hnd.
    + apply jsmap_get_None. apply NoDup_app in Hnd as (_ & Hnd & _).
      intros Hin. apply (Hnd _ Hin). simpl. apply elem_of_cons. by left.
Qed.

Lemma fill_object (ps : list (string * value)) acc tj :
  NoDup (acc.*1 ++ ps.*1) → "__proto__" ∉ ps.*1 →
  fill_entries object_put ((λ kv, (VPrim (PString kv.1), kv.2)) <$> ps)
    (OObject acc tj) =
  Some (OObject (acc ++ ps) tj).
Proof.
  revert acc. induction ps as [|[k v] ps IH]; intros acc Hnd Hproto; simpl.
  - by rewrite app_nil_r.
  - simpl in Hproto. apply not_elem_of_cons in Hproto as [Hk Hproto].
    unfold assign. assert (k ≠ "__proto__") as ->%String.eqb_neq by done.
    simpl. rewrite jsmap_set_fresh.
    + rewrite IH.
      * by rewrite <-app_assoc.
      * rewrite fmap_app, <-app_assoc. exact Hnd.
      * done.
    + apply jsmap_get_None. apply NoDup_app in Hnd as (_ & Hnd & _).
      intros Hin. apply (Hnd _ Hin). simpl. apply elem_of_cons. by left.
Qed.

Lemma Forall2_flatten_pairs {A B} (P : A → B → Prop) l k :
  Forall2 P (flatten_pairs l) (flatten_pairs k) →
  Forall2 (λ x y, P x.1 y.1 ∧ P x.2 y.2) l k.
Proof.
  revert k. induction l as [|[a b] l IH]; intros [|[c d] k]; simpl;
    intros HF; try by inversion HF.
  inversion HF as [|? ? ? ? H1 HF']; subst.
  inversion HF' as [|? ? ? ? H2 HF'']; subst.
  constructor; [done|]. by apply IH.
Qed.

Lemma flatten_pairs_lookup {A} (l : list (A * A)) m x :
  l !! m = Some x →
  flatten_pairs l !! (2 * m) = Some x.1 ∧
  flatten_pairs l !! (2 * m + 1) = Some x.2.
Proof.
  revert m. induction l as [|[a b] l IH]; intros [|m]; simpl; try done.
  - by intros [= <-].
  - intros Hm. destruct (IH _ Hm) as [H1 H2].
    replace (m + S (m + 0)) with (S (2 * m)) by lia. simpl.
    replace (m + (m + 0)) with (2 * m) in * by lia. done.
Qed.

(** ** A finished sequence is accepted *)

Section closed_wire.
Context (h : heap) (strict : bool) (st : sstate).
Context (Hinv : enc_inv st) (Hclosed : closed h strict st).
Context (Hwf : wf_heap h).

Lemma env_new_typed k elems :
  env_new (TStr (typed_name k)) (PayElems elems) = Ok (OTyped k elems).
Proof. by destruct k. Qed.

Lemma closed_str_slot k i :
  k ≠ "__proto__" →
  slot_of st (VPrim (PString k)) i → str_slot (st_out st) i.
Proof.
  intros Hne Hi. destruct (Hclosed _ _ Hi) as (r & Hr & p' & -> & Hp).
  exists k. split; [done|]. rewrite Hr. do 3 f_equal.
  destruct p' as [| | |[]| | | |]; simpl in Hp; congruence.
Qed.

Lemma closed_wire_ok : wire_ok (st_out st).
Proof.
  intros i rec Hrec.
  destruct (inv_surj _ Hinv i) as [k Hk]; [by eapply lookup_lt_Some|].
  destruct (Hclosed _ _ Hk) as (r & Hr & Hd).
  assert (r = rec) as -> by congruence. clear Hr.
  assert (Hslot : ∀ v j, slot_of st v j → j < length (st_out st)).
  { intros v j Hj. by eapply (inv_range _ Hinv). }
  destruct k as [p|l].
  - destruct p; simpl in Hd;
      try (destruct Hd as (p' & -> & _); constructor);
      try (destruct Hd as (_ & ->); constructor);
      subst; constructor.
    rewrite BigInt_of_toString. eauto.
  - destruct Hd as (o & Hl & Hd). destruct o; simpl in Hd.
    + destruct Hd as (slots & -> & HF). constructor.
      apply Forall2_Forall_r with (Q := λ j, j < length (st_out st)) in HF;
        [done|]. apply Forall_true. eauto.
    + destruct Hd as (pairs & -> & HF). constructor.
      rewrite filter_key_entries in HF. unfold key_entries in HF.
      rewrite Forall2_fmap_l in HF.
      destruct (wf_heap_lookup _ _ _ Hwf Hl) as (_ & _ & Hproto).
      eapply Forall2_Forall_r; [exact HF|]. apply Forall_forall.
      intros [k v] Hin [ki vi] [Hki Hvi]. simpl in *.
      split; [split|]; eauto. apply (closed_str_slot k); [|done].
      intros ->. apply Hproto. apply list_elem_of_fmap.
      exists ("__proto__", v). split; [done|].
      apply list_elem_of_In. apply list_elem_of_In, filter_In in Hin. tauto.
    + subst. constructor.
    + subst. constructor.
    + destruct Hd as (pairs & -> & HF). constructor.
      eapply Forall2_Forall_r; [exact HF|]. apply Forall_true.
      intros [k v] [ki vi] [Hki Hvi]. simpl in *. eauto.
    + destruct Hd as (slots & -> & HF). constructor.
      eapply Forall2_Forall_r; [exact HF|]. apply Forall_true. eauto.
    + subst. constructor. unfold native_errors. apply elem_of_cons. by left.
    + subst. by econstructor.
    + subst. by econstructor.
    + subst. by econstructor.
    + subst. constructor. rewrite BigInt_of_toString. eauto.
    + subst. econstructor. apply env_new_typed.
    + subst. constructor.
    + destruct Hd as (bytes & _ & ->). constructor.
Qed.
End closed_wire.

(** ** The two runs together *)

Lemma dec_weaken w st n m i r : m ≤ n → dec w st n i r → dec w st m i r.
Proof.
  intros Hmn [Hi|(rec & b & Hrec & -> & bytes & Hb)]; [by left|].
  right. exists rec, b. repeat split; try done. exists bytes.
  destruct Hb as [(-> & Hn & Hb)|(-> & buf & Hn & Hlt & Hb & Hbuf)]; [left|right].
  - repeat split; [lia|done].
  - split; [done|]. exists buf. repeat split; try done. lia.
Qed.

Lemma dec_seq_Forall2 w st n slots rs :
  dec_seq w st n slots rs → Forall2 (dec w st 0) slots rs.
Proof.
  induction 1; constructor; [|done]. eapply dec_weaken; [|done]. lia.
Qed.

Lemma dec_seq_lookup w st n slots rs j s r :
  dec_seq w st n slots rs → slots !! j = Some s → rs !! j = Some r →
  ∃ m, n ≤ m ∧ dec w st m s r.
Proof.
  intros Hs. revert j. induction Hs as [|n n' i0 r0 slots rs Hd Hb Hle Hs IH];
    intros [|j]; simpl; try done.
  - intros [= <-] [= <-]. eauto.
  - intros Hj Hr. destruct (IH _ Hj Hr) as (m & Hm & Hdm). exists m.
    split; [lia|done].
Qed.

(** Of two values returned for a list of slots, the later one was returned
    when the earlier one was already there. *)
Lemma dec_seq_lookup2 w st n slots rs j j' s r s' r' :
  dec_seq w st n slots rs → j < j' →
  slots !! j = Some s → rs !! j = Some r →
  slots !! j' = Some s' → rs !! j' = Some r' →
  ∃ m m', dec w st m s r ∧ below r m' ∧ dec w st m' s' r'.
Proof.
  intros Hs. revert j j'.
  induction Hs as [|n n' i0 r0 slots rs Hd Hb Hle Hs IH];
    intros [|j] [|j'] Hlt; simpl; try done; try lia.
  - intros [= <-] [= <-] Hj' Hr'.
    destruct (dec_seq_lookup _ _ _ _ _ _ _ _ Hs Hj' Hr') as (m & Hm & Hdm).
    exists n, m. split; [done|]. split; [|done].
    destruct r0; simpl in *; [done|lia].
  - intros Hj Hr Hj' Hr'. apply (IH j j'); [lia|done..].
Qed.

Definition is_buffer (o : obj) : Prop :=
  match o with OArrayBuffer _ | ODataView _ _ _ => True | _ => False end.

Lemma fill_entries_kind put (P : obj → Prop) kvs o o' :
  (∀ k v o o', P o → put k v o = Some o' → P o') →
  P o → fill_entries put kvs o = Some o' → P o'.
Proof.
  intros Hput. revert o. induction kvs as [|[k v] kvs IH]; intros o Ho; simpl.
  - by intros [= <-].
  - destruct (put k v o) as [o1|] eqn:Ho1; [|done]. simpl. apply IH. eauto.
Qed.

Lemma fill_each_kind push (P : obj → Prop) rs o o' :
  (∀ v o o', P o → push v o = Some o' → P o') →
  P o → fill_each push rs o = Some o' → P o'.
Proof.
  intros Hpush. revert o. induction rs as [|r rs IH]; intros o Ho; simpl.
  - by intros [= <-].
  - destruct (push r o) as [o1|] eqn:Ho1; [|done]. simpl. apply IH. eauto.
Qed.

Lemma env_new_not_buffer name p o :
  env_new (TStr name) p = Ok o → ¬ is_buffer o.
Proof.
  simpl. repeat (case_match; try done); intros [= <-]; simpl; tauto.
Qed.

(** A slot of the map never holds a buffer. *)
Lemma realizes_not_buffer w st rec a o :
  realizes w st rec (VRef a) → ds_heap st !! a = Some o → ¬ is_buffer o.
Proof.
  intros Hre Ho.
  inversion Hre; subst; simplify_eq; try (simpl; tauto).
  - eapply (fill_entries_kind object_put (λ o, ¬ is_buffer o)); [| |done];
      [|simpl; tauto].
    intros [[]|] v [] o'; simpl; try done.
    destruct (assign _ _ _); simpl; [|done]. intros _ [= <-]; simpl; tauto.
  - eapply (fill_entries_kind map_put (λ o, ¬ is_buffer o)); [| |done];
      [|simpl; tauto].
    intros k v [] o'; simpl; try done; intros _ [= <-]; simpl; tauto.
  - eapply (fill_each_kind set_add (λ o, ¬ is_buffer o)); [| |done];
      [|simpl; tauto].
    intros v [] o'; simpl; try done; intros _ [= <-]; simpl; tauto.
  - by eapply env_new_not_buffer.
Qed.

Lemma buffer_at_is_buffer t n rec b :
  buffer_at t n rec b → n ≤ b ∧ ∃ o, t !! b = Some o ∧ is_buffer o.
Proof.
  intros [bytes [(_ & Hn & Hb)|(_ & buf & Hn & Hlt & Hb & _)]].
  - split; [done|]. by eexists.
  - split; [lia|]. by eexists.
Qed.

Section roundtrip.
Context (h : heap) (st : sstate) (ds : dstate).
Context (Hinv : enc_inv st) (Hclosed : closed h true st).
Context (Hdinv : dec_inv (st_out st) ds).
Context (Hdone : ∀ j r, dget ds j = Some r →
           ∃ rec, st_out st !! j = Some rec ∧ realizes (st_out st) ds rec r).

(** A value of the source and the value returned for its slot. *)
Definition related (v r : value) : Prop :=
  ∃ i r0, slot_of st v i ∧ dec (st_out st) ds 0 i r0 ∧ canon r = canon r0.

Lemma dec_cases n i r rec :
  dec (st_out st) ds n i r → st_out st !! i = Some rec →
  (dget ds i = Some r ∧ realizes (st_out st) ds rec r) ∨
  (∃ b, r = VRef b ∧ buffer_at (ds_heap ds) n rec b).
Proof.
  intros [Hi|(rec' & b & Hrec' & -> & Hb)] Hrec.
  - left. split; [done|]. destruct (Hdone _ _ Hi) as (rec' & Hrec' & Hre).
    congruence.
  - right. exists b. split; [done|]. congruence.
Qed.

(** The value the map of the deserializer holds for the slot of a
    primitive is that primitive; for the slot of an object, a
    reference. *)
Lemma registered_shape v i r :
  slot_of st v i → dget ds i = Some r →
  match v with
  | VPrim _ => (∃ q, r = VPrim q) ∧ canon r = canon v
  | VRef _ => ∃ a, r = VRef a
  end.
Proof.
  intros Hi Hr. destruct (Hclosed _ _ Hi) as (rec & Hrec & Hd).
  destruct (Hdone _ _ Hr) as (rec' & Hrec' & Hre).
  assert (rec' = rec) as -> by congruence.
  destruct v as [p|l].
  - destruct p as [| | |n| | | |]; simpl in Hd;
      try (destruct Hd as (p' & -> & Hp));
      try (by destruct Hd);
      try (destruct n; simpl in Hd; destruct Hd as (p' & -> & Hp));
      subst; inversion Hre as [? ? Ht|? Ht| | | | | | | |? ? Hz| |];
      subst; try (by destruct Ht); simplify_eq; eauto.
    rewrite BigInt_of_toString in Hz. simplify_eq. eauto.
  - destruct Hd as (o & Hl & Hd).
    destruct o; simpl in Hd;
      try (destruct Hd as (x & Heq & HF));
      simplify_eq; inversion Hre as [? ? Ht|? Ht| | | | | | | | | |];
      subst; try (by destruct Ht); eauto.
Qed.

(** Distinct keys of the source come back as distinct keys. *)
Lemma distinct_pair e e' s s' r r' n n' :
  canon e = e → canon e' = e' → e ≠ e' →
  slot_of st e s → slot_of st e' s' →
  dec (st_out st) ds n s r → below r n' → dec (st_out st) ds n' s' r' →
  canon r ≠ canon r'.
Proof.
  intros He He' Hne Hs Hs' Hd Hb Hd' Heq.
  assert (Hss : s ≠ s').
  { intros ->. apply Hne. rewrite <-He, <-He'.
    by eapply (inv_inj _ Hinv). }
  destruct (Hclosed _ _ Hs) as (rec & Hrec & _).
  destruct (Hclosed _ _ Hs') as (rec' & Hrec' & _).
  destruct (dec_cases _ _ _ _ Hd' Hrec') as [[Hr' Hre']|(b' & -> & Hbuf')].
  - destruct (dec_cases _ _ _ _ Hd Hrec) as [[Hr Hre]|(b & -> & Hbuf)].
    + pose proof (registered_shape _ _ _ Hs Hr) as Hsh.
      pose proof (registered_shape _ _ _ Hs' Hr') as Hsh'.
      destruct e as [p|l], e' as [p'|l'].
      * destruct Hsh as [_ Hc], Hsh' as [_ Hc']. congruence.
      * destruct Hsh as [[q ->] _], Hsh' as [a ->].
        change (canon (VRef a)) with (VRef a) in Heq.
        apply (proj1 (canon_ref _ _)) in Heq. discriminate.
      * destruct Hsh as [a ->], Hsh' as [[q ->] _].
        change (canon (VRef a)) with (VRef a) in Heq.
        symmetry in Heq. apply (proj1 (canon_ref _ _)) in Heq. discriminate.
      * destruct Hsh as [a ->], Hsh' as [a' ->]. simpl in Heq.
        injection Heq as <-. apply Hss. by eapply (dinv_inj _ _ Hdinv).
    + change (canon (VRef b)) with (VRef b) in Heq.
      symmetry in Heq. apply (proj1 (canon_ref _ _)) in Heq as ->.
      apply buffer_at_is_buffer in Hbuf as (_ & o & Ho & Hbo).
      by eapply realizes_not_buffer.
  - apply buffer_at_is_buffer in Hbuf' as (Hn' & _).
    change (canon (VRef b')) with (VRef b') in Heq.
    apply (proj1 (canon_ref _ _)) in Heq as ->. simpl in Hb. lia.
Qed.

Lemma related_dec v i r : slot_of st v i → dec (st_out st) ds 0 i r → related v r.
Proof. intros Hi Hd. by exists i, r. Qed.

Lemma related_canon v i r :
  slot_of st v i → dec (st_out st) ds 0 i r → related v (canon r).
Proof. intros Hi Hd. exists i, r. by rewrite canon_idemp. Qed.

Lemma related_each es slots rs n :
  Forall2 (slot_of st) es slots → dec_seq (st_out st) ds n slots rs →
  Forall2 related es rs ∧ Forall2 related es (canon <$> rs).
Proof.
  intros HF Hs%dec_seq_Forall2. revert rs Hs.
  induction HF as [|e s es slots He HF IH]; intros rs Hs;
    inversion Hs as [|? r ? rs' Hd Hs']; subst; simpl; [by split|].
  destruct (IH _ Hs') as [IH1 IH2].
  split; constructor; eauto using related_dec, related_canon.
Qed.

Lemma decoded_nodup es slots rs n :
  NoDup es → Forall (λ k, canon k = k) es →
  Forall2 (slot_of st) es slots → dec_seq (st_out st) ds n slots rs →
  NoDup (canon <$> rs).
Proof.
  intros Hnd Hcan HF Hs.
  assert (Hlt : ∀ j j' x, j < j' →
    (canon <$> rs) !! j = Some x → (canon <$> rs) !! j' = Some x → False).
  { intros j j' x Hjj'. rewrite !list_lookup_fmap.
    destruct (rs !! j) as [r|] eqn:Hr; [|done].
    destruct (rs !! j') as [r'|] eqn:Hr'; [|done]. simpl.
    intros [= <-] [= Heq].
    pose proof (dec_seq_Forall2 _ _ _ _ _ Hs) as Hs0.
    destruct (Forall2_lookup_r _ _ _ _ _ Hs0 Hr) as (s & Hsj & _).
    destruct (Forall2_lookup_r _ _ _ _ _ Hs0 Hr') as (s' & Hsj' & _).
    destruct (Forall2_lookup_r _ _ _ _ _ HF Hsj) as (e & He & Hes).
    destruct (Forall2_lookup_r _ _ _ _ _ HF Hsj') as (e' & He' & Hes').
    destruct (dec_seq_lookup2 _ _ _ _ _ _ _ _ _ _ _ Hs Hjj' Hsj Hr Hsj' Hr')
      as (m & m' & Hd & Hb & Hd').
    eapply (distinct_pair e e'); eauto.
    - by eapply (Forall_lookup_1 _ _ _ _ Hcan).
    - by eapply (Forall_lookup_1 _ _ _ _ Hcan).
    - intros ->. pose proof (NoDup_lookup _ _ _ _ Hnd He He'). lia. }
  apply NoDup_alt. intros j j' x Hj Hj'.
  destruct (lt_eq_lt_dec j j') as [[Hc| ->]|Hc]; [|done|]; exfalso; eauto.
Qed.

Lemma decoded_keys_nodup (es : list (value * value)) pairs kvs n :
  NoDup es.*1 → Forall (λ k, canon k = k) es.*1 →
  Forall2 (slots_of st) es pairs →
  dec_seq (st_out st) ds n (flatten_pairs pairs) (flatten_pairs kvs) →
  NoDup (canon <$> kvs.*1).
Proof.
  intros Hnd Hcan HF Hs.
  pose proof (Forall2_flatten_pairs _ _ _ (dec_seq_Forall2 _ _ _ _ _ Hs)) as Hs0.
  assert (Hlt : ∀ j j' x, j < j' →
    (canon <$> kvs.*1) !! j = Some x → (canon <$> kvs.*1) !! j' = Some x →
    False).
  { intros j j' x Hjj'. rewrite !list_lookup_fmap.
    destruct (kvs !! j) as [[rk rv]|] eqn:Hr; [|done].
    destruct (kvs !! j') as [[rk' rv']|] eqn:Hr'; [|done]. simpl.
    intros [= <-] [= Heq].
    destruct (Forall2_lookup_r _ _ _ _ _ Hs0 Hr) as ([sk sv] & Hsj & _).
    destruct (Forall2_lookup_r _ _ _ _ _ Hs0 Hr') as ([sk' sv'] & Hsj' & _).
    destruct (Forall2_lookup_r _ _ _ _ _ HF Hsj) as ([k v] & He & Hes & _).
    destruct (Forall2_lookup_r _ _ _ _ _ HF Hsj') as ([k' v'] & He' & Hes' & _).
    simpl in *.
    destruct (flatten_pairs_lookup _ _ _ Hsj) as [Hfs _].
    destruct (flatten_pairs_lookup _ _ _ Hsj') as [Hfs' _].
    destruct (flatten_pairs_lookup _ _ _ Hr) as [Hfr _].
    destruct (flatten_pairs_lookup _ _ _ Hr') as [Hfr' _].
    destruct (dec_seq_lookup2 _ _ _ _ _ (2 * j) (2 * j') _ _ _ _ Hs
                ltac:(lia) Hfs Hfr Hfs' Hfr')
      as (m & m' & Hd & Hb & Hd').
    assert (Hk : es.*1 !! j = Some k) by by rewrite list_lookup_fmap, He.
    assert (Hk' : es.*1 !! j' = Some k') by by rewrite list_lookup_fmap, He'.
    eapply (distinct_pair k k'); eauto.
    - by eapply (Forall_lookup_1 _ _ _ _ Hcan).
    - by eapply (Forall_lookup_1 _ _ _ _ Hcan).
    - intros ->. pose proof (NoDup_lookup _ _ _ _ Hnd Hk Hk'). lia. }
  apply NoDup_alt. intros j j' x Hj Hj'.
  destruct (lt_eq_lt_dec j j') as [[Hc| ->]|Hc]; [|done|]; exfalso; eauto.
Qed.

Context (Hwf : wf_heap h).

Lemma string_key_dec k i r :
  slot_of st (VPrim (PString k)) i → dec (st_out st) ds 0 i r →
  r = VPrim (PString k).
Proof.
  intros Hi Hd. destruct (Hclosed _ _ Hi) as (rec & Hrec & p' & -> & Hp).
  destruct (dec_cases _ _ _ _ Hd Hrec) as [[Hr Hre]|(b & -> & bytes & Hb)].
  - destruct (registered_shape _ _ _ Hi Hr) as [[q ->] Hc]. simpl in Hc.
    destruct q as [| | |[]| | | |]; simpl in Hc; congruence.
  - destruct Hb as [[? _]|[? _]]; congruence.
Qed.

Lemma object_entries props pairs kvs :
  Forall2 (slots_of st) (key_entries props) pairs →
  Forall2 (λ p kv, dec (st_out st) ds 0 p.1 kv.1 ∧
                   dec (st_out st) ds 0 p.2 kv.2) pairs kvs →
  ∃ props',
    kvs = (λ kv, (VPrim (PString kv.1), kv.2)) <$> props' ∧
    props'.*1 = props.*1 ∧
    Forall2 (λ kv kv', kv.1 = kv'.1 ∧ related kv.2 kv'.2) props props'.
Proof.
  revert pairs kvs. induction props as [|[k v] props IH];
    intros pairs kvs HF HD; simpl in HF.
  - inversion HF; subst. inversion HD; subst. by exists [].
  - inversion HF as [|? [sk sv] ? pairs' [Hk Hv] HF']; subst.
    inversion HD as [|? [rk rv] ? kvs' [Hdk Hdv] HD']; subst. simpl in *.
    destruct (IH _ _ HF' HD') as (props' & -> & Hkeys & Hrel).
    exists ((k, rv) :: props').
    split; [simpl; by rewrite (string_key_dec _ _ _ Hk Hdk)|].
    split; [simpl; by f_equal|].
    constructor; [|done]. split; [done|]. by eapply related_dec.
Qed.

Lemma map_entries (es : list (value * value)) pairs kvs :
  Forall2 (slots_of st) es pairs →
  Forall2 (λ p kv, dec (st_out st) ds 0 p.1 kv.1 ∧
                   dec (st_out st) ds 0 p.2 kv.2) pairs kvs →
  Forall2 (λ kv kv', related kv.1 kv'.1 ∧ related kv.2 kv'.2) es
    ((λ kv, (canon kv.1, kv.2)) <$> kvs).
Proof.
  intros HF. revert kvs. induction HF as [|[k v] [sk sv] es pairs [Hk Hv] HF IH];
    intros kvs HD; inversion HD as [|? [rk rv] ? kvs' [Hdk Hdv] HD']; subst;
    simpl in *; constructor; eauto.
  split; simpl; eauto using related_dec, related_canon.
Qed.

Lemma related_sim v i r :
  slot_of st v i → dec (st_out st) ds 0 i r →
  val_sim codec h (ds_heap ds) related v r.
Proof.
  intros Hi Hd. destruct (Hclosed _ _ Hi) as (rec & Hrec & Hdesc).
  pose proof (dec_cases _ _ _ _ Hd Hrec) as Hcases.
  destruct v as [p|l].
  - destruct Hcases as [[Hr Hre]|(b & -> & bytes & Hb)].
    + destruct (registered_shape _ _ _ Hi Hr) as [[q ->] Hc]. by simpl.
    + exfalso. destruct p as [| | |[]| | | |]; simpl in Hdesc;
        try (destruct Hdesc as (p' & -> & _));
        try (destruct Hdesc as (_ & ->));
        subst; destruct Hb as [[? _]|[? _]]; congruence.
  - destruct Hdesc as (o & Hl & Hdo).
    pose proof (wf_heap_lookup _ _ _ Hwf Hl) as [Hch Hwfo].
    assert (Hnb : (∃ z p, rec = (TNum z, p)) →
      ∃ a, r = VRef a ∧ realizes (st_out st) ds rec (VRef a)).
    { intros (z & p & ->).
      destruct Hcases as [[Hr Hre]|(b & -> & bytes & Hb)].
      - destruct (registered_shape _ _ _ Hi Hr) as [a ->]. eauto.
      - destruct Hb as [[? _]|[? _]]; congruence. }
    destruct o; simpl in Hdo.
    + destruct Hdo as (slots & -> & HF).
      destruct Hnb as (a & -> & Hre); [eauto|].
      inversion Hre as [? ? Ht|? Ht| | | | | | | | | |]; subst.
      simpl. do 2 eexists. repeat split; try done. constructor.
      by eapply related_each.
    + destruct Hdo as (pairs & -> & HF).
      rewrite filter_all in HF by done.
      destruct Hnb as (a & -> & Hre); [eauto|].
      inversion Hre as [? ? Ht|? Ht| |? ? kvs o' Ho' Hs Hfill| | | | | | | |];
        subst.
      pose proof (Forall2_flatten_pairs _ _ _ (dec_seq_Forall2 _ _ _ _ _ Hs)) as Hs0.
      destruct (object_entries _ _ _ HF Hs0) as (props' & -> & Hkeys & Hrel).
      destruct Hwfo as [Hnd Hproto].
      rewrite (fill_object props' [] None) in Hfill by (simpl; by rewrite Hkeys).
      injection Hfill as <-.
      simpl. do 2 eexists. repeat split; try done. by constructor.
    + subst. destruct Hnb as (a & -> & Hre); [eauto|].
      inversion Hre; subst.
      simpl. do 2 eexists. repeat split; try done. constructor.
    + subst. destruct Hnb as (a & -> & Hre); [eauto|].
      inversion Hre; subst.
      simpl. do 2 eexists. repeat split; try done. constructor.
    + destruct Hdo as (pairs & -> & HF).
      rewrite filter_all in HF by done.
      destruct Hwfo as [Hnd Hcan].
      destruct Hnb as (a & -> & Hre); [eauto|].
      inversion Hre as [? ? Ht|? Ht| | | | |? ? kvs o' Ho' Hs Hfill| | | | |];
        subst.
      pose proof (Forall2_flatten_pairs _ _ _ (dec_seq_Forall2 _ _ _ _ _ Hs)) as Hs0.
      rewrite (fill_map kvs []) in Hfill
        by (simpl; by eapply decoded_keys_nodup).
      injection Hfill as <-.
      simpl. do 2 eexists. repeat split; try done. constructor.
      by apply map_entries with (pairs := pairs).
    + destruct Hdo as (slots & -> & HF).
      rewrite filter_all in HF by done.
      destruct Hwfo as [Hnd Hcan].
      destruct Hnb as (a & -> & Hre); [eauto|].
      inversion Hre as [? ? Ht|? Ht| | | | | |? ? rs o' Ho' Hs Hfill| | | |];
        subst.
      rewrite (fill_set rs []) in Hfill by (simpl; by eapply decoded_nodup).
      injection Hfill as <-.
      simpl. do 2 eexists. repeat split; try done. constructor.
      by eapply related_each.
    + subst. destruct Hnb as (a & -> & Hre); [eauto|].
      inversion Hre; subst.
      simpl. do 2 eexists. repeat split; try done. constructor.
    + subst. destruct Hcases as [[Hr Hre]|(b' & -> & bytes & Hb)];
        [|destruct Hb as [[? _]|[? _]]; congruence].
      destruct (registered_shape _ _ _ Hi Hr) as [a ->].
      inversion Hre as [? ? Ht|? Ht| | | | | | | | | |? ? ? ? Hnew]; subst.
      simpl in Hnew. injection Hnew as <-.
      simpl. do 2 eexists. repeat split; try done. constructor.
    + subst. destruct Hcases as [[Hr Hre]|(b' & -> & bytes & Hb)];
        [|destruct Hb as [[? _]|[? _]]; congruence].
      destruct (registered_shape _ _ _ Hi Hr) as [a ->].
      inversion Hre as [? ? Ht|? Ht| | | | | | | | | |? ? ? ? Hnew]; subst.
      simpl in Hnew. injection Hnew as <-.
      simpl. do 2 eexists. repeat split; try done. constructor.
    + subst. destruct Hcases as [[Hr Hre]|(b' & -> & bytes & Hb)];
        [|destruct Hb as [[? _]|[? _]]; congruence].
      destruct (registered_shape _ _ _ Hi Hr) as [a ->].
      inversion Hre as [? ? Ht|? Ht| | | | | | | | | |? ? ? ? Hnew]; subst.
      simpl in Hnew. injection Hnew as <-.
      simpl. do 2 eexists. repeat split; try done. constructor.
    + subst. destruct Hcases as [[Hr Hre]|(b' & -> & bytes & Hb)];
        [|destruct Hb as [[? _]|[? _]]; congruence].
      destruct (registered_shape _ _ _ Hi Hr) as [a ->].
      inversion Hre as [? ? Ht|? Ht| | | | | | | | |? ? ? Hz|? ? ? ? Hnew];
        subst; [|done].
      rewrite BigInt_of_toString in Hz. injection Hz as <-.
      simpl. do 2 eexists. repeat split; try done. constructor.
    + subst. destruct Hcases as [[Hr Hre]|(b' & -> & bytes & Hb)];
        [|destruct Hb as [[Hb _]|[Hb _]]; by destruct kind].
      destruct (registered_shape _ _ _ Hi Hr) as [a ->].
      inversion Hre as [? ? Ht|? Ht| | | | | | | | | |? ? ? ? Hnew];
        subst; try (by destruct kind).
      rewrite env_new_typed in Hnew. injection Hnew as <-.
      simpl. do 2 eexists. repeat split; try done. constructor.
    + subst. destruct Hcases as [[Hr Hre]|(b' & -> & bytes' & Hb)].
      { destruct (registered_shape _ _ _ Hi Hr) as [a ->]. by inversion Hre. }
      destruct Hb as [([= <-] & _ & Hb)|[? _]]; [|congruence].
      simpl. do 2 eexists. repeat split; try done. constructor.
    + destruct Hdo as (bytes & Hbuf & ->).
      destruct Hcases as [[Hr Hre]|(b' & -> & bytes' & Hb)].
      { destruct (registered_shape _ _ _ Hi Hr) as [a ->]. by inversion Hre. }
      destruct Hb as [[? _]|([= <-] & buf & _ & _ & Hb & Hbuf')]; [congruence|].
      simpl. do 2 eexists. repeat split; try done. by econstructor.
Qed.

Theorem related_simulation : simulation codec h (ds_heap ds) related.
Proof.
  intros v r (i & r0 & Hi & Hd & Hc).
  pose proof (related_sim _ _ _ Hi Hd) as Hsim.
  destruct v as [p|l], r0 as [q|a]; unfold val_sim in Hsim; try done.
  - destruct r as [q'|a']; unfold val_sim; [congruence|].
    change (canon (VRef a')) with (VRef a') in Hc. symmetry in Hc.
    apply (proj1 (canon_ref _ _)) in Hc. congruence.
  - change (canon (VRef a)) with (VRef a) in Hc.
    apply (proj1 (canon_ref _ _)) in Hc as ->. done.
Qed.
End roundtrip.

(** ** Whole runs *)

Definition strictness (o : options) : bool := negb (json o || lossy o).

Definition ds_empty : dstate := {| ds_map := []; ds_heap := [] |}.

Lemma serialize_Ok fuel h v o w :
  serialize fuel h v o = Ok w ↔
  ∃ i st, pair h (strictness o) (json o) fuel v st_empty = Ok (i, st) ∧
          st_out st = w.
Proof.
  unfold serialize, strictness. fold st_empty.
  destruct (pair h _ _ fuel v st_empty) as [[i st]|f]; split.
  - intros [= <-]. eauto.
  - intros (i' & st' & [= <- <-] & <-). done.
  - done.
  - by intros (i' & st' & [=] & _).
Qed.

Lemma serialize_Fail fuel h v o f :
  serialize fuel h v o = Fail f ↔
  pair h (strictness o) (json o) fuel v st_empty = Fail f.
Proof.
  unfold serialize, strictness. fold st_empty.
  destruct (pair h _ _ fuel v st_empty) as [[i st]|f']; split; congruence.
Qed.

Lemma pending_empty h : pending h st_empty ≤ length h.
Proof.
  unfold pending. etrans; [apply length_filter|]. by rewrite length_seq.
Qed.

Lemma pending_d_empty w : pending_d w ds_empty ≤ length w.
Proof.
  unfold pending_d. etrans; [apply length_filter|]. by rewrite length_seq.
Qed.

Lemma dec_inv_empty w : dec_inv w ds_empty.
Proof. by split. Qed.

Lemma deserialize_Ok fuel w r t :
  deserialize fuel w = Ok (r, t) ↔
  ∃ ds, unpair w fuel 0 ds_empty = Ok (r, ds) ∧ ds_heap ds = t.
Proof.
  unfold deserialize. fold ds_empty.
  destruct (unpair w fuel 0 ds_empty) as [[r' ds]|f]; split.
  - intros [= <- <-]. eauto.
  - intros (ds' & [= <- <-] & <-). done.
  - done.
  - by intros (ds' & [=] & _).
Qed.

(** With more slots of fuel than the sequence has records, the
    deserializer never runs out of fuel. *)
Lemma deserialize_fuel fuel w :
  length w < fuel → deserialize fuel w ≠ Fail OutOfFuel.
Proof.
  intros Hfuel. unfold deserialize. fold ds_empty.
  pose proof (unpair_total w fuel 0 ds_empty (dec_inv_empty w)) as Htot.
  ospecialize* Htot. { pose proof (pending_d_empty w). lia. }
  destruct (unpair w fuel 0 ds_empty) as [[r ds]|f]; [done|].
  destruct Htot as [Hf _]. congruence.
Qed.

(** The run of [serialize] without [json] on a well-formed heap, with more
    fuel than the heap has cells. *)
Lemma serialize_total h v o fuel :
  wf_heap h → wf_value h v → length h < fuel → json o = false →
  (∃ w, serialize fuel h v o = Ok w) ∨
  (lossy o = false ∧
   ∃ c, reachable h v c ∧ is_callable c = true ∧
        serialize fuel h v o = Fail (Throw (TypeNotSerializable (typeof c)))).
Proof.
  intros Hwf Hv Hfuel Hjson.
  pose proof (pair_total h (strictness o) Hwf fuel v st_empty enc_inv_empty Hv)
    as Htot.
  ospecialize* Htot. { pose proof (pending_empty h). lia. }
  unfold serialize. fold st_empty. fold (strictness o). rewrite Hjson.
  destruct (pair h (strictness o) false fuel v st_empty) as [[i st]|f].
  - left. eauto.
  - right. destruct Htot as (Hs & c & Hr & Hc & ->).
    unfold strictness in Hs. rewrite Hjson in Hs. simpl in Hs.
    split; [by destruct (lossy o)|]. eauto.
Qed.

(** A successful strict run met no function and no symbol. *)
Lemma serialize_strict_pure h v fuel w c :
  serialize fuel h v no_options = Ok w → reachable h v c →
  is_callable c = false.
Proof.
  intros (i & st & Hrun & _)%serialize_Ok Hr.
  destruct (pair_closed _ _ _ _ _ _ Hrun) as (Hi & Hcl & Hv).
  destruct (closed_reachable h true st v c eq_refl Hcl Hr) as [j Hj]; [eauto|].
  by eapply closed_not_callable.
Qed.

(** The two runs in sequence. *)
Lemma decode_encoded h v fuel i st fuel' :
  wf_heap h →
  pair h true false fuel v st_empty = Ok (i, st) → length (st_out st) < fuel' →
  ∃ r ds, unpair (st_out st) fuel' 0 ds_empty = Ok (r, ds) ∧
    related st ds v r ∧
    simulation codec h (ds_heap ds) (related st ds) ∧
    (∀ l o r1 r2, h !! l = Some o → ¬ is_buffer o →
       related st ds (VRef l) r1 → related st ds (VRef l) r2 → r1 = r2).
Proof.
  intros Hwf Hrun Hfuel.
  destruct (pair_closed _ _ _ _ _ _ Hrun) as (Hi & Hcl & Hv).
  assert (i = 0) as -> by by apply pair_root in Hrun.
  pose proof (closed_wire_ok _ _ _ Hi Hcl Hwf) as Hok.
  assert (H0 : 0 < length (st_out st)) by by eapply (inv_range _ Hi).
  pose proof (unpair_total (st_out st) fuel' 0 ds_empty (dec_inv_empty _)) as Htot.
  ospecialize* Htot. { pose proof (pending_d_empty (st_out st)). lia. }
  destruct (unpair (st_out st) fuel' 0 ds_empty) as [[r ds]|f] eqn:Hdec.
  2: { destruct Htot as [_ Hbad]. by destruct Hbad. }
  exists r, ds. split; [done|].
  destruct (unpair_spec _ _ _ _ _ _ (dec_inv_empty _) Hdec) as (Hs & _ & Hd & _).
  assert (Hdone : ∀ j r0, dget ds j = Some r0 →
    ∃ rec, st_out st !! j = Some rec ∧ realizes (st_out st) ds rec r0).
  { intros j r0 Hj. by destruct (dstep_new _ _ _ Hs j r0 Hj) as (_ & Hre). }
  split; [|split].
  - by exists 0, r.
  - apply related_simulation; try done. apply Hs.
  - intros l o r1 r2 Hl Hnb (i1 & q1 & Hi1 & Hd1 & Hc1) (i2 & q2 & Hi2 & Hd2 & Hc2).
    assert (i2 = i1) as -> by (unfold slot_of in *; congruence).
    destruct (Hcl _ _ Hi1) as (rec & Hrec & o' & Hl' & Hdo).
    simpl in Hl'. assert (o' = o) as -> by congruence.
    assert (Hreg : ∀ q, dec (st_out st) ds 0 i1 q → dget ds i1 = Some q).
    { intros q [Hq|(rec' & b & Hrec' & -> & bytes & Hb)]; [done|].
      exfalso. apply Hnb. assert (rec' = rec) as -> by congruence.
      destruct o; simpl in Hdo; try (destruct Hdo as (x & -> & _));
        subst; simpl; try done;
        destruct Hb as [[Hb _]|[Hb _]]; try congruence; by destruct kind. }
    apply Hreg in Hd1, Hd2. assert (q2 = q1) as -> by congruence.
    destruct (registered_shape h st ds Hcl Hdone _ _ _ Hi1 Hd1) as [a ->].
    change (canon (VRef a)) with (VRef a) in *.
    apply (proj1 (canon_ref _ _)) in Hc1, Hc2. congruence.
Qed.

(** *** Where [toJSON] plays no part *)

Definition no_toJSON (h : heap) : Prop :=
  ∀ l props tj, h !! l = Some (OObject props tj) → tj = None.

Section json_flag.
Context (h : heap) (strict : bool) (Hno : no_toJSON h).

Lemma pair_each_ext rec rec' keep index es st :
  (∀ v st, rec v st = rec' v st) →
  pair_each rec keep index es st = pair_each rec' keep index es st.
Proof.
  intros Hrec. revert st. induction es as [|e es IH]; intros st; simpl; [done|].
  destruct (keep e); [|done]. rewrite Hrec.
  destruct (rec' e st) as [[i st1]|]; [|done]. apply IH.
Qed.

Lemma pair_entries_ext rec rec' keep index es st :
  (∀ v st, rec v st = rec' v st) →
  pair_entries rec keep index es st = pair_entries rec' keep index es st.
Proof.
  intros Hrec. revert st.
  induction es as [|[k e] es IH]; intros st; simpl; [done|].
  destruct (keep k e); [|done]. rewrite Hrec.
  destruct (rec' k st) as [[ki st0]|]; [|done]. rewrite Hrec.
  destruct (rec' e st0) as [[ei st1]|]; [|done]. apply IH.
Qed.

(** Without [toJSON] in the heap, the [json] option changes nothing but
    the strictness. *)
Lemma pair_json_irrelevant fuel v st :
  pair h strict true fuel v st = pair h strict false fuel v st.
Proof.
  revert v st. induction fuel as [|fuel IH]; intros v st; [done|].
  rewrite !pair_unfold.
  destruct (jsmap_get (st_map st) (canon v)); [done|].
  destruct v as [p|l]; [done|].
  destruct (h !! l) as [o|] eqn:Hl; [|done].
  destruct o; simpl; try done.
  - by rewrite (pair_each_ext _ _ _ _ _ _ IH).
  - rewrite (Hno _ _ _ Hl). by rewrite (pair_entries_ext _ _ _ _ _ _ IH).
  - by rewrite (pair_entries_ext _ _ _ _ _ _ IH).
  - by rewrite (pair_each_ext _ _ _ _ _ _ IH).
Qed.
End json_flag.

(** With [json] and no [toJSON] in the heap, the run is the relaxed run. *)
Lemma serialize_json_relaxed h v fuel o :
  no_toJSON h → json o = true →
  serialize fuel h v o = serialize fuel h v {| json := false; lossy := true |}.
Proof.
  intros Hno Hjson. unfold serialize. rewrite Hjson. simpl.
  by rewrite pair_json_irrelevant.
Qed.

(** * The claims *)

(** ** Example graphs *)

(** [new TypeError("boom")]. *)
Definition heap_type_error : heap := [OError "TypeError" "boom"].

(** [{x: 1, y: [1, 2, 3]}]. *)
Definition heap_xy : heap :=
  [OObject [("x", VPrim (PNumber (Int 1))); ("y", VRef 1)] None;
   OArray [VPrim (PNumber (Int 1)); VPrim (PNumber (Int 2));
           VPrim (PNumber (Int 3))]].

(** [a = {}; a.self = a]. *)
Definition heap_self : heap := [OObject [("self", VRef 0)] None].

(** [b = new ArrayBuffer(1); {a: b, b: b}], and the same with a [DataView]
    over [b]. *)
Definition heap_shared_buffer : heap :=
  [OObject [("a", VRef 1); ("b", VRef 1)] None;
   OArrayBuffer [PNumber (Int 7)]].

Definition heap_shared_view : heap :=
  [OObject [("a", VRef 2); ("b", VRef 2)] None;
   OArrayBuffer [PNumber (Int 7)]; ODataView 1 0 1].

(** A graph with a cycle through a [Map] and a [Set], an error, a date, a
    typed array and a window of a buffer:
    [m = new Map; s = new Set([m]); m.set("s", s);
     [m, s, new RangeError("r"), new Date(0), new Uint8Array([1]),
      new DataView(new ArrayBuffer(2), 1, 1), -0, 10n, undefined]]. *)
Definition heap_mixed : heap :=
  [OArray [VRef 1; VRef 2; VRef 3; VRef 4; VRef 5; VRef 7;
           VPrim (PNumber NegZero); VPrim (PBigInt 10); VPrim PUndefined];
   OMap [(VPrim (PString "s"), VRef 2)];
   OSet [VRef 1];
   OError "RangeError" "r";
   ODate "1970-01-01T00:00:00.000Z";
   OTyped Uint8Array [PNumber (Int 1)];
   OArrayBuffer [PNumber (Int 0); PNumber (Int 9)];
   ODataView 6 1 1].

(** ** C1: round trip *)



Example serialize_mixed :
  serialize 9 heap_mixed (VRef 0) no_options =
  Ok [(TNum ARRAY, PaySlots [1; 3; 4; 5; 6; 7; 8; 9; 10]);
      (TNum MAP, PayPairs [(2, 3)]);
      (TNum PRIMITIVE, PayLit (PString "s"));
      (TNum SET, PaySlots [1]);
      (TNum ERROR, PayError "Error" "r");
      (TNum DATE, PayLit (PString "1970-01-01T00:00:00.000Z"));
      (TStr "Uint8Array", PayElems [PNumber (Int 1)]);
      (TStr "DataView", PayElems [PNumber (Int 0); PNumber (Int 9)]);
      (TNum PRIMITIVE, PayLit (PNumber NegZero));
      (TNum BIGINT, PayLit (PString "10"));
      (TNum VOID, PayNone)].
Proof. vm_compute. reflexivity. Qed.


(** ** C2: identity sharing *)

(** C2: [b = new ArrayBuffer(1); v = {a: b, b: b}] has [v.a === v.b], and
    the round trip [r] has [r.a !== r.b]: the single slot of [b] is
    rebuilt once per reference, because the ArrayBuffer and DataView cases
    of [unpair] file the result under the payload instead of the index.  The
    same happens to a shared [DataView]. *)
Lemma shared_buffer_is_split :
  (∃ w, serialize 2 heap_shared_buffer (VRef 0) no_options = Ok w ∧
        w !! 0 = Some (TNum OBJECT, PayPairs [(1, 2); (3, 2)]) ∧
        deserialize 2 w =
          Ok (VRef 0,
              [OObject [("a", VRef 1); ("b", VRef 2)] None;
               OArrayBuffer [PNumber (Int 7)];
               OArrayBuffer [PNumber (Int 7)]])) ∧
  (∃ w, serialize 2 heap_shared_view (VRef 0) no_options = Ok w ∧
        w !! 0 = Some (TNum OBJECT, PayPairs [(1, 2); (3, 2)]) ∧
        deserialize 2 w =
          Ok (VRef 0,
              [OObject [("a", VRef 2); ("b", VRef 4)] None;
               OArrayBuffer [PNumber (Int 7)]; ODataView 1 0 1;
               OArrayBuffer [PNumber (Int 7)]; ODataView 3 0 1])).
Proof. split; eexists; (split; [by vm_compute|]); split; by vm_compute. Qed.

(** ** C3: cycles *)

Example self_reference_round_trip :
  serialize 2 heap_self (VRef 0) no_options =
    Ok [(TNum OBJECT, PayPairs [(1, 0)]);
        (TNum PRIMITIVE, PayLit (PString "self"))] ∧
  deserialize 2 [(TNum OBJECT, PayPairs [(1, 0)]);
                 (TNum PRIMITIVE, PayLit (PString "self"))] =
    Ok (VRef 0, [OObject [("self", VRef 0)] None]).
Proof. split; by vm_compute. Qed.

Section cycles.
Context (F : fidelity) (h t : heap) (R : value → value → Prop).
Context (Hsim : simulation F h t R).

(** A step of the source graph is a step of the copy. *)
Lemma simulation_child v r c :
  R v r → child h v c → ∃ rc, child t r rc ∧ R c rc.
Proof.
  intros HR (l & o & -> & Hl & Hc). pose proof (Hsim _ _ HR) as Hv.
  destruct r as [q|a]; [done|]. destruct Hv as (o0 & o' & Hl0 & Ha & Ho).
  assert (o0 = o) as -> by congruence.
  assert (Hin : ∀ rc, rc ∈ children o' → child t (VRef a) rc).
  { intros rc Hrc. by exists a, o'. }
  destruct Ho as [es rs HF|props tj props' HF| | |es es' HF|es es' HF| | | | | | | |];
    simpl in Hc; try by apply elem_of_nil in Hc.
  - apply list_elem_of_lookup in Hc as [n Hn].
    destruct (Forall2_lookup_l _ _ _ _ _ HF Hn) as (rc & Hrc & HRc).
    exists rc. split; [|done]. apply Hin. simpl. by eapply list_elem_of_lookup_2.
  - apply list_elem_of_fmap in Hc as ([k c'] & -> & Hkv).
    apply list_elem_of_lookup in Hkv as [n Hn].
    destruct (Forall2_lookup_l _ _ _ _ _ HF Hn) as ([k' rc] & Hrc & _ & HRc).
    exists rc. split; [|done]. apply Hin. simpl.
    apply list_elem_of_fmap. exists (k', rc). split; [done|].
    by eapply list_elem_of_lookup_2.
  - apply elem_of_app in Hc as [Hc|Hc];
      apply list_elem_of_fmap in Hc as ([k c'] & -> & Hkv);
      apply list_elem_of_lookup in Hkv as [n Hn];
      destruct (Forall2_lookup_l _ _ _ _ _ HF Hn) as ([rk rc] & Hrc & HRk & HRc);
      simpl in *.
    + exists rk. split; [|done]. apply Hin. simpl. apply elem_of_app. left.
      apply list_elem_of_fmap. exists (rk, rc). split; [done|].
      by eapply list_elem_of_lookup_2.
    + exists rc. split; [|done]. apply Hin. simpl. apply elem_of_app. right.
      apply list_elem_of_fmap. exists (rk, rc). split; [done|].
      by eapply list_elem_of_lookup_2.
  - apply list_elem_of_lookup in Hc as [n Hn].
    destruct (Forall2_lookup_l _ _ _ _ _ HF Hn) as (rc & Hrc & HRc).
    exists rc. split; [|done]. apply Hin. simpl. by eapply list_elem_of_lookup_2.
Qed.

Lemma simulation_path v r c :
  tc (child h) v c → R v r → ∃ rc, tc (child t) r rc ∧ R c rc.
Proof.
  intros Hp. revert r. induction Hp as [x y Hxy|x y z Hxy Hyz IH]; intros r HR.
  - destruct (simulation_child _ _ _ HR Hxy) as (ry & Hry & HRy).
    exists ry. split; [by apply tc_once|done].
  - destruct (simulation_child _ _ _ HR Hxy) as (ry & Hry & HRy).
    destruct (IH _ HRy) as (rz & Hrz & HRz).
    exists rz. split; [by eapply tc_l|done].
Qed.

Context (Hone : ∀ l o r1 r2, h !! l = Some o → ¬ is_buffer o →
                  R (VRef l) r1 → R (VRef l) r2 → r1 = r2).

(** A value that a path of the source comes back to is copied into a value
    that the same path of the copy comes back to. *)
Lemma simulation_cycle v r :
  R v r → tc (child h) v v → tc (child t) r r.
Proof.
  intros HR Hp. destruct (simulation_path _ _ _ Hp HR) as (r' & Hr' & HR').
  assert (r' = r) as -> ; [|done].
  assert (∃ l o c, v = VRef l ∧ h !! l = Some o ∧ c ∈ children o)
    as (l & o & c & -> & Hl & Hc).
  { inversion Hp as [? ? (l & o & -> & Hl & Hc)|? ? ? (l & o & -> & Hl & Hc)];
      simplify_eq; do 3 eexists; eauto. }
  apply (Hone l o); [done| |done..].
  intros Hb. destruct o; simpl in *; try done; by apply elem_of_nil in Hc.
Qed.

(** [r.k === r] where [v.k === v]. *)
Lemma simulation_self_property l props tj k r :
  h !! l = Some (OObject props tj) → (k, VRef l) ∈ props → R (VRef l) r →
  ∃ a props', r = VRef a ∧ t !! a = Some (OObject props' None) ∧
              (k, VRef a) ∈ props'.
Proof.
  intros Hl Hk HR. pose proof (Hsim _ _ HR) as Hv.
  destruct r as [q|a]; [done|]. destruct Hv as (o & o' & Hl' & Ha & Ho).
  assert (o = OObject props tj) as -> by congruence.
  inversion Ho as [|? ? props' HF| | | | | | | | | | | |]; subst.
  exists a, props'. split; [done|]. split; [done|].
  apply list_elem_of_lookup in Hk as [n Hn].
  destruct (Forall2_lookup_l _ _ _ _ _ HF Hn) as ([k' rc] & Hrc & Hkk & HRc).
  simpl in *. subst k'.
  assert (rc = VRef a) as ->.
  { apply (Hone l (OObject props tj)); [done| |done..]. by intros []. }
  by eapply list_elem_of_lookup_2.
Qed.
End cycles.



(** The bound on [serialize] is for runs that call no [toJSON]: with
    [json], an object whose [toJSON] returns the object itself is handed to
    [pair] again before any slot is reserved, and no fuel is enough. *)
Example toJSON_self_never_stops fuel :
  serialize fuel [OObject [] (Some (VRef 0))] (VRef 0)
    {| json := true; lossy := false |} = Fail OutOfFuel.
Proof.
  apply serialize_Fail. simpl.
  induction fuel as [|fuel IH]; [done|]. by rewrite pair_unfold.
Qed.

(** ** C4: strict and relaxed mode *)

(** The record of a container in relaxed mode, as the specification has
    it: the payload lists, in order, the slots of the entries that [prune]
    leaves, and nothing else; an array keeps all its elements. *)
Definition relaxed_record (st : sstate) (o : obj) (r : record) : Prop :=
  match prune o with
  | OArray es =>
      ∃ slots, r = (TNum ARRAY, PaySlots slots) ∧ Forall2 (slot_of st) es slots
  | OObject props _ =>
      ∃ pairs, r = (TNum OBJECT, PayPairs pairs) ∧
               Forall2 (slots_of st) (key_entries props) pairs
  | OMap es =>
      ∃ pairs, r = (TNum MAP, PayPairs pairs) ∧ Forall2 (slots_of st) es pairs
  | OSet es =>
      ∃ slots, r = (TNum SET, PaySlots slots) ∧ Forall2 (slot_of st) es slots
  | _ => True
  end.

Lemma keep_value_relaxed h e : keep_value h false e = negb (is_callable e).
Proof. unfold keep_value. simpl. by rewrite shouldSkip_typeOf. Qed.

Lemma keep_pair_relaxed h k e :
  keep_pair h false k e = negb (is_callable k || is_callable e).
Proof. unfold keep_pair. simpl. by rewrite !shouldSkip_typeOf. Qed.

Lemma closed_relaxed_record h st l ob j :
  closed h false st → h !! l = Some ob → slot_of st (VRef l) j →
  ∃ r, st_out st !! j = Some r ∧ relaxed_record st ob r.
Proof.
  intros Hcl Hl Hj. destruct (Hcl _ _ Hj) as (r & Hr & o & Hl' & Hd).
  assert (o = ob) as -> by congruence.
  exists r. split; [done|]. unfold relaxed_record.
  destruct ob; simpl in *; try done.
  - destruct Hd as (pairs & -> & HF). exists pairs. split; [done|].
    rewrite (filter_key_entries (keep_value h false)) in HF.
    by rewrite (filter_ext_in (λ kv : string * value, keep_value h false kv.2)
                  (λ kv, negb (is_callable kv.2)))
      in HF by (intros kv; apply keep_value_relaxed).
  - destruct Hd as (pairs & -> & HF). exists pairs. split; [done|].
    by rewrite (filter_ext_in (λ kv : value * value, keep_pair h false kv.1 kv.2)
                  (λ kv, negb (is_callable kv.1 || is_callable kv.2)))
      in HF by (intros kv; apply keep_pair_relaxed).
  - destruct Hd as (slots & -> & HF). exists slots. split; [done|].
    by rewrite (filter_ext_in (keep_value h false) (λ e, negb (is_callable e)))
      in HF by (intros e; apply keep_value_relaxed).
Qed.

Lemma closed_relaxed_callable h st c j :
  closed h false st → is_callable c = true → slot_of st c j →
  st_out st !! j = Some (TNum PRIMITIVE, PayLit PNull).
Proof.
  intros Hcl Hc Hj. destruct (Hcl _ _ Hj) as (r & Hr & Hd).
  destruct c as [[]|]; try done; simpl in Hd; by destruct Hd as [_ ->].
Qed.


(** [[{f: function () {}, n: null}, function () {}]]. *)
Definition heap_with_function : heap :=
  [OArray [VRef 1; VPrim (PFunction 0)];
   OObject [("f", VPrim (PFunction 0)); ("n", VPrim PNull)] None].

Example serialize_function_strict :
  serialize 3 heap_with_function (VRef 0) no_options =
  Fail (Throw (TypeNotSerializable "function")).
Proof. by vm_compute. Qed.

Example serialize_function_lossy :
  serialize 3 heap_with_function (VRef 0) {| json := false; lossy := true |} =
  Ok [(TNum ARRAY, PaySlots [1; 4]); (TNum OBJECT, PayPairs [(2, 3)]);
      (TNum PRIMITIVE, PayLit (PString "n")); (TNum PRIMITIVE, PayLit PNull);
      (TNum PRIMITIVE, PayLit PNull)].
Proof. by vm_compute. Qed.


(** ** C5: the sequence is well-formed *)

Definition wire_xy : list record :=
  [(TNum OBJECT, PayPairs [(1, 2); (3, 4)]);
   (TNum PRIMITIVE, PayLit (PString "x"));
   (TNum PRIMITIVE, PayLit (PNumber (Int 1)));
   (TNum PRIMITIVE, PayLit (PString "y"));
   (TNum ARRAY, PaySlots [2; 5; 6]);
   (TNum PRIMITIVE, PayLit (PNumber (Int 2)));
   (TNum PRIMITIVE, PayLit (PNumber (Int 3)))].

(** [encode({x:1,y:[1,2,3]})]: slot 0 is the object, which refers to the
    slots of ["x"], [1], ["y"] and of the array; [decode] gives the object
    back. *)
Example serialize_xy : serialize 3 heap_xy (VRef 0) no_options = Ok wire_xy.
Proof. by vm_compute. Qed.

Example deserialize_xy : deserialize 3 wire_xy = Ok (VRef 0, heap_xy).
Proof. by vm_compute. Qed.

(** C5: when [serialize] succeeds, whatever the options, no record of the
    sequence refers to a slot outside it; the slot of the root is 0 and the
    sequence has it (without [json] its record is the one [describes] gives
    for the root); and every call of [pair], from any state in which the
    known slots are slots of the sequence, returns a slot of the sequence
    and leaves such a state: a slot is pushed before its number is written
    into a payload. *)
Theorem wire_well_formed fuel h v o w :
  serialize fuel h v o = Ok w →
  wire_closed w ∧
  (∃ st, pair h (strictness o) (json o) fuel v st_empty = Ok (0, st) ∧
         st_out st = w ∧ is_Some (w !! 0) ∧
         (json o = false →
          ∃ r, w !! 0 = Some r ∧ describes h (strictness o) st (canon v) r)) ∧
  (∀ fuel' v' st0 i st1,
     sstate_ok st0 →
     pair h (strictness o) (json o) fuel' v' st0 = Ok (i, st1) →
     sstate_ok st1 ∧ i < length (st_out st1)).
Proof.
  intros (i & st & Hrun & <-)%serialize_Ok.
  destruct (pair_in_range _ _ _ _ _ _ _ _ sstate_ok_empty Hrun)
    as ([_ Hw] & Hi & _).
  assert (i = 0) as -> by by apply pair_root in Hrun.
  split; [done|]. split.
  - exists st. split; [done|]. split; [done|].
    split; [by apply lookup_lt_is_Some_2|].
    intros Hjson. rewrite Hjson in Hrun.
    destruct (pair_closed _ _ _ _ _ _ Hrun) as (_ & Hcl & Hv).
    by apply Hcl.
  - intros fuel' v' st0 i st1 Hok Hrun'.
    destruct (pair_in_range _ _ _ _ _ _ _ _ Hok Hrun') as (? & ? & _). done.
Qed.

Lemma wire_well_formed_witness :
  serialize 3 heap_xy (VRef 0) no_options = Ok wire_xy ∧
  wire_closed wire_xy ∧
  (∃ st, pair heap_xy (strictness no_options) (json no_options) 3 (VRef 0)
           st_empty = Ok (0, st) ∧
         st_out st = wire_xy ∧ is_Some (wire_xy !! 0) ∧
         (json no_options = false →
          ∃ r, wire_xy !! 0 = Some r ∧
               describes heap_xy (strictness no_options) st (canon (VRef 0)) r)) ∧
  (∀ fuel' v' st0 i st1,
     sstate_ok st0 →
     pair heap_xy (strictness no_options) (json no_options) fuel' v' st0
       = Ok (i, st1) →
     sstate_ok st1 ∧ i < length (st_out st1)).
Proof.
  split; [exact serialize_xy|].
  exact (wire_well_formed 3 heap_xy (VRef 0) no_options wire_xy serialize_xy).
Defined.

(** ** C6: the [json] option and [toJSON] *)

(** ['toJSON' in value] with the result of [value.toJSON()]: a plain object
    that carries the method, and a [Date], whose prototype has one that
    returns [toISOString()]. *)
Definition toJSON_of (h : heap) (v : value) : option value :=
  match v with
  | VRef l =>
      match h !! l with
      | Some (OObject _ toJSON) => toJSON
      | Some (ODate iso) => Some (VPrim (PString iso))
      | _ => None
      end
  | VPrim _ => None
  end.

Definition json_only : options := {| json := true; lossy := false |}.

Definition epoch : string := "1970-01-01T00:00:00.000Z".

(** [new Date(0)]. *)
Definition heap_date : heap := [ODate epoch].

(** [{x: 1, toJSON() { return "plain" }}]. *)
Definition heap_toJSON : heap :=
  [OObject [("x", VPrim (PNumber (Int 1)))] (Some (VPrim (PString "plain")))].

(** A [Date] has a [toJSON] method, yet with [json] it is classified first
    and keeps its DATE record: the record is not the encoding of
    [value.toJSON()], which is a PRIMITIVE record. *)
Lemma date_is_not_collapsed :
  toJSON_of heap_date (VRef 0) = Some (VPrim (PString epoch)) ∧
  serialize 1 heap_date (VRef 0) json_only
    = Ok [(TNum DATE, PayLit (PString epoch))] ∧
  serialize 1 heap_date (VPrim (PString epoch)) json_only
    = Ok [(TNum PRIMITIVE, PayLit (PString epoch))] ∧
  ¬ (∀ h v j fuel,
       toJSON_of h v = Some j →
       serialize (S fuel) h v json_only = serialize fuel h j json_only).
Proof.
  split; [done|]. split; [done|]. split; [done|].
  intros Hall. by specialize (Hall heap_date (VRef 0) _ 1 eq_refl).
Qed.

(** C6, as the code has it: with [json], a plain object that has a
    [toJSON] method is replaced by the result of the call, wherever it
    stands in the graph and before a slot is reserved for it, so that
    [serialize] of the object is [serialize] of the result; the test sits
    in the OBJECT case, after classification, and a [Date] keeps its DATE
    record with the ISO string. *)
Theorem toJSON_collapse h o l fuel :
  json o = true →
  (∀ props j, h !! l = Some (OObject props (Some j)) →
     (∀ st, jsmap_get (st_map st) (VRef l) = None →
        pair h (strictness o) (json o) (S fuel) (VRef l) st
        = pair h (strictness o) (json o) fuel j st) ∧
     serialize (S fuel) h (VRef l) o = serialize fuel h j o) ∧
  (∀ iso, h !! l = Some (ODate iso) →
     toJSON_of h (VRef l) = Some (VPrim (PString iso)) ∧
     serialize (S fuel) h (VRef l) o = Ok [(TNum DATE, PayLit (PString iso))]).
Proof.
  intros Hjson. split.
  - intros props j Hl.
    assert (Hstep : ∀ st, jsmap_get (st_map st) (VRef l) = None →
      pair h (strictness o) (json o) (S fuel) (VRef l) st
      = pair h (strictness o) (json o) fuel j st).
    { intros st Hget. rewrite pair_unfold. simpl. rewrite Hget, Hl. simpl.
      by rewrite Hjson. }
    split; [done|].
    unfold serialize. fold st_empty. fold (strictness o).
    by rewrite Hstep.
  - intros iso Hl. split; [simpl; by rewrite Hl|].
    unfold serialize. fold st_empty. fold (strictness o).
    rewrite pair_unfold. simpl. by rewrite Hl.
Qed.

Lemma toJSON_collapse_witness :
  json json_only = true ∧
  serialize 2 heap_toJSON (VRef 0) json_only
    = serialize 1 heap_toJSON (VPrim (PString "plain")) json_only ∧
  serialize 1 heap_toJSON (VPrim (PString "plain")) json_only
    = Ok [(TNum PRIMITIVE, PayLit (PString "plain"))].
Proof.
  split; [reflexivity|]. split; [|reflexivity].
  exact (proj2 (proj1 (toJSON_collapse heap_toJSON json_only 0 1 eq_refl)
                  _ _ eq_refl)).
Defined.

(** ** C8: big integers *)

Example bigint_toString_10 :
  bigint_toString 10 = "10" ∧ bigint_toString (-10) = "-10" ∧
  bigint_toString 0 = "0" ∧
  bigint_toString (2 ^ 64) = "18446744073709551616".
Proof. by vm_compute. Qed.

(** [decode(encode(10n)) === 10n]. *)
Example bigint_10 :
  serialize 1 [] (VPrim (PBigInt 10)) no_options
    = Ok [(TNum BIGINT, PayLit (PString "10"))] ∧
  deserialize 1 [(TNum BIGINT, PayLit (PString "10"))]
    = Ok (VPrim (PBigInt 10), []).
Proof. by vm_compute. Qed.

(** C8: for every bigint [z], whatever the heap and the options,
    [serialize] emits the single record [[BIGINT, z.toString()]], whose
    payload is the decimal text of [z], and [deserialize] of it is [z]
    itself and allocates nothing. *)
Theorem bigint_round_trip (z : Z) h o fuel fuel' :
  serialize (S fuel) h (VPrim (PBigInt z)) o
    = Ok [(TNum BIGINT, PayLit (PString (bigint_toString z)))] ∧
  BigInt_of_string (bigint_toString z) = Some z ∧
  deserialize (S fuel') [(TNum BIGINT, PayLit (PString (bigint_toString z)))]
    = Ok (VPrim (PBigInt z), []).
Proof.
  split; [done|]. split; [apply BigInt_of_toString|].
  unfold deserialize. simpl. by rewrite BigInt_of_toString.
Qed.

(** ** C9: binary buffers *)

(** A buffer of four bytes and a view of its two middle bytes. *)
Definition heap_view : heap :=
  [OArrayBuffer [PNumber (Int 1); PNumber (Int 2); PNumber (Int 3);
                 PNumber (Int 4)];
   ODataView 0 1 2].

(** C9: a [DataView] is encoded as the record ["DataView"] with all the
    bytes of its buffer, whatever its window, and such a record is decoded
    into a view of a fresh buffer that holds these bytes; the buffer itself
    is encoded as the record ["ArrayBuffer"] with its bytes and decoded into
    a fresh buffer that holds them. *)
Theorem buffer_records h l b byteOffset byteLength bytes o fuel fuel' :
  h !! l = Some (ODataView b byteOffset byteLength) →
  h !! b = Some (OArrayBuffer bytes) →
  serialize (S fuel) h (VRef l) o = Ok [(TStr "DataView", PayElems bytes)] ∧
  deserialize (S fuel') [(TStr "DataView", PayElems bytes)]
    = Ok (VRef 1, [OArrayBuffer bytes; ODataView 0 0 (length bytes)]) ∧
  serialize (S fuel) h (VRef b) o = Ok [(TStr "ArrayBuffer", PayElems bytes)] ∧
  deserialize (S fuel') [(TStr "ArrayBuffer", PayElems bytes)]
    = Ok (VRef 0, [OArrayBuffer bytes]).
Proof.
  intros Hl Hb. split; [|split; [|split]].
  - unfold serialize. fold st_empty. fold (strictness o).
    rewrite pair_unfold. simpl. rewrite Hl. simpl. by rewrite Hb.
  - reflexivity.
  - unfold serialize. fold st_empty. fold (strictness o).
    rewrite pair_unfold. simpl. by rewrite Hb.
  - reflexivity.
Qed.

Lemma buffer_records_witness :
  let bytes := [PNumber (Int 1); PNumber (Int 2); PNumber (Int 3);
                PNumber (Int 4)] in
  serialize 1 heap_view (VRef 1) no_options
    = Ok [(TStr "DataView", PayElems bytes)] ∧
  deserialize 1 [(TStr "DataView", PayElems bytes)]
    = Ok (VRef 1, [OArrayBuffer bytes; ODataView 0 0 4]) ∧
  serialize 1 heap_view (VRef 0) no_options
    = Ok [(TStr "ArrayBuffer", PayElems bytes)] ∧
  deserialize 1 [(TStr "ArrayBuffer", PayElems bytes)]
    = Ok (VRef 0, [OArrayBuffer bytes]).
Proof.
  exact (buffer_records heap_view 1 0 1 2 _ no_options 0 0 eq_refl eq_refl).
Defined.

(** ** Graphs without functions and symbols *)

Section pure.
Context (h : heap).

Lemma pair_each_agree rec rec' keep keep' index es st :
  (∀ e, e ∈ es → keep e = keep' e ∧ ∀ st, rec e st = rec' e st) →
  pair_each rec keep index es st = pair_each rec' keep' index es st.
Proof.
  revert st. induction es as [|e es IH]; intros st Hes; simpl; [done|].
  destruct (Hes e) as [<- ->]; [by apply elem_of_cons; left|].
  assert (Hrest : ∀ st0, pair_each rec keep index es st0
                         = pair_each rec' keep' index es st0).
  { intros st0. apply IH. intros e' He'. apply Hes, elem_of_cons. by right. }
  destruct (keep e); [|done].
  by destruct (rec' e st) as [[i st1]|f].
Qed.

Lemma pair_entries_agree rec rec' keep keep' index
    (es : list (value * value)) st :
  (∀ k e, (k, e) ∈ es →
     keep k e = keep' k e ∧
     (∀ st, rec k st = rec' k st) ∧ (∀ st, rec e st = rec' e st)) →
  pair_entries rec keep index es st = pair_entries rec' keep' index es st.
Proof.
  revert st. induction es as [|[k e] es IH]; intros st Hes; simpl; [done|].
  destruct (Hes k e) as (<- & -> & He); [by apply elem_of_cons; left|].
  assert (Hrest : ∀ st0, pair_entries rec keep index es st0
                         = pair_entries rec' keep' index es st0).
  { intros st0. apply IH. intros k' e' He'. apply Hes, elem_of_cons. by right. }
  destruct (keep k e); [|done].
  destruct (rec' k st) as [[ki st0]|f]; [|done]. rewrite He.
  by destruct (rec' e st0) as [[ei st1]|f].
Qed.

Definition pure (v : value) : Prop :=
  ∀ c, reachable h v c → is_callable c = false.

Lemma pure_child v l o c :
  pure v → v = VRef l → h !! l = Some o → c ∈ children o → pure c.
Proof.
  intros Hv -> Hl Hc c' Hr. apply Hv.
  eapply rtc_l; [|exact Hr]. by exists l, o.
Qed.

Lemma pure_prim p : is_callable (VPrim p) = false → pure (VPrim p).
Proof.
  intros Hp c Hr. apply rtc_inv in Hr as [<-|(c' & (l & o & [=] & _) & _)].
  done.
Qed.

(** Where no function and no symbol is reachable, the strict and the
    relaxed runs are the same run. *)
Lemma pair_pure fuel v st :
  pure v → pair h false false fuel v st = pair h true false fuel v st.
Proof.
  revert v st. induction fuel as [|fuel IH]; intros v st Hv; [done|].
  rewrite !pair_unfold.
  destruct (jsmap_get (st_map st) (canon v)); [done|].
  assert (Hself : is_callable v = false) by apply Hv, rtc_refl.
  destruct v as [p|l]; [by destruct p|].
  destruct (h !! l) as [o|] eqn:Hl; [|done].
  assert (Hkeep : ∀ c, c ∈ children o →
    keep_value h false c = keep_value h true c ∧
    ∀ st, pair h false false fuel c st = pair h true false fuel c st).
  { intros c Hc. pose proof (pure_child _ _ _ _ Hv eq_refl Hl Hc) as Hpc.
    split; [|intros st0; by apply IH].
    unfold keep_value. rewrite shouldSkip_typeOf.
    by rewrite (Hpc c (rtc_refl _ _)). }
  destruct o; simpl; try done.
  - erewrite pair_each_agree; [done|]. intros e He. split; [done|].
    by apply Hkeep.
  - erewrite pair_entries_agree; [done|]. intros k e He.
    unfold key_entries in He.
    apply list_elem_of_fmap in He as ([s x] & [= -> ->] & Hin).
    assert (x ∈ props.*2) as Hx.
    { apply list_elem_of_fmap. by exists (s, x). }
    destruct (Hkeep _ Hx) as [Hk Hrec]. split; [done|]. split; [|done].
    intros st0. apply IH. by apply pure_prim.
  - erewrite pair_entries_agree; [done|]. intros k e He.
    assert (k ∈ entries.*1 ++ entries.*2) as Hk.
    { apply elem_of_app. left. apply list_elem_of_fmap. by exists (k, e). }
    assert (e ∈ entries.*1 ++ entries.*2) as He'.
    { apply elem_of_app. right. apply list_elem_of_fmap. by exists (k, e). }
    destruct (Hkeep _ Hk) as [Hkk Hrk]. destruct (Hkeep _ He') as [Hke Hre].
    split; [|done]. unfold keep_pair. unfold keep_value in Hkk, Hke.
    simpl in *. rewrite !shouldSkip_typeOf.
    rewrite (pure_child _ _ _ _ Hv eq_refl Hl Hk k (rtc_refl _ _)).
    by rewrite (pure_child _ _ _ _ Hv eq_refl Hl He' e (rtc_refl _ _)).
  - erewrite pair_each_agree; [done|]. intros e He. by apply Hkeep.
Qed.
End pure.

(** ** C7: transport as JSON text *)

(** *** What [JSON.stringify] refuses *)

Lemma stringify_prim_Fail p f : stringify_prim p = Fail f → f = Throw JsonBigInt.
Proof. destruct p; simpl; congruence. Qed.

Lemma stringify_elems_Fail elems f :
  stringify_elems elems = Fail f → f = Throw JsonBigInt.
Proof.
  induction elems as [|p elems IH]; simpl; [done|].
  destruct (stringify_prim p) eqn:Hp.
  - destruct (stringify_elems elems); [done|]. intros [= <-]. by apply IH.
  - intros [= <-]. by eapply stringify_prim_Fail.
Qed.

Lemma stringify_record_Fail r f :
  stringify_record r = Fail f → f = Throw JsonBigInt.
Proof.
  destruct r as [type []]; simpl; try done.
  - destruct (stringify_prim p) eqn:Hp; [done|]. intros [= <-].
    by eapply stringify_prim_Fail.
  - destruct (stringify_elems elems) eqn:He; [done|]. intros [= <-].
    by eapply stringify_elems_Fail.
Qed.

Lemma JSON_stringify_Fail w f : JSON_stringify w = Fail f → f = Throw JsonBigInt.
Proof.
  unfold JSON_stringify.
  destruct (stringify_records w) as [ds|f'] eqn:Hw; [done|]. intros [= <-].
  revert f' Hw. induction w as [|r w IH]; intros f'; simpl; [done|].
  destruct (stringify_record r) eqn:Hr.
  - destruct (stringify_records w); [done|]. intros [= <-]. by apply IH.
  - intros [= <-]. by eapply stringify_record_Fail.
Qed.

(** [stringifyJSON] throws nothing but the TypeError of [JSON.stringify] on
    a bigint. *)
Lemma stringifyJSON_throw fuel h any e :
  stringifyJSON fuel h any = Fail (Throw e) → e = JsonBigInt.
Proof.
  unfold stringifyJSON.
  destruct (serialize fuel h any jsonOptions) as [w|f] eqn:Hw.
  - intros [= ->]%JSON_stringify_Fail. done.
  - intros [= ->]. apply serialize_Fail in Hw. apply pair_throw in Hw.
    by destruct Hw.
Qed.

(** *** Records that text keeps *)

Definition finite (n : number) : bool :=
  match n with
  | Int _ | Frac _ _ => true
  | _ => false
  end.

Definition lit_ok (p : prim) : bool :=
  match p with
  | PNull | PBool _ | PString _ => true
  | PNumber n => finite n
  | _ => false
  end.

(** The payload has the shape its tag is read with, and its literals are
    written as they are. *)
Definition text_exact (r : record) : bool :=
  match r with
  | (TNum _, PayNone) => true
  | (TNum z, PayLit p) =>
      negb ((z =? ARRAY)%Z || (z =? SET)%Z || (z =? OBJECT)%Z || (z =? MAP)%Z
            || (z =? REGEXP)%Z || (z =? ERROR)%Z) && lit_ok p
  | (TNum z, PaySlots _) => (z =? ARRAY)%Z || (z =? SET)%Z
  | (TNum z, PayPairs _) => (z =? OBJECT)%Z || (z =? MAP)%Z
  | (TNum z, PayRegExp _ _) => (z =? REGEXP)%Z
  | (TNum z, PayError _ _) => (z =? ERROR)%Z
  | (TStr _, PayLit p) => lit_ok p
  | (TStr _, PayElems elems) => forallb lit_ok elems
  | _ => false
  end.

Lemma read_stringify_slot i : read_slot (stringify_slot i) = Some i.
Proof.
  simpl. destruct (Z.leb_spec 0 (Z.of_nat i)); [|lia]. by rewrite Nat2Z.id.
Qed.

Lemma read_stringify_lit p :
  lit_ok p = true → ∃ d, stringify_prim p = Ok d ∧ read_lit d = Some p.
Proof.
  destruct p as [| | |n| | | |]; simpl; try done; eauto.
  destruct n; simpl; try done; eauto.
Qed.

Lemma read_stringify_elems elems :
  forallb lit_ok elems = true →
  ∃ ds, stringify_elems elems = Ok ds ∧ mapM read_lit ds = Some elems.
Proof.
  induction elems as [|p elems IH]; simpl; [by exists []|].
  intros [Hp He]%andb_prop.
  destruct (read_stringify_lit p Hp) as (d & -> & Hd).
  destruct (IH He) as (ds & -> & Hds).
  exists (d :: ds). split; [done|]. simpl. by rewrite Hd, Hds.
Qed.

Lemma read_stringify_record r :
  text_exact r = true →
  ∃ d, stringify_record r = Ok d ∧ read_record d = Some r.
Proof.
  destruct r as [[z|s] value]; destruct value; simpl; try done.
  - eauto.
  - intros [Hz Hp]%andb_prop. apply negb_true_iff in Hz.
    repeat (apply orb_false_elim in Hz as [Hz ?]).
    destruct (read_stringify_lit p Hp) as (d & -> & Hd).
    eexists. split; [done|]. simpl.
    repeat match goal with H : (_ =? _)%Z = false |- _ => rewrite H; clear H end.
    simpl. by rewrite Hd.
  - intros Hz. eexists. split; [done|]. simpl. rewrite Hz. simpl.
    by rewrite (mapM_fmap_Forall_Some _ _ _
                  (Forall_true _ _ read_stringify_slot)).
  - intros Hz. eexists. split; [done|]. simpl.
    assert (Hno : (z =? ARRAY)%Z || (z =? SET)%Z = false).
    { apply orb_prop in Hz as [->%Z.eqb_eq| ->%Z.eqb_eq]; done. }
    rewrite Hno, Hz. simpl.
    rewrite (mapM_fmap_Forall_Some read_pair
               (λ p, JArray [stringify_slot p.1; stringify_slot p.2]) pairs);
      [done|].
    apply Forall_true. intros [i j]. simpl.
    destruct (Z.leb_spec 0 (Z.of_nat i)); [|lia].
    destruct (Z.leb_spec 0 (Z.of_nat j)); [|lia]. simpl.
    by rewrite !Nat2Z.id.
  - intros ->%Z.eqb_eq. eauto.
  - intros ->%Z.eqb_eq. eauto.
  - intros Hp. destruct (read_stringify_lit p Hp) as (d & -> & Hd).
    eexists. split; [done|]. simpl.
    destruct d as [| | | |items|]; simpl in *; try done; by simplify_eq.
  - intros He. destruct (read_stringify_elems elems He) as (ds & -> & Hds).
    eexists. split; [done|]. simpl. by rewrite Hds.
Qed.

(** Text keeps a sequence of such records. *)
Lemma JSON_parse_stringify w :
  Forall (λ r, text_exact r = true) w →
  ∃ str, JSON_stringify w = Ok str ∧ JSON_parse str = Some w.
Proof.
  intros Hw. unfold JSON_stringify.
  assert (∃ ds, stringify_records w = Ok ds ∧ mapM read_record ds = Some w)
    as (ds & -> & Hds).
  { induction Hw as [|r w Hr Hw (ds & IH1 & IH2)]; simpl; [by exists []|].
    destruct (read_stringify_record r Hr) as (d & -> & Hd). rewrite IH1.
    exists (d :: ds). split; [done|]. simpl. by rewrite Hd, IH2. }
  by exists (JArray ds).
Qed.

(** *** Graphs that text keeps *)

(** A value that the serializer writes as a literal that text keeps: any
    value but a number that is not finite or is [-0]. *)
Definition text_value (v : value) : bool :=
  match v with
  | VPrim (PNumber n) => finite n
  | _ => true
  end.

Definition text_obj (o : obj) : bool :=
  forallb text_value (children o) &&
  match o with
  | OObject _ (Some j) => text_value j
  | ONumber n => finite n
  | OTyped _ elems | OArrayBuffer elems => forallb lit_ok elems
  | _ => true
  end.

Definition text_heap (h : heap) : bool := forallb text_obj h.

Lemma forallb_Forall {A} (f : A → bool) l :
  forallb f l = true ↔ Forall (λ x, f x = true) l.
Proof.
  rewrite forallb_forall, Forall_forall. by setoid_rewrite list_elem_of_In.
Qed.

Section text.
Context (h : heap) (strict json : bool) (Hh : text_heap h = true).

Definition text_ok (st : sstate) : Prop :=
  Forall (λ r, text_exact r = true) (st_out st).

Definition rec_text (rec : value → sstate → result (nat * sstate)) : Prop :=
  ∀ v st i st', text_value v = true → text_ok st → rec v st = Ok (i, st') →
                text_ok st'.

Lemma text_heap_lookup l o : h !! l = Some o → text_obj o = true.
Proof.
  intros Hl. apply forallb_Forall in Hh.
  by apply (proj1 (Forall_lookup _ _) Hh l o).
Qed.

Lemma as_text out v st :
  text_exact out = true → text_ok st → text_ok (as_ out v st).2.
Proof.
  intros Hout Hst. unfold text_ok. simpl. apply Forall_app. split; [done|].
  by repeat constructor.
Qed.

Lemma push_slot_text index i st :
  text_ok st →
  text_ok {| st_map := st_map st; st_out := push_slot index i (st_out st) |}.
Proof.
  intros Hst. unfold text_ok, push_slot. simpl. apply Forall_alter; [done|].
  intros [t p] _ Hr. by destruct t, p.
Qed.

Lemma push_pair_text index p st :
  text_ok st →
  text_ok {| st_map := st_map st; st_out := push_pair index p (st_out st) |}.
Proof.
  intros Hst. unfold text_ok, push_pair. simpl. apply Forall_alter; [done|].
  intros [t q] _ Hr. by destruct t, q.
Qed.

Lemma pair_each_text rec keep index es :
  rec_text rec → Forall (λ e, text_value e = true) es →
  ∀ st st', text_ok st → pair_each rec keep index es st = Ok st' → text_ok st'.
Proof.
  intros Hrec Hes. induction Hes as [|e es He Hes IH]; intros st st' Hst; simpl.
  - by intros [= <-].
  - destruct (keep e); [|by apply IH].
    destruct (rec e st) as [[i st1]|] eqn:Hrun; [|done].
    apply IH. apply push_slot_text. by eapply Hrec.
Qed.

Lemma pair_entries_text rec keep index (es : list (value * value)) :
  rec_text rec →
  Forall (λ e, text_value e.1 = true ∧ text_value e.2 = true) es →
  ∀ st st', text_ok st → pair_entries rec keep index es st = Ok st' →
            text_ok st'.
Proof.
  intros Hrec Hes.
  induction Hes as [|[k e] es [Hk He] Hes IH]; intros st st' Hst; simpl.
  - by intros [= <-].
  - destruct (keep k e); [|by apply IH].
    destruct (rec k st) as [[ki st0]|] eqn:Hrunk; [|done].
    destruct (rec e st0) as [[ei st1]|] eqn:Hrune; [|done].
    apply IH. apply push_pair_text. eapply Hrec; [exact He| |exact Hrune].
    eapply Hrec; [exact Hk|exact Hst|exact Hrunk].
Qed.

(** Whatever the mode, the records of a graph that text keeps are records
    that text keeps. *)
Lemma pair_text fuel : rec_text (pair h strict json fuel).
Proof.
  induction fuel as [|fuel IH]; intros v st i st' Hv Hst; [done|].
  rewrite pair_unfold.
  destruct (jsmap_get (st_map st) (canon v)); [by intros [= <- <-]|].
  assert (Hleaf : ∀ out, text_exact out = true →
    Ok (as_ out v st) = Ok (i, st') → text_ok st').
  { intros out Hout [= <- <-]. by apply (as_text out v st). }
  destruct v as [p|l].
  - destruct p as [| | |n| | | |]; simpl; try destruct strict; try done;
      by apply Hleaf.
  - destruct (h !! l) as [o|] eqn:Hl; [|done].
    pose proof (text_heap_lookup _ _ Hl) as [Hch Ho]%andb_prop.
    apply forallb_Forall in Hch.
    destruct o; simpl in *; try (by apply Hleaf).
    + destruct pair_each eqn:Hloop; [|done]. intros [= <- <-].
      eapply pair_each_text; [exact IH|exact Hch| |exact Hloop].
      by apply (as_text (TNum ARRAY, PaySlots []) (VRef l) st).
    + destruct json, toJSON as [j|]; simpl.
      * by apply IH.
      * destruct pair_entries eqn:Hloop; [|done]. intros [= <- <-].
        eapply pair_entries_text; [exact IH| | |exact Hloop].
        -- unfold key_entries. apply Forall_fmap.
           rewrite Forall_fmap in Hch. eapply Forall_impl; [exact Hch|].
           by intros [k x].
        -- by apply (as_text (TNum OBJECT, PayPairs []) (VRef l) st).
      * destruct pair_entries eqn:Hloop; [|done]. intros [= <- <-].
        eapply pair_entries_text; [exact IH| | |exact Hloop].
        -- unfold key_entries. apply Forall_fmap.
           rewrite Forall_fmap in Hch. eapply Forall_impl; [exact Hch|].
           by intros [k x].
        -- by apply (as_text (TNum OBJECT, PayPairs []) (VRef l) st).
      * destruct pair_entries eqn:Hloop; [|done]. intros [= <- <-].
        eapply pair_entries_text; [exact IH| | |exact Hloop].
        -- unfold key_entries. apply Forall_fmap.
           rewrite Forall_fmap in Hch. eapply Forall_impl; [exact Hch|].
           by intros [k x].
        -- by apply (as_text (TNum OBJECT, PayPairs []) (VRef l) st).
    + destruct pair_entries eqn:Hloop; [|done]. intros [= <- <-].
      eapply pair_entries_text; [exact IH| | |exact Hloop].
      * apply Forall_app in Hch as [H1 H2].
        rewrite Forall_fmap in H1. rewrite Forall_fmap in H2.
        apply Forall_forall. intros e He.
        split; [by apply (proj1 (Forall_forall _ _) H1)
               |by apply (proj1 (Forall_forall _ _) H2)].
      * by apply (as_text (TNum MAP, PayPairs []) (VRef l) st).
    + destruct pair_each eqn:Hloop; [|done]. intros [= <- <-].
      eapply pair_each_text; [exact IH|exact Hch| |exact Hloop].
      by apply (as_text (TNum SET, PaySlots []) (VRef l) st).
    + destruct (h !! buffer) as [[]|] eqn:Hb; try done.
      apply Hleaf. simpl.
      by pose proof (text_heap_lookup _ _ Hb) as [_ ?]%andb_prop.
Qed.
End text.

(** *** [stringify] and [parse] *)

(** [new Map([[1, "a"]])] and the text [[[5,[[1,2]]],[0,1],[0,"a"]]]. *)
Definition heap_map : heap :=
  [OMap [(VPrim (PNumber (Int 1)), VPrim (PString "a"))]].

Definition text_map : document :=
  JArray [JArray [JNumber (Int 5);
                  JArray [JArray [JNumber (Int 1); JNumber (Int 2)]]];
          JArray [JNumber (Int 0); JNumber (Int 1)];
          JArray [JNumber (Int 0); JString "a"]].


Lemma serialize_json_strict h v fuel :
  no_toJSON h → pure h v →
  serialize fuel h v jsonOptions = serialize fuel h v no_options.
Proof.
  intros Hno Hpure. unfold serialize. simpl.
  rewrite pair_json_irrelevant by done. by rewrite pair_pure.
Qed.

Lemma serialize_text fuel h v o w :
  text_heap h = true → text_value v = true →
  serialize fuel h v o = Ok w → Forall (λ r, text_exact r = true) w.
Proof.
  intros Hh Hv (i & st & Hrun & <-)%serialize_Ok.
  by eapply (pair_text h _ _ Hh fuel v st_empty i st Hv); [constructor|].
Qed.


Example serialize_map :
  serialize 2 heap_map (VRef 0) no_options
  = Ok [(TNum MAP, PayPairs [(1, 2)]);
        (TNum PRIMITIVE, PayLit (PNumber (Int 1)));
        (TNum PRIMITIVE, PayLit (PString "a"))].
Proof. by vm_compute. Qed.


(** ** C10: [Object.fromEntries] *)

(** [entry] is an array [[key, val, ...]] whose key names the property
    [kv.1] and whose value is [kv.2]. *)
Definition is_pair (h : heap) (entry : value) (kv : string * value) : Prop :=
  ∃ l key elems,
    entry = VRef l ∧ h !! l = Some (OArray (key :: kv.2 :: elems)) ∧
    ToPropertyKey key = Some kv.1.

(** [[["__proto__", 1]]]. *)
Definition heap_proto : heap :=
  [OArray [VPrim (PString "__proto__"); VPrim (PNumber (Int 1))]].

(** C10: [Object.fromEntries([["__proto__", 1]])] returns an object without
    own property, so the key [__proto__] is not mapped to its paired value
    [1]: the assignment [obj[key] = val] reaches the setter that [obj]
    inherits for that name, which ignores the number, where the
    specification (and the function that the polyfill stands for) makes the
    pair a property of the result. *)
Lemma proto_entry_is_dropped :
  is_pair heap_proto (VRef 0) ("__proto__", VPrim (PNumber (Int 1))) ∧
  fromEntries heap_proto [VRef 0] = Ok empty_object ∧
  own empty_object !! "__proto__" = None ∧
  ¬ (∀ h iterable kvs,
       Forall2 (is_pair h) iterable kvs → NoDup kvs.*1 →
       ∃ obj, fromEntries h iterable = Ok obj ∧
              ∀ k v, (k, v) ∈ kvs → own obj !! k = Some v).
Proof.
  assert (Hpair : is_pair heap_proto (VRef 0)
                    ("__proto__", VPrim (PNumber (Int 1)))).
  { by exists 0, (VPrim (PString "__proto__")), []. }
  split; [done|]. split; [done|]. split; [done|]. intros Hall.
  destruct (Hall heap_proto [VRef 0] [("__proto__", VPrim (PNumber (Int 1)))])
    as (obj & [= <-] & Hobj).
  - by repeat constructor.
  - repeat constructor. by intros ?%elem_of_nil.
  - specialize (Hobj _ _ (list_elem_of_here _ _)). done.
Qed.


(** * Further properties of the code *)

(** ** The deserializer reads what slot 0 reaches *)

Lemma unpair_each_agree rec rec' push a slots st :
  (∀ j st, j ∈ slots → rec j st = rec' j st) →
  unpair_each rec push a slots st = unpair_each rec' push a slots st.
Proof.
  revert st. induction slots as [|i slots IH]; intros st Hrec; simpl; [done|].
  rewrite Hrec by (apply elem_of_cons; by left).
  destruct (rec' i st) as [[v st1]|]; [|done].
  destruct (update a (push v) st1); [|done].
  apply IH. intros j st' Hj. apply Hrec. apply elem_of_cons. by right.
Qed.

Lemma unpair_entries_agree rec rec' put a (pairs : list (nat * nat)) st :
  (∀ j st, j ∈ pairs.*1 ++ pairs.*2 → rec j st = rec' j st) →
  unpair_entries rec put a pairs st = unpair_entries rec' put a pairs st.
Proof.
  revert st. induction pairs as [|[ki vi] pairs IH]; intros st Hrec; simpl; [done|].
  rewrite Hrec by (simpl; apply elem_of_cons; by left).
  destruct (rec' ki st) as [[k st1]|]; [|done].
  rewrite Hrec.
  2: { simpl. apply elem_of_cons. right. apply elem_of_app. right.
       apply elem_of_cons. by left. }
  destruct (rec' vi st1) as [[v st2]|]; [|done].
  destruct (update a (put k v) st2); [|done].
  apply IH. intros j st' Hj. apply Hrec. simpl.
  apply elem_of_app in Hj as [Hj|Hj].
  - apply elem_of_cons. right. apply elem_of_app. by left.
  - apply elem_of_cons. right. apply elem_of_app. right.
    apply elem_of_cons. by right.
Qed.

Section unreached.
Context (w extra : list record) (Hclosed : wire_closed w).

Lemma unpair_app fuel i st :
  i < length w → unpair (w ++ extra) fuel i st = unpair w fuel i st.
Proof.
  revert i st. induction fuel as [|fuel IH]; intros i st Hi; [done|].
  simpl. destruct (jsmap_get (ds_map st) (KIndex i)); [done|].
  rewrite lookup_app_l by done.
  destruct (w !! i) as [[type value]|] eqn:Hrec; [|done].
  pose proof (Hclosed _ _ Hrec) as Hslots. simpl in Hslots.
  assert (Heach : ∀ push a slots st0,
    value = PaySlots slots →
    unpair_each (unpair (w ++ extra) fuel) push a slots st0
    = unpair_each (unpair w fuel) push a slots st0).
  { intros push a slots st0 ->. apply unpair_each_agree. intros j st' Hj.
    apply IH. by apply (proj1 (Forall_forall _ _) Hslots). }
  assert (Hentries : ∀ put a pairs st0,
    value = PayPairs pairs →
    unpair_entries (unpair (w ++ extra) fuel) put a pairs st0
    = unpair_entries (unpair w fuel) put a pairs st0).
  { intros put a pairs st0 ->. apply unpair_entries_agree. intros j st' Hj.
    apply IH. by apply (proj1 (Forall_forall _ _) Hslots). }
  repeat case_bool_decide; simpl; try done;
    destruct value; try done; simpl;
    by rewrite ?(Heach _ _ _ _ eq_refl), ?(Hentries _ _ _ _ eq_refl).
Qed.
End unreached.

(** Records that no slot reached from slot 0 refers to are not read:
    appended to a sequence that refers to its own slots only, they change
    nothing of the result, error included. *)
Theorem deserialize_unreached fuel w extra :
  wire_closed w → w ≠ [] →
  deserialize fuel (w ++ extra) = deserialize fuel w.
Proof.
  intros Hclosed Hw. unfold deserialize. rewrite unpair_app; [done..|].
  destruct w; [done|]. simpl. lia.
Qed.

Lemma serialize_wire_closed fuel h v o w :
  serialize fuel h v o = Ok w → wire_closed w.
Proof.
  intros (i & st & Hrun & <-)%serialize_Ok.
  by destruct (pair_in_range _ _ _ _ _ _ _ _ sstate_ok_empty Hrun) as ([_ Hw] & _).
Qed.

Lemma deserialize_unreached_witness :
  deserialize 3 (wire_xy ++ [(TNum ARRAY, PaySlots [99]); (TNum 42, PayNone)])
  = Ok (VRef 0, heap_xy).
Proof.
  rewrite (deserialize_unreached 3 wire_xy).
  - exact deserialize_xy.
  - exact (serialize_wire_closed _ _ _ _ _ serialize_xy).
  - discriminate.
Defined.

(** ** What the deserializer throws *)

Lemma env_new_str_Fail name p f : env_new (TStr name) p = Fail f → f = Stuck.
Proof. simpl. repeat case_match; congruence. Qed.

Section decoder_throws.
Context (w : list record).

(** The slot [i] is past the end and is slot 0 or named by a payload. *)
Definition dangling (i : nat) : Prop :=
  length w ≤ i ∧ (i = 0 ∨ ∃ j r, w !! j = Some r ∧ i ∈ payload_slots r.2).

(** A record whose tag is a number that is no type constant. *)
Definition unknown_tag : Prop :=
  ∃ j z p, w !! j = Some (TNum z, p) ∧ (z < VOID ∨ BIGINT < z)%Z.

Definition throws_from (i : nat) (e : exn) : Prop :=
  (∃ i', e = NoSuchRecord i' ∧ length w ≤ i' ∧
         (i' = i ∨ ∃ j r, w !! j = Some r ∧ i' ∈ payload_slots r.2)) ∨
  (e = NotAConstructor ∧ unknown_tag).

Lemma unpair_each_throw rec push a slots st e :
  unpair_each rec push a slots st = Fail (Throw e) →
  ∃ j st', j ∈ slots ∧ rec j st' = Fail (Throw e).
Proof.
  revert st. induction slots as [|i slots IH]; intros st; simpl; [done|].
  destruct (rec i st) as [[v st1]|f] eqn:Hi.
  - destruct (update a (push v) st1) as [st2|f] eqn:Hup.
    + intros (j & st' & Hj & Hrun)%IH. exists j, st'. split; [|done].
      apply elem_of_cons. by right.
    + intros [= ->]. unfold update in Hup. by repeat case_match.
  - intros [= ->]. exists i, st. split; [|done]. apply elem_of_cons. by left.
Qed.

Lemma unpair_entries_throw rec put a (pairs : list (nat * nat)) st e :
  unpair_entries rec put a pairs st = Fail (Throw e) →
  ∃ j st', j ∈ pairs.*1 ++ pairs.*2 ∧ rec j st' = Fail (Throw e).
Proof.
  revert st. induction pairs as [|[ki vi] pairs IH]; intros st; simpl; [done|].
  destruct (rec ki st) as [[k st1]|f] eqn:Hk.
  - destruct (rec vi st1) as [[v st2]|f] eqn:Hv.
    + destruct (update a (put k v) st2) as [st3|f] eqn:Hup.
      * intros (j & st' & Hj & Hrun)%IH. exists j, st'. split; [|done].
        apply elem_of_app in Hj as [Hj|Hj].
        -- apply elem_of_cons. right. apply elem_of_app. by left.
        -- apply elem_of_cons. right. apply elem_of_app. right.
           apply elem_of_cons. by right.
      * intros [= ->]. unfold update in Hup. by repeat case_match.
    + intros [= ->]. exists vi, st1. split; [|done].
      apply elem_of_cons. right. apply elem_of_app. right.
      apply elem_of_cons. by left.
  - intros [= ->]. exists ki, st. split; [|done]. apply elem_of_cons. by left.
Qed.

Lemma unpair_throw fuel i st e :
  unpair w fuel i st = Fail (Throw e) → throws_from i e.
Proof.
  revert i st. induction fuel as [|fuel IH]; intros i st; [done|].
  simpl. destruct (jsmap_get (ds_map st) (KIndex i)); [done|].
  destruct (w !! i) as [[type value]|] eqn:Hrec.
  2: { intros [= <-]. left. exists i. split; [done|].
       split; [by apply lookup_ge_None|]. by left. }
  assert (Hup : ∀ j, j ∈ payload_slots value → throws_from j e → throws_from i e).
  { intros j Hj [(i' & -> & Hlen & Hi')|Hun]; [|by right].
    left. exists i'. split; [done|]. split; [done|]. right.
    destruct Hi' as [->|Hi']; [|done]. by exists i, (type, value). }
  assert (Heach : ∀ push a slots st0,
    value = PaySlots slots →
    unpair_each (unpair w fuel) push a slots st0 = Fail (Throw e) →
    throws_from i e).
  { intros push a slots st0 -> (j & st' & Hj & Hrun)%unpair_each_throw.
    apply (Hup j); [done|]. by eapply IH. }
  assert (Hentries : ∀ put a pairs st0,
    value = PayPairs pairs →
    unpair_entries (unpair w fuel) put a pairs st0 = Fail (Throw e) →
    throws_from i e).
  { intros put a pairs st0 -> (j & st' & Hj & Hrun)%unpair_entries_throw.
    apply (Hup j); [done|]. by eapply IH. }
  repeat case_bool_decide; simpl;
    try (destruct value; simpl; try done; repeat case_match; done).
  - destruct value; try done.
    destruct unpair_each eqn:Hloop; [done|]. intros [= ->]. by eapply Heach.
  - destruct value; try done.
    destruct unpair_entries eqn:Hloop; [done|]. intros [= ->]. by eapply Hentries.
  - destruct value; try done.
    destruct unpair_entries eqn:Hloop; [done|]. intros [= ->]. by eapply Hentries.
  - destruct value; try done.
    destruct unpair_each eqn:Hloop; [done|]. intros [= ->]. by eapply Heach.
  - destruct value; try done. unfold env_error.
    by case_bool_decide.
  - destruct value as [|[]| | | | |]; try done.
    by destruct (BigInt_of_string s).
  - destruct value as [|[]| | | | |]; try done.
    by destruct (BigInt_of_string s).
  - destruct type as [z|name].
    + simpl. intros [= <-]. right. split; [done|]. exists i, z, value.
      split; [done|].
      assert (z ≠ PRIMITIVE ∧ z ≠ VOID ∧ z ≠ ARRAY ∧ z ≠ OBJECT ∧ z ≠ DATE ∧
              z ≠ REGEXP ∧ z ≠ MAP ∧ z ≠ SET ∧ z ≠ ERROR ∧ z ≠ BIGINT)
        as Hz by (repeat split; congruence).
      unfold PRIMITIVE, VOID, ARRAY, OBJECT, DATE, REGEXP, MAP, SET, ERROR,
        BIGINT in *. lia.
    + destruct (env_new (TStr name) value) as [o|f] eqn:Hnew; [done|].
      intros [= ->]. by apply env_new_str_Fail in Hnew.
Qed.

(** *** Records that the constructors take as they are

    What [unpair] hands to a constructor is taken here to be what the
    serializer writes for an object of that class: then the constructor
    neither throws nor converts.  [new RegExp] throws on a source or flags
    that are no regular expression, which is not modelled, so a REGEXP
    record is left out; the elements of a typed array are numbers, or big
    integers for the two arrays of those; the bytes of a buffer are
    numbers; an error is named by a native class, a big integer by its
    decimal text, and a property by the record of a string other than
    [__proto__] (when its slot is in the sequence at all).  A tag that is a
    number and no type constant takes any payload: [unpair] finds no
    constructor for it. *)
Definition is_number (p : prim) : Prop :=
  match p with PNumber _ => True | _ => False end.

Definition element_of (k : typed_kind) (p : prim) : Prop :=
  match k with
  | BigInt64Array | BigUint64Array =>
      match p with PBigInt _ => True | _ => False end
  | _ => is_number p
  end.

Definition record_shaped (rec : record) : Prop :=
  let '(type, value) := rec in
  if bool_decide (type = TNum PRIMITIVE) || bool_decide (type = TNum VOID) then
    match value with PayLit _ | PayNone => True | _ => False end
  else if bool_decide (type = TNum ARRAY) then
    match value with PaySlots _ => True | _ => False end
  else if bool_decide (type = TNum OBJECT) then
    match value with
    | PayPairs pairs => Forall (λ p, p.1 < length w → str_slot w p.1) pairs
    | _ => False
    end
  else if bool_decide (type = TNum DATE) then
    match value with PayLit (PString _) => True | _ => False end
  else if bool_decide (type = TNum REGEXP) then False
  else if bool_decide (type = TNum MAP) then
    match value with PayPairs _ => True | _ => False end
  else if bool_decide (type = TNum SET) then
    match value with PaySlots _ => True | _ => False end
  else if bool_decide (type = TNum ERROR) then
    match value with
    | PayError name _ => name ∈ native_errors
    | _ => False
    end
  else if bool_decide (type = TNum BIGINT) then
    match value with
    | PayLit (PString s) => is_Some (BigInt_of_string s)
    | _ => False
    end
  else if bool_decide (type = TStr "BigInt") then
    match value with
    | PayLit (PString s) => is_Some (BigInt_of_string s)
    | _ => False
    end
  else if bool_decide (type = TStr "ArrayBuffer") then
    match value with PayElems bytes => Forall is_number bytes | _ => False end
  else if bool_decide (type = TStr "DataView") then
    match value with PayElems bytes => Forall is_number bytes | _ => False end
  else
    match type with
    | TNum _ => True
    | TStr _ =>
        match env_new type value with
        | Ok (OTyped k elems) => Forall (element_of k) elems
        | Ok _ => True
        | Fail _ => False
        end
    end.

Definition shaped : Prop := ∀ i rec, w !! i = Some rec → record_shaped rec.

(** The slots that hold a value are slots of the sequence. *)
Definition registered (st : dstate) : Prop :=
  ∀ i r, dget st i = Some r → i < length w.

Lemma registered_step st st' :
  registered st → dec_step w st st' → registered st'.
Proof.
  intros Hreg Hs i r Hi. destruct (dget st i) as [r0|] eqn:H0.
  - by eapply Hreg.
  - destruct (dstep_new _ _ _ Hs _ _ Hi H0) as (_ & rec & Hrec & _).
    by eapply lookup_lt_Some.
Qed.

Lemma registered_set i r st rec :
  registered st → w !! i = Some rec → registered (set_key (KIndex i) r st).
Proof.
  intros Hreg Hrec j r'. rewrite dget_set_index. case_decide as Hij.
  - subst j. intros _. by eapply lookup_lt_Some.
  - apply Hreg.
Qed.

Lemma registered_new o i st rec :
  registered st → w !! i = Some rec → registered (as_new o (KIndex i) st).2.
Proof.
  intros Hreg Hrec j r'. simpl. rewrite dget_set_index. case_decide as Hij.
  - subst j. intros _. by eapply lookup_lt_Some.
  - apply Hreg.
Qed.

(** With fuel for the slots that hold no value yet, a call returns or
    throws. *)
Definition dends (n : nat) (rec : nat → dstate → result (value * dstate))
  : Prop :=
  ∀ i st, dec_inv w st → registered st → pending_d w st < n →
    match rec i st with
    | Ok _ => True
    | Fail f => ∃ e, f = Throw e
    end.

Lemma unpair_each_ends n rec push (good : obj → Prop) a slots :
  drec_ok w rec → dends n rec →
  (∀ v o, good o → ∃ o', push v o = Some o' ∧ good o') →
  ∀ st o0, dec_inv w st → registered st →
  ds_heap st !! a = Some o0 → good o0 → pending_d w st < n →
  match unpair_each rec push a slots st with
  | Ok _ => True
  | Fail f => ∃ e, f = Throw e
  end.
Proof.
  intros Hok Htot Hpush.
  induction slots as [|i slots IH]; intros st o0 Hi Hreg Ha Hg Hp; simpl; [done|].
  pose proof (Htot i st Hi Hreg Hp) as Hrun.
  destruct (rec i st) as [[r st1]|f] eqn:Hrec; [|done].
  destruct (Hok _ _ _ _ Hi Hrec) as (Hs & Hf & _ & _).
  assert (Hlt : a < length (ds_heap st)) by by eapply lookup_lt_Some.
  destruct (Hpush r o0 Hg) as (o1 & Ho1 & Hg1).
  unfold update. rewrite Hf, Ha, Ho1 by done.
  pose proof (dstep_len _ _ _ Hs) as Hlen.
  apply (IH {| ds_map := ds_map st1; ds_heap := <[a:=o1]> (ds_heap st1) |} o1).
  - apply dec_inv_heap; [apply Hs|]. by rewrite length_insert.
  - exact (registered_step st st1 Hreg Hs).
  - simpl. apply list_lookup_insert_eq. lia.
  - done.
  - pose proof (pending_d_mono w st st1 (dstep_mono _ _ _ Hs)).
    unfold pending_d, dget in *. simpl. lia.
Qed.

Lemma unpair_entries_ends n rec put (good : obj → Prop)
    (kslot : nat → Prop) (keyok : value → Prop) a pairs :
  drec_ok w rec → dends n rec →
  (∀ k v o, keyok k → good o → is_Some (put k v o)) →
  (∀ k v o o', good o → put k v o = Some o' → good o') →
  (∀ i st m r, kslot i → dec_inv w st → dec w st m i r → keyok r) →
  Forall (λ p, p.1 < length w → kslot p.1) pairs →
  ∀ st o0, dec_inv w st → registered st →
  ds_heap st !! a = Some o0 → good o0 → pending_d w st < n →
  match unpair_entries rec put a pairs st with
  | Ok _ => True
  | Fail f => ∃ e, f = Throw e
  end.
Proof.
  intros Hok Htot Hput Hpres Hkey HF.
  induction HF as [|[ki vi] pairs Hks HF IH]; intros st o0 Hi Hreg Ha Hg Hp;
    simpl; [done|].
  pose proof (Htot ki st Hi Hreg Hp) as Hrunk.
  destruct (rec ki st) as [[rk st0]|f] eqn:Hreck; [|done].
  destruct (Hok _ _ _ _ Hi Hreck) as (Hs0 & Hf0 & Hdk & _).
  pose proof (registered_step _ _ Hreg Hs0) as Hreg0.
  pose proof (pending_d_mono w st st0 (dstep_mono _ _ _ Hs0)) as Hp0.
  pose proof (Htot vi st0 (dstep_inv _ _ _ Hs0) Hreg0 ltac:(lia)) as Hrunv.
  destruct (rec vi st0) as [[rv st1]|f] eqn:Hrecv; [|done].
  destruct (Hok _ _ _ _ (dstep_inv _ _ _ Hs0) Hrecv) as (Hs1 & Hf1 & _ & _).
  assert (Hlt : a < length (ds_heap st)) by by eapply lookup_lt_Some.
  pose proof (dstep_len _ _ _ Hs0) as Hlen0.
  pose proof (dstep_len _ _ _ Hs1) as Hlen1.
  assert (Ha1 : ds_heap st1 !! a = Some o0).
  { rewrite Hf1, Hf0 by lia. done. }
  assert (Hki : ki < length w).
  { destruct Hdk as [Hd|(rec' & b & Hrec' & _)];
      [by eapply Hreg0|by eapply lookup_lt_Some]. }
  pose proof (Hkey _ _ _ _ (Hks Hki) (dstep_inv _ _ _ Hs0) Hdk) as Hrk.
  destruct (Hput rk rv o0 Hrk Hg) as (o1 & Ho1).
  unfold update. rewrite Ha1, Ho1.
  apply (IH {| ds_map := ds_map st1; ds_heap := <[a:=o1]> (ds_heap st1) |} o1).
  - apply dec_inv_heap; [apply Hs1|]. by rewrite length_insert.
  - exact (registered_step st0 st1 Hreg0 Hs1).
  - simpl. apply list_lookup_insert_eq. lia.
  - by eapply Hpres.
  - pose proof (pending_d_mono w st0 st1 (dstep_mono _ _ _ Hs1)).
    unfold pending_d, dget in *. simpl. lia.
Qed.

Context (Hshape : shaped).

Theorem unpair_ends fuel : dends fuel (unpair w fuel).
Proof.
  induction fuel as [|fuel IH]; intros i st Hi Hreg Hp; [lia|].
  simpl. fold (dget st i).
  destruct (dget st i) as [r0|] eqn:Hget; [done|].
  destruct (w !! i) as [[type value]|] eqn:Hrec; [|by eauto].
  pose proof (Hshape _ _ Hrec) as Hsh.
  assert (Hp1 : ∀ o, pending_d w (as_new o (KIndex i) st).2 < fuel).
  { intros o. pose proof (pending_d_new w o i st _ Hrec Hget). lia. }
  assert (Hi1 : ∀ o, no_str (type, value) → dec_inv w (as_new o (KIndex i) st).2).
  { intros o Hns. by eapply dec_inv_new. }
  assert (Hreg1 : ∀ o, registered (as_new o (KIndex i) st).2).
  { intros o. by eapply registered_new. }
  assert (Hhere : ∀ o, ds_heap (as_new o (KIndex i) st).2 !! length (ds_heap st)
                       = Some o).
  { intros o. simpl. by apply list_lookup_middle. }
  revert Hsh. unfold record_shaped.
  case_bool_decide as Ht; [subst type; simpl|].
  { by destruct value. }
  case_bool_decide as Ht0; [subst type; simpl|].
  { by destruct value. }
  simpl.
  case_bool_decide as Ht1; [subst type; simpl|].
  { destruct value; try done. intros _.
    pose proof (unpair_each_ends fuel _ array_push
      (λ o, ∃ l, o = OArray l) (length (ds_heap st)) slots
      (unpair_spec w fuel) IH) as Hloop.
    ospecialize* (Hloop _ _ (OArray []) (Hi1 _ _) (Hreg1 _) (Hhere _) _ (Hp1 _)).
    { intros v o [l ->]. simpl. eauto. }
    { by intros s. }
    { eauto. }
    by destruct unpair_each. }
  case_bool_decide as Ht2; [subst type; simpl|].
  { destruct value; try done. intros HF.
    pose proof (unpair_entries_ends fuel _ object_put
      (λ o, ∃ l t, o = OObject l t) (str_slot w)
      (λ k, ∃ s, s ≠ "__proto__" ∧ k = VPrim (PString s))
      (length (ds_heap st)) pairs (unpair_spec w fuel) IH) as Hloop.
    ospecialize* (Hloop _ _ (str_slot_dec w) HF _ (OObject [] None)
                    (Hi1 _ _) (Hreg1 _) (Hhere _) _ (Hp1 _)).
    { intros k v o (s & Hne & ->) (l & t & ->). simpl. unfold assign.
      apply String.eqb_neq in Hne as ->. simpl. eauto. }
    { intros k v o o' (l & t & ->). destruct k as [[]|]; simpl; try done.
      destruct (assign _ _ _); simpl; [|done]. intros [= <-]. eauto. }
    { by intros s. }
    { eauto. }
    by destruct unpair_entries. }
  case_bool_decide as Ht3; [subst type; simpl|].
  { by destruct value as [|[]| | | | |]. }
  case_bool_decide as Ht4; [subst type; simpl|].
  { done. }
  case_bool_decide as Ht5; [subst type; simpl|].
  { destruct value; try done. intros _.
    pose proof (unpair_entries_ends fuel _ map_put
      (λ o, ∃ l, o = OMap l) (λ _, True) (λ _, True)
      (length (ds_heap st)) pairs (unpair_spec w fuel) IH) as Hloop.
    ospecialize* (Hloop _ _ _ _ _ (OMap []) (Hi1 _ _) (Hreg1 _) (Hhere _) _ (Hp1 _)).
    { intros k v o _ [l ->]. simpl. eauto. }
    { intros k v o o' [l ->]. simpl. intros [= <-]. eauto. }
    { done. }
    { by apply Forall_true. }
    { by intros s. }
    { eauto. }
    by destruct unpair_entries. }
  case_bool_decide as Ht6; [subst type; simpl|].
  { destruct value; try done. intros _.
    pose proof (unpair_each_ends fuel _ set_add
      (λ o, ∃ l, o = OSet l) (length (ds_heap st)) slots
      (unpair_spec w fuel) IH) as Hloop.
    ospecialize* (Hloop _ _ (OSet []) (Hi1 _ _) (Hreg1 _) (Hhere _) _ (Hp1 _)).
    { intros v o [l ->]. simpl. eauto. }
    { by intros s. }
    { eauto. }
    by destruct unpair_each. }
  case_bool_decide as Ht7; [subst type; simpl|].
  { destruct value; try done. intros Hname.
    unfold env_error. by rewrite bool_decide_true. }
  case_bool_decide as Ht8; [subst type; simpl|].
  { destruct value as [|[]| | | | |]; try done. by intros [z ->]. }
  case_bool_decide as Ht9; [subst type; simpl|].
  { destruct value as [|[]| | | | |]; try done. by intros [z ->]. }
  case_bool_decide as Ht10; [subst type; simpl|].
  { by destruct value. }
  case_bool_decide as Ht11; [subst type; simpl|].
  { by destruct value. }
  destruct type as [z|name]; [intros _; simpl; eauto|].
  by destruct (env_new (TStr name) value).
Qed.
End decoder_throws.

Lemma deserialize_ends fuel w :
  shaped w → length w < fuel →
  match deserialize fuel w with
  | Ok _ => True
  | Fail f => ∃ e, f = Throw e ∧ throws_from w 0 e
  end.
Proof.
  intros Hshape Hfuel. unfold deserialize. fold ds_empty.
  pose proof (unpair_ends w Hshape fuel 0 ds_empty (dec_inv_empty w)) as Hend.
  ospecialize* Hend.
  { by intros i r. }
  { pose proof (pending_d_empty w). lia. }
  destruct (unpair w fuel 0 ds_empty) as [[r ds]|f] eqn:Hrun; [done|].
  destruct Hend as [e ->]. exists e. split; [done|]. by eapply unpair_throw.
Qed.

(** On a sequence of records that the constructors take as they are,
    whatever the slots they name, [deserialize] with more fuel than the
    sequence has records returns or throws, and throws in two cases only:
    a slot past the end of the sequence is asked for (slot 0 of the empty
    sequence, or a slot that a payload names), or the tag of a record is a
    number that is no type constant.  A non-empty sequence that refers to
    its own slots only never makes it throw for a missing record. *)
Theorem deserialize_throws fuel w f :
  shaped w → length w < fuel →
  deserialize fuel w = Fail f →
  ∃ e, f = Throw e ∧
    ((∃ i, e = NoSuchRecord i ∧ dangling w i) ∨
     (e = NotAConstructor ∧ unknown_tag w)) ∧
    (wire_closed w → w ≠ [] → e = NotAConstructor).
Proof.
  intros Hshape Hfuel Hrun.
  pose proof (deserialize_ends fuel w Hshape Hfuel) as Hend.
  rewrite Hrun in Hend. destruct Hend as (e & -> & Hfrom).
  exists e. split; [done|].
  assert (Hcases : (∃ i, e = NoSuchRecord i ∧ dangling w i) ∨
                   (e = NotAConstructor ∧ unknown_tag w)).
  { destruct Hfrom as [(i & -> & Hlen & Hi)|Hun]; [left|by right].
    exists i. split; [done|]. split; [done|]. destruct Hi as [->|Hi]; eauto. }
  split; [done|]. intros Hclosed Hw.
  destruct Hcases as [(i & -> & Hlen & [->|(j & r & Hr & Hi)])|[-> _]]; [..|done].
  - destruct w; [done|]. simpl in Hlen. lia.
  - pose proof (proj1 (Forall_forall _ _) (Hclosed _ _ Hr) i Hi) as Hlt.
    simpl in Hlt. lia.
Qed.

Lemma deserialize_throws_witness :
  deserialize 2 [(TNum ARRAY, PaySlots [0; 5])] = Fail (Throw (NoSuchRecord 5)) ∧
  dangling [(TNum ARRAY, PaySlots [0; 5])] 5.
Proof.
  assert (Hrun : deserialize 2 [(TNum ARRAY, PaySlots [0; 5])]
                 = Fail (Throw (NoSuchRecord 5))) by reflexivity.
  split; [exact Hrun|].
  destruct (deserialize_throws 2 [(TNum ARRAY, PaySlots [0; 5])]
              (Throw (NoSuchRecord 5)))
    as (e & He & [(i & Hi' & Hi)|[Hc _]] & _).
  - intros [|i] rec; simpl; [|done]. by intros [= <-].
  - simpl. lia.
  - exact Hrun.
  - injection He as <-. injection Hi' as <-. exact Hi.
  - injection He as <-. discriminate Hc.
Defined.

(** ** Sequences the deserializer rebuilds *)

(** [m = new Map; m.set("me", m)], written by hand. *)
Definition wire_self_map : list record :=
  [(TNum MAP, PayPairs [(1, 0)]); (TNum PRIMITIVE, PayLit (PString "me"))].

(** On a non-empty sequence, cyclic or not and whoever wrote it, of records
    that the constructors take as they are, that name slots of the sequence
    only and are tagged by type constants and class names, [deserialize]
    returns a value as soon as it has more fuel than the sequence has
    records. *)
Theorem deserialize_accepts fuel w :
  shaped w → wire_closed w → ¬ unknown_tag w → w ≠ [] → length w < fuel →
  ∃ r t, deserialize fuel w = Ok (r, t).
Proof.
  intros Hshape Hclosed Hknown Hw Hfuel.
  pose proof (deserialize_ends fuel w Hshape Hfuel) as Hend.
  destruct (deserialize fuel w) as [[r t]|f]; [eauto|].
  destruct Hend as (e & -> & [(i & -> & Hlen & [->|(j & rec & Hr & Hi)])|[_ Hun]]).
  - destruct w; [done|]. simpl in Hlen. lia.
  - pose proof (proj1 (Forall_forall _ _) (Hclosed _ _ Hr) i Hi) as Hlt.
    simpl in Hlt. lia.
  - done.
Qed.

Lemma deserialize_accepts_witness :
  ∃ r t, deserialize 3 wire_self_map = Ok (r, t).
Proof.
  apply deserialize_accepts.
  - intros [|[|i]] rec; simpl; intros [= <-]; done.
  - intros [|[|i]] rec; simpl; intros [= <-]; simpl; repeat constructor.
  - intros (j & z & p & Hj & Hz). destruct j as [|[|j]]; simpl in Hj;
      simplify_eq; unfold VOID, BIGINT, MAP, PRIMITIVE in *; lia.
  - discriminate.
  - simpl. lia.
Defined.

Example deserialize_self_map :
  deserialize 3 wire_self_map
  = Ok (VRef 0, [OMap [(VPrim (PString "me"), VRef 0)]]).
Proof. reflexivity. Qed.

(** ** Cells the deserializer allocates *)

Lemma jsmap_get_None_keys {K V} `{EqDecision K} (m : list (K * V)) k :
  jsmap_get m k = None → k ∉ m.*1.
Proof.
  induction m as [|[k' v] m IH]; simpl; [by intros _ ?%elem_of_nil|].
  case_decide; [done|]. intros Hm [->|Hin]%elem_of_cons; [done|]. by apply IH.
Qed.

Section allocation.
Context (w : list record).
Context (Hnb : ∀ i name p, w !! i = Some (TStr name, p) →
                 name ≠ "ArrayBuffer" ∧ name ≠ "DataView").

(** Every key of the map is the number of a record, each once, and there
    are no more cells than keys. *)
Definition tidy (st : dstate) : Prop :=
  NoDup (ds_map st).*1 ∧
  (∀ k, k ∈ (ds_map st).*1 → ∃ i, k = KIndex i ∧ i < length w) ∧
  length (ds_heap st) ≤ length (ds_map st).

Lemma tidy_set i r st :
  tidy st → dget st i = None → i < length w →
  tidy (set_key (KIndex i) r st).
Proof.
  intros (Hnd & Hk & Hlen) Hi Hlt. unfold tidy, set_key. simpl.
  rewrite jsmap_set_fresh by done. rewrite fmap_app, length_app. simpl.
  split; [|split].
  - apply NoDup_app. split; [done|]. split; [|apply NoDup_singleton].
    intros k Hin ->%list_elem_of_singleton.
    by apply (jsmap_get_None_keys _ _ Hi).
  - intros k [Hin| ->%list_elem_of_singleton]%elem_of_app; eauto.
  - lia.
Qed.

Lemma tidy_new o i st :
  tidy st → dget st i = None → i < length w →
  tidy (as_new o (KIndex i) st).2.
Proof.
  intros (Hnd & Hk & Hlen) Hi Hlt. unfold tidy. simpl.
  rewrite jsmap_set_fresh by done. rewrite fmap_app, !length_app. simpl.
  split; [|split].
  - apply NoDup_app. split; [done|]. split; [|apply NoDup_singleton].
    intros k Hin ->%list_elem_of_singleton.
    by apply (jsmap_get_None_keys _ _ Hi).
  - intros k [Hin| ->%list_elem_of_singleton]%elem_of_app; eauto.
  - lia.
Qed.

Lemma tidy_update a f st st' : tidy st → update a f st = Ok st' → tidy st'.
Proof.
  intros Ht (o & o' & _ & _ & ->)%update_inv. unfold tidy in *. simpl.
  by rewrite length_insert.
Qed.

Definition rec_tidy (rec : nat → dstate → result (value * dstate)) : Prop :=
  ∀ i st r st', tidy st → rec i st = Ok (r, st') → tidy st'.

Lemma unpair_each_tidy rec push a slots :
  rec_tidy rec →
  ∀ st st', tidy st → unpair_each rec push a slots st = Ok st' → tidy st'.
Proof.
  intros Hrec. induction slots as [|i slots IH]; intros st st' Ht; simpl.
  - by intros [= <-].
  - destruct (rec i st) as [[v st1]|] eqn:Hi; [|done].
    destruct (update a (push v) st1) as [st2|] eqn:Hup; [|done].
    apply IH. eapply tidy_update; [|done]. by eapply Hrec.
Qed.

Lemma unpair_entries_tidy rec put a (pairs : list (nat * nat)) :
  rec_tidy rec →
  ∀ st st', tidy st → unpair_entries rec put a pairs st = Ok st' → tidy st'.
Proof.
  intros Hrec. induction pairs as [|[ki vi] pairs IH]; intros st st' Ht; simpl.
  - by intros [= <-].
  - destruct (rec ki st) as [[k st1]|] eqn:Hk; [|done].
    destruct (rec vi st1) as [[v st2]|] eqn:Hv; [|done].
    destruct (update a (put k v) st2) as [st3|] eqn:Hup; [|done].
    apply IH. eapply tidy_update; [|done]. eapply Hrec; [|done]. by eapply Hrec.
Qed.

Lemma unpair_tidy fuel : rec_tidy (unpair w fuel).
Proof.
  induction fuel as [|fuel IH]; intros i st r st' Ht; [done|].
  simpl. fold (dget st i).
  destruct (dget st i) as [r0|] eqn:Hget; [by intros [= <- <-]|].
  destruct (w !! i) as [[type value]|] eqn:Hrec; [|done].
  assert (Hlt : i < length w) by by eapply lookup_lt_Some.
  assert (Hnew : ∀ o, tidy (as_new o (KIndex i) st).2)
    by (intros o; by apply tidy_new).
  assert (Hset : ∀ r, tidy (set_key (KIndex i) r st))
    by (intros r1; by apply tidy_set).
  repeat case_bool_decide; simpl;
    try (destruct value; simpl; try done; repeat case_match; try done;
         intros [= <- <-]; first [apply Hset|apply (Hnew _)]).
  - destruct value; try done.
    destruct unpair_each eqn:Hloop; [|done]. intros [= <- <-].
    eapply unpair_each_tidy; [exact IH| |exact Hloop]. apply (Hnew (OArray [])).
  - destruct value; try done.
    destruct unpair_entries eqn:Hloop; [|done]. intros [= <- <-].
    eapply unpair_entries_tidy; [exact IH| |exact Hloop].
    apply (Hnew (OObject [] None)).
  - destruct value; try done.
    destruct unpair_entries eqn:Hloop; [|done]. intros [= <- <-].
    eapply unpair_entries_tidy; [exact IH| |exact Hloop]. apply (Hnew (OMap [])).
  - destruct value; try done.
    destruct unpair_each eqn:Hloop; [|done]. intros [= <- <-].
    eapply unpair_each_tidy; [exact IH| |exact Hloop]. apply (Hnew (OSet [])).
  - subst type. by destruct (Hnb _ _ _ Hrec).
  - subst type. by destruct (Hnb _ _ _ Hrec).
Qed.

Lemma tidy_bound st : tidy st → length (ds_heap st) ≤ length w.
Proof.
  intros (Hnd & Hk & Hlen).
  set (num := λ k : dkey, match k with KIndex i | KPayload i => i end).
  assert (Hsub : num <$> (ds_map st).*1 ⊆+ seq 0 (length w)).
  { apply NoDup_submseteq.
    - apply NoDup_fmap_2_strong; [|done].
      intros k k' (i & -> & _)%Hk (i' & -> & _)%Hk. simpl. by intros ->.
    - intros n (k & -> & (i & -> & Hi)%Hk)%list_elem_of_fmap. simpl.
      apply elem_of_seq. lia. }
  apply submseteq_length in Hsub.
  rewrite !length_fmap, length_seq in Hsub. lia.
Qed.
End allocation.

(** Five references to one buffer: [b = new ArrayBuffer(1); [b, b, b, b, b]]
    is a sequence of two records, rebuilt in six cells. *)
Example allocation_of_buffers :
  deserialize 2 [(TNum ARRAY, PaySlots [1; 1; 1; 1; 1]);
                 (TStr "ArrayBuffer", PayElems [PNumber (Int 7)])]
  = Ok (VRef 0,
        [OArray [VRef 1; VRef 2; VRef 3; VRef 4; VRef 5];
         OArrayBuffer [PNumber (Int 7)]; OArrayBuffer [PNumber (Int 7)];
         OArrayBuffer [PNumber (Int 7)]; OArrayBuffer [PNumber (Int 7)];
         OArrayBuffer [PNumber (Int 7)]]).
Proof. by vm_compute. Qed.

(** Whatever the sequence, if it has no ["ArrayBuffer"] and no ["DataView"]
    record then [deserialize] builds at most one object per record, however
    often a slot is referred to. *)
Theorem deserialize_allocation fuel w r t :
  (∀ i name p, w !! i = Some (TStr name, p) →
     name ≠ "ArrayBuffer" ∧ name ≠ "DataView") →
  deserialize fuel w = Ok (r, t) → length t ≤ length w.
Proof.
  intros Hnb (ds & Hrun & <-)%deserialize_Ok.
  apply tidy_bound. eapply (unpair_tidy w Hnb); [|exact Hrun].
  unfold tidy. simpl. split; [constructor|]. split; [|done].
  by intros k ?%elem_of_nil.
Qed.

Lemma deserialize_allocation_witness :
  deserialize 3 wire_xy = Ok (VRef 0, heap_xy) ∧ length heap_xy ≤ length wire_xy.
Proof.
  split; [exact deserialize_xy|].
  apply (deserialize_allocation 3 wire_xy (VRef 0) heap_xy); [|exact deserialize_xy].
  intros i name p Hi. do 7 (destruct i as [|i]; [discriminate Hi|]).
  discriminate Hi.
Defined.

(** ** Primitives are written once *)

(** Two records of primitives that denote the same value, zeros of either
    sign being the same. *)
Definition same_primitive (r r' : record) : Prop :=
  match r, r' with
  | (TNum t, PayLit p), (TNum t', PayLit q) =>
      t = t' ∧ (t = PRIMITIVE ∨ t = BIGINT) ∧ canon (VPrim p) = canon (VPrim q)
  | (TNum t, PayNone), (TNum t', PayNone) => t = VOID ∧ t' = VOID
  | _, _ => False
  end.

Lemma bigint_toString_inj z z' :
  bigint_toString z = bigint_toString z' → z = z'.
Proof.
  intros Heq. pose proof (BigInt_of_toString z) as Hz.
  rewrite Heq, BigInt_of_toString in Hz. congruence.
Qed.

(** The key of the identity map whose slot holds the record of a
    primitive. *)
Lemma describes_primitive h strict st k k' r r' :
  describes h strict st k r → describes h strict st k' r' →
  same_primitive r r' →
  strict = true ∨ r.2 ≠ PayLit PNull →
  k = k'.
Proof.
  intros Hd Hd' Hsame Hnull.
  assert (Hobj : ∀ l (r0 r1 : record), (∃ o, h !! l = Some o ∧ describes_obj h strict st o r0) →
    same_primitive r0 r1 ∨ same_primitive r1 r0 → False).
  { intros l r0 r1 (o & _ & Ho) Hs.
    destruct o; simpl in Ho;
      try (destruct Ho as (x & -> & _)); try (destruct Ho as (x & _ & ->));
      subst; destruct r1 as [[] []]; simpl in Hs;
      destruct Hs as [Hs|Hs]; try done;
      destruct Hs as (? & [?|?] & _); simplify_eq. }
  destruct k as [p|l]; [|exfalso; eapply Hobj; eauto].
  destruct k' as [p'|l']; [|exfalso; eapply Hobj; eauto].
  destruct r as [[t|s] [|q| | | | |]], r' as [[t'|s'] [|q'| | | | |]];
    simpl in Hsame; try done.
  - destruct Hsame as [-> ->].
    destruct p as [| | |[]| | | |]; simpl in Hd;
      try (destruct Hd as (? & [=] & _)); try (by destruct Hd); try done;
    destruct p' as [| | |[]| | | |]; simpl in Hd';
      try (destruct Hd' as (? & [=] & _)); try (by destruct Hd'); done.
  - destruct Hsame as (<- & Ht & Hc).
    assert (Hlit : ∀ p0 q1,
      describes h strict st (VPrim p0) (TNum t, PayLit q1) →
      (strict = true ∨ q1 ≠ PNull) →
      (t = PRIMITIVE ∧ VPrim p0 = canon (VPrim q1)) ∨
      (t = BIGINT ∧ ∃ z, p0 = PBigInt z ∧ q1 = PString (bigint_toString z))).
    { intros p0 q1 Hdesc Hn.
      destruct p0 as [| | |n| | | |]; simpl in Hdesc;
        try (destruct Hdesc as (q0 & [= -> <-] & Hq); left;
             split; [done|symmetry; exact Hq]);
        try done.
      - injection Hdesc as -> ->. right. eauto.
      - destruct Hdesc as [-> [= -> ->]]. destruct Hn; [done|congruence].
      - destruct Hdesc as [-> [= -> ->]]. destruct Hn; [done|congruence]. }
    assert (Hn0 : strict = true ∨ q ≠ PNull).
    { destruct Hnull as [?|Hn]; [by left|]. right. simpl in Hn. congruence. }
    assert (Hn' : strict = true ∨ q' ≠ PNull).
    { destruct Hn0 as [?|Hn]; [by left|]. right.
      intros ->. apply Hn.
      destruct q as [| | |[]| | | |]; simpl in Hc; congruence. }
    destruct (Hlit _ _ Hd Hn0) as [[-> Hp]|(-> & z & -> & ->)];
      destruct (Hlit _ _ Hd' Hn') as [[Ht' Hp']|(Ht' & z' & -> & ->)];
      try done.
    + etrans; [exact Hp|]. etrans; [exact Hc|]. symmetry. exact Hp'.
    + simpl in Hc. injection Hc as Hz%bigint_toString_inj. by subst.
Qed.

(** In the sequence that [serialize] returns without [json], a primitive
    value has one record, whatever the number of its occurrences in the
    graph: two slots never hold the records of one string, number, boolean
    or big integer, nor two records of [undefined], nor (in strict mode) of
    [null]; [0] and [-0] count as one number, and the record is the one of
    the first met. *)
Theorem primitives_written_once fuel h v o w i j r r' :
  serialize fuel h v o = Ok w → json o = false →
  w !! i = Some r → w !! j = Some r' → same_primitive r r' →
  strictness o = true ∨ r.2 ≠ PayLit PNull →
  i = j.
Proof.
  intros (i0 & st & Hrun & <-)%serialize_Ok Hjson Hi Hj Hsame Hnull.
  rewrite Hjson in Hrun.
  destruct (pair_closed _ _ _ _ _ _ Hrun) as (Hinv & Hcl & _).
  destruct (inv_surj _ Hinv i) as [k Hk]; [by eapply lookup_lt_Some|].
  destruct (inv_surj _ Hinv j) as [k' Hk']; [by eapply lookup_lt_Some|].
  destruct (Hcl _ _ Hk) as (r0 & Hr0 & Hd).
  destruct (Hcl _ _ Hk') as (r1 & Hr1 & Hd').
  assert (r0 = r) as -> by congruence. assert (r1 = r') as -> by congruence.
  assert (k = k') as <-.
  { eapply describes_primitive; eauto. }
  congruence.
Qed.

(** [[0, -0, 0]]: the three elements share the slot of the first. *)
Example zeros_share_a_slot :
  serialize 2 [OArray [VPrim (PNumber (Int 0)); VPrim (PNumber NegZero);
                       VPrim (PNumber (Int 0))]] (VRef 0) no_options
  = Ok [(TNum ARRAY, PaySlots [1; 1; 1]);
        (TNum PRIMITIVE, PayLit (PNumber (Int 0)))].
Proof. by vm_compute. Qed.

Lemma primitives_written_once_witness :
  serialize 3 heap_xy (VRef 0) no_options = Ok wire_xy ∧
  wire_xy !! 2 = Some (TNum PRIMITIVE, PayLit (PNumber (Int 1))) ∧
  ∀ j r', wire_xy !! j = Some r' →
          same_primitive (TNum PRIMITIVE, PayLit (PNumber (Int 1))) r' → 2 = j.
Proof.
  split; [exact serialize_xy|]. split; [reflexivity|]. intros j r' Hj Hsame.
  apply (primitives_written_once 3 heap_xy (VRef 0) no_options wire_xy 2 j
           (TNum PRIMITIVE, PayLit (PNumber (Int 1))) r');
    [exact serialize_xy|reflexivity|reflexivity|exact Hj|exact Hsame|].
  by left.
Defined.

(** ** Big integers and text *)

(** [parse(stringify(z))] is [z] for every big integer [z]: the record
    holds the decimal text, which JSON keeps. *)
Theorem bigint_through_text (z : Z) h fuel fuel' :
  ∃ str,
    stringifyJSON (S fuel) h (VPrim (PBigInt z)) = Ok str ∧
    str = JArray [JArray [JNumber (Int BIGINT); JString (bigint_toString z)]] ∧
    parseJSON (S fuel') str = Ok (VPrim (PBigInt z), []).
Proof.
  eexists. split; [reflexivity|]. split; [reflexivity|].
  unfold parseJSON. simpl. unfold deserialize. simpl.
  by rewrite BigInt_of_toString.
Qed.

(** [new BigInt64Array([1n])]. *)
Definition heap_bigint_array : heap := [OTyped BigInt64Array [PBigInt 1]].

Lemma stringify_elems_bigint elems z :
  PBigInt z ∈ elems → stringify_elems elems = Fail (Throw JsonBigInt).
Proof.
  induction elems as [|p elems IH]; [by intros ?%elem_of_nil|].
  intros [<-|Hin]%elem_of_cons; [done|]. simpl.
  destruct (stringify_prim p) as [d|f] eqn:Hp.
  - by rewrite IH.
  - by apply stringify_prim_Fail in Hp as ->.
Qed.

(** A typed array that holds a big integer is serialized, in every mode,
    into the record of its elements, and [stringify] of it throws the
    TypeError of [JSON.stringify]: the elements, unlike a big integer met as
    a value, are not turned into text. *)
Theorem bigint_array_breaks_stringify h l k elems z o fuel :
  h !! l = Some (OTyped k elems) → PBigInt z ∈ elems →
  serialize (S fuel) h (VRef l) o = Ok [(TStr (typed_name k), PayElems elems)] ∧
  stringifyJSON (S fuel) h (VRef l) = Fail (Throw JsonBigInt).
Proof.
  intros Hl Hz.
  assert (Hrun : ∀ o', serialize (S fuel) h (VRef l) o'
                       = Ok [(TStr (typed_name k), PayElems elems)]).
  { intros o'. unfold serialize. rewrite pair_unfold. simpl. by rewrite Hl. }
  split; [done|]. unfold stringifyJSON. rewrite Hrun.
  unfold JSON_stringify. simpl. by rewrite (stringify_elems_bigint _ _ Hz).
Qed.

Lemma bigint_array_breaks_stringify_witness :
  serialize 1 heap_bigint_array (VRef 0) no_options
    = Ok [(TStr "BigInt64Array", PayElems [PBigInt 1])] ∧
  stringifyJSON 1 heap_bigint_array (VRef 0) = Fail (Throw JsonBigInt).
Proof.
  apply (bigint_array_breaks_stringify heap_bigint_array 0 BigInt64Array
           [PBigInt 1] 1 no_options 0); [reflexivity|].
  apply elem_of_cons. by left.
Defined.

(** ** [Object.fromEntries] on a list of pairs *)

(** A pair that leaves the prototype of the result alone: it names another
    property than [__proto__], or its value is a primitive that the setter
    of [__proto__] ignores. *)
Definition plain_pair (kv : string * value) : Prop :=
  kv.1 = "__proto__" →
  ∃ p, kv.2 = VPrim p ∧ p ≠ PNull ∧ ∀ id, p ≠ PFunction id.

(** The value of the last pair with the name [name]. *)
Definition last_paired (kvs : list (string * value)) (name : string)
  : option value :=
  jsmap_get (reverse kvs) name.

(** What a pair does to an object that inherits from [Object.prototype]. *)
Definition set_pair (obj : plain_object) (kv : string * value) : plain_object :=
  if decide (kv.1 = "__proto__") then obj
  else {| own := <[kv.1 := kv.2]> (own obj); inherits := inherits obj |}.

Lemma callback_pair h obj entry kv :
  is_pair h entry kv → plain_pair kv → inherits obj = true →
  callback h obj entry = Ok (set_pair obj kv).
Proof.
  intros (l & key & elems & -> & Hl & Hkey) Hplain Hinh.
  unfold callback. simpl. rewrite Hl. simpl. rewrite Hkey. simpl.
  unfold set_property, set_pair. rewrite Hinh. simpl.
  destruct kv as [k v]. unfold plain_pair in Hplain. simpl in *.
  case_decide as Hk.
  - subst k. simpl. destruct (Hplain eq_refl) as (p & -> & Hnull & Hfun).
    destruct p; try done. by destruct (Hfun id).
  - by apply String.eqb_neq in Hk as ->.
Qed.

Lemma set_pair_inherits obj kv : inherits (set_pair obj kv) = inherits obj.
Proof. unfold set_pair. by case_decide. Qed.

Lemma foldl_set_pair_inherits kvs obj :
  inherits (foldl set_pair obj kvs) = inherits obj.
Proof.
  revert obj. induction kvs as [|kv kvs IH]; intros obj; simpl; [done|].
  by rewrite IH, set_pair_inherits.
Qed.

Lemma reduce_pairs h iterable kvs obj :
  Forall2 (is_pair h) iterable kvs → Forall plain_pair kvs →
  inherits obj = true →
  reduce h iterable obj = Ok (foldl set_pair obj kvs).
Proof.
  intros HF. revert obj.
  induction HF as [|e kv es kvs He HF IH]; intros obj Hplain Hinh.
  - done.
  - apply Forall_cons in Hplain as [Hkv Hplain]. simpl.
    rewrite (callback_pair _ _ _ _ He Hkv Hinh). apply IH; [done|].
    by rewrite set_pair_inherits.
Qed.

Lemma reduce_app h good rest obj obj' :
  reduce h good obj = Ok obj' →
  reduce h (good ++ rest) obj = reduce h rest obj'.
Proof.
  revert obj. induction good as [|e good IH]; intros obj; simpl.
  - by intros [= ->].
  - destruct (callback h obj e); [|done]. apply IH.
Qed.

Lemma jsmap_get_snoc {K V} `{EqDecision K} (m : list (K * V)) k v k' :
  jsmap_get (m ++ [(k, v)]) k' =
  match jsmap_get m k' with
  | Some x => Some x
  | None => if decide (k = k') then Some v else None
  end.
Proof.
  induction m as [|[k0 v0] m IH]; simpl; [done|].
  destruct (decide (k0 = k')); [done|]. by rewrite IH.
Qed.

Lemma foldl_set_pair kvs obj name :
  name ≠ "__proto__" →
  own (foldl set_pair obj kvs) !! name =
  match last_paired kvs name with
  | Some v => Some v
  | None => own obj !! name
  end.
Proof.
  intros Hname. unfold last_paired. revert obj.
  induction kvs as [|[k v] kvs IH]; intros obj; simpl; [done|].
  rewrite IH, reverse_cons, jsmap_get_snoc.
  destruct (jsmap_get (reverse kvs) name); [done|].
  unfold set_pair. simpl. case_decide as Hk.
  - subst k. by case_decide.
  - simpl. case_decide as Hkn.
    + subst k. by rewrite lookup_insert_eq.
    + by rewrite lookup_insert_ne.
Qed.

Lemma foldl_set_pair_proto kvs obj :
  own (foldl set_pair obj kvs) !! "__proto__" = own obj !! "__proto__".
Proof.
  revert obj. induction kvs as [|[k v] kvs IH]; intros obj; simpl; [done|].
  rewrite IH. unfold set_pair. simpl. case_decide as Hk; [done|].
  simpl. by rewrite lookup_insert_ne.
Qed.

Lemma last_paired_NoDup kvs k v :
  NoDup kvs.*1 → (k, v) ∈ kvs → last_paired kvs k = Some v.
Proof.
  unfold last_paired. induction kvs as [|[k0 v0] kvs IH]; simpl.
  - by intros _ ?%elem_of_nil.
  - intros [Hk0 Hnd]%NoDup_cons Hin. rewrite reverse_cons, jsmap_get_snoc.
    apply elem_of_cons in Hin as [[= -> ->]|Hin].
    + rewrite jsmap_get_None; [by case_decide|].
      rewrite fmap_reverse. by rewrite elem_of_reverse.
    + by rewrite (IH Hnd Hin).
Qed.

Lemma reduce_primitive h iterable obj :
  Exists (λ e, is_object e = false) iterable →
  ∀ obj', reduce h iterable obj ≠ Ok obj'.
Proof.
  intros Hex. revert obj. induction Hex as [e es He|e es Hex IH]; intros obj obj'.
  - simpl. unfold callback. rewrite He. simpl. by destruct e.
  - simpl. destruct (callback h obj e); [apply IH|done].
Qed.

Lemma reduce_throw h iterable obj e :
  reduce h iterable obj = Fail (Throw e) →
  ∃ p, e = NotAnEntryObject p ∧ VPrim p ∈ iterable ∧ is_object (VPrim p) = false.
Proof.
  revert obj. induction iterable as [|x xs IH]; intros obj; simpl; [done|].
  destruct (callback h obj x) as [obj'|f] eqn:Hx.
  - intros (p & -> & Hin & Hp)%IH. exists p. split; [done|].
    split; [|done]. apply elem_of_cons. by right.
  - intros [= ->]. unfold callback in Hx.
    destruct (is_object x) eqn:Hobj; simpl in Hx.
    + destruct (Get h x 0); simpl in Hx; [|done].
      destruct (Get h x 1); simpl in Hx; [|done].
      destruct (ToPropertyKey v); simpl in Hx; [|done].
      by destruct (set_property s v0 obj).
    + destruct x as [p|l]; [|done]. injection Hx as <-. exists p.
      split; [done|]. split; [|done]. apply elem_of_cons. by left.
Qed.

(** [[["a", 1], ["__proto__", 7], ["b", 2], ["a", 3]]]. *)
Definition heap_entries : heap :=
  [OArray [VPrim (PString "a"); VPrim (PNumber (Int 1))];
   OArray [VPrim (PString "__proto__"); VPrim (PNumber (Int 7))];
   OArray [VPrim (PString "b"); VPrim (PNumber (Int 2))];
   OArray [VPrim (PString "a"); VPrim (PNumber (Int 3))]].

(** [[["__proto__", null], ["__proto__", 5]]]. *)
Definition heap_null_proto : heap :=
  [OArray [VPrim (PString "__proto__"); VPrim PNull];
   OArray [VPrim (PString "__proto__"); VPrim (PNumber (Int 5))]].

(** After an entry that takes the prototype away, [__proto__] names an own
    property like any other name. *)
Example proto_after_null :
  ∃ obj, fromEntries heap_null_proto [VRef 0; VRef 1] = Ok obj ∧
         inherits obj = false ∧
         own obj !! "__proto__" = Some (VPrim (PNumber (Int 5))).
Proof. eexists. split; [reflexivity|]. split; [done|]. by vm_compute. Qed.




(** ** [typeOf] and [shouldSkip] *)

(** [typeOf] answers PRIMITIVE on the values that are no objects, [null]
    among them, and on nothing else; on an object it answers by the class:
    ARRAY for an array and, with the name of the class, for every typed
    array, [ArrayBuffer] and [DataView]; ERROR with ["Error"] for an error
    of any native class; OBJECT for a plain object and, with the name of
    the class, for a wrapper; DATE, REGEXP, MAP, SET for the four other
    classes.  [shouldSkip] holds of the answers for functions and symbols
    and of no other. *)
Theorem typeOf_classifies h v :
  ((typeOf h v).1 = PRIMITIVE ↔ ∃ p, v = VPrim p) ∧
  (∀ p, v = VPrim p → (typeOf h v).2 = typeof v) ∧
  (∀ l o, v = VRef l → h !! l = Some o → typeOf h v = classify o) ∧
  (shouldSkip (typeOf h v) = true ↔
   ∃ id, v = VPrim (PFunction id) ∨ v = VPrim (PSymbol id)).
Proof.
  split; [|split; [|split]].
  - destruct v as [p|l].
    + simpl. split; [eauto|done].
    + split; [|by intros [p [=]]].
      destruct (h !! l) as [o|] eqn:Hl.
      * rewrite (typeOf_ref _ _ _ Hl). by destruct o.
      * unfold typeOf. by rewrite Hl.
  - by intros p ->.
  - intros l o ->. apply typeOf_ref.
  - rewrite shouldSkip_typeOf. destruct v as [[]|]; simpl; split;
      try done; try (by intros [? [[=]|[=]]]); eauto.
Qed.

(** ** The round trip in relaxed mode *)

Section lossy_simulation.
Context (h t : heap) (R : value → value → Prop).

(** A function or a symbol that is still there (in an array, or as the
    root) reads [null]; an object is its pruned self. *)
Definition lossy_val_sim (v r : value) : Prop :=
  match v, r with
  | VPrim _, VPrim q =>
      if is_callable v then q = PNull else canon v = canon r
  | VRef l, VRef a =>
      ∃ o o', h !! l = Some o ∧ t !! a = Some o' ∧
              obj_sim codec h t R (prune o) o'
  | _, _ => False
  end.

Definition lossy_simulation : Prop := ∀ v r, R v r → lossy_val_sim v r.
End lossy_simulation.

Definition lossy_clone_of (h : heap) (v : value) (t : heap) (r : value) : Prop :=
  ∃ R, R v r ∧ lossy_simulation h t R.

Lemma Forall_filter_true {A} (f : A → bool) l :
  Forall (λ x, f x = true) (List.filter f l).
Proof.
  induction l as [|x l IH]; simpl; [constructor|].
  destruct (f x) eqn:Hx; [by constructor|done].
Qed.

Lemma filter_sublist {A} (f : A → bool) l : sublist (List.filter f l) l.
Proof.
  induction l as [|x l IH]; simpl; [constructor|].
  destruct (f x); by constructor.
Qed.

Lemma filter_fst_sublist {A B} (f : A * B → bool) l :
  sublist (List.filter f l).*1 l.*1.
Proof.
  induction l as [|x l IH]; simpl; [constructor|].
  destruct (f x); simpl; by constructor.
Qed.

Lemma Forall_sublist {A} (P : A → Prop) k l :
  Forall P l → sublist k l → Forall P k.
Proof.
  rewrite !Forall_forall. intros HP Hs x Hx. apply HP.
  by eapply elem_of_sublist.
Qed.

Section relaxed.
Context (h : heap) (st : sstate) (ds : dstate).
Context (Hinv : enc_inv st) (Hclosed : closed h false st).
Context (Hdinv : dec_inv (st_out st) ds).
Context (Hdone : ∀ j r, dget ds j = Some r →
           ∃ rec, st_out st !! j = Some rec ∧ realizes (st_out st) ds rec r).

Lemma registered_shape_relaxed v i r :
  slot_of st v i → dget ds i = Some r →
  match v with
  | VPrim _ =>
      (∃ q, r = VPrim q) ∧
      (if is_callable v then r = VPrim PNull else canon r = canon v)
  | VRef _ => ∃ a, r = VRef a
  end.
Proof.
  intros Hi Hr. destruct (Hclosed _ _ Hi) as (rec & Hrec & Hd).
  destruct (Hdone _ _ Hr) as (rec' & Hrec' & Hre).
  assert (rec' = rec) as -> by congruence.
  destruct v as [p|l].
  - destruct p as [| | |n| | | |]; simpl in Hd;
      try (destruct Hd as (p' & -> & Hp));
      try (destruct Hd as (_ & ->));
      try (destruct n; simpl in Hd; destruct Hd as (p' & -> & Hp));
      subst; inversion Hre as [? ? Ht|? Ht| | | | | | | |? ? Hz| |];
      subst; try (by destruct Ht); simplify_eq; simpl; eauto.
    rewrite BigInt_of_toString in Hz. simplify_eq. eauto.
  - destruct Hd as (o & Hl & Hd).
    destruct o; simpl in Hd;
      try (destruct Hd as (x & Heq & HF));
      simplify_eq; inversion Hre as [? ? Ht|? Ht| | | | | | | | | |];
      subst; try (by destruct Ht); eauto.
Qed.

Lemma distinct_pair_relaxed e e' s s' r r' n n' :
  canon e = e → canon e' = e' → e ≠ e' →
  is_callable e = false → is_callable e' = false →
  slot_of st e s → slot_of st e' s' →
  dec (st_out st) ds n s r → below r n' → dec (st_out st) ds n' s' r' →
  canon r ≠ canon r'.
Proof.
  intros He He' Hne Hce Hce' Hs Hs' Hd Hb Hd' Heq.
  assert (Hss : s ≠ s').
  { intros ->. apply Hne. rewrite <-He, <-He'.
    by eapply (inv_inj _ Hinv). }
  destruct (Hclosed _ _ Hs) as (rec & Hrec & _).
  destruct (Hclosed _ _ Hs') as (rec' & Hrec' & _).
  destruct (dec_cases _ _ Hdone _ _ _ _ Hd' Hrec') as [[Hr' Hre']|(b' & -> & Hbuf')].
  - destruct (dec_cases _ _ Hdone _ _ _ _ Hd Hrec) as [[Hr Hre]|(b & -> & Hbuf)].
    + pose proof (registered_shape_relaxed _ _ _ Hs Hr) as Hsh.
      pose proof (registered_shape_relaxed _ _ _ Hs' Hr') as Hsh'.
      destruct e as [p|l], e' as [p'|l'].
      * rewrite Hce in Hsh. rewrite Hce' in Hsh'.
        destruct Hsh as [_ Hc], Hsh' as [_ Hc']. congruence.
      * destruct Hsh as [[q ->] _], Hsh' as [a ->].
        change (canon (VRef a)) with (VRef a) in Heq.
        apply (proj1 (canon_ref _ _)) in Heq. discriminate.
      * destruct Hsh as [a ->], Hsh' as [[q ->] _].
        change (canon (VRef a)) with (VRef a) in Heq.
        symmetry in Heq. apply (proj1 (canon_ref _ _)) in Heq. discriminate.
      * destruct Hsh as [a ->], Hsh' as [a' ->]. simpl in Heq.
        injection Heq as <-. apply Hss. by eapply (dinv_inj _ _ Hdinv).
    + change (canon (VRef b)) with (VRef b) in Heq.
      symmetry in Heq. apply (proj1 (canon_ref _ _)) in Heq as ->.
      apply buffer_at_is_buffer in Hbuf as (_ & o & Ho & Hbo).
      by eapply realizes_not_buffer.
  - apply buffer_at_is_buffer in Hbuf' as (Hn' & _).
    change (canon (VRef b')) with (VRef b') in Heq.
    apply (proj1 (canon_ref _ _)) in Heq as ->. simpl in Hb. lia.
Qed.

Lemma decoded_nodup_relaxed es slots rs n :
  NoDup es → Forall (λ k, canon k = k) es →
  Forall (λ k, is_callable k = false) es →
  Forall2 (slot_of st) es slots → dec_seq (st_out st) ds n slots rs →
  NoDup (canon <$> rs).
Proof.
  intros Hnd Hcan Hcall HF Hs.
  assert (Hlt : ∀ j j' x, j < j' →
    (canon <$> rs) !! j = Some x → (canon <$> rs) !! j' = Some x → False).
  { intros j j' x Hjj'. rewrite !list_lookup_fmap.
    destruct (rs !! j) as [r|] eqn:Hr; [|done].
    destruct (rs !! j') as [r'|] eqn:Hr'; [|done]. simpl.
    intros [= <-] [= Heq].
    pose proof (dec_seq_Forall2 _ _ _ _ _ Hs) as Hs0.
    destruct (Forall2_lookup_r _ _ _ _ _ Hs0 Hr) as (s & Hsj & _).
    destruct (Forall2_lookup_r _ _ _ _ _ Hs0 Hr') as (s' & Hsj' & _).
    destruct (Forall2_lookup_r _ _ _ _ _ HF Hsj) as (e & He & Hes).
    destruct (Forall2_lookup_r _ _ _ _ _ HF Hsj') as (e' & He' & Hes').
    destruct (dec_seq_lookup2 _ _ _ _ _ _ _ _ _ _ _ Hs Hjj' Hsj Hr Hsj' Hr')
      as (m & m' & Hd & Hb & Hd').
    eapply (distinct_pair_relaxed e e'); eauto.
    - by eapply (Forall_lookup_1 _ _ _ _ Hcan).
    - by eapply (Forall_lookup_1 _ _ _ _ Hcan).
    - intros ->. pose proof (NoDup_lookup _ _ _ _ Hnd He He'). lia.
    - by eapply (Forall_lookup_1 _ _ _ _ Hcall).
    - by eapply (Forall_lookup_1 _ _ _ _ Hcall). }
  apply NoDup_alt. intros j j' x Hj Hj'.
  destruct (lt_eq_lt_dec j j') as [[Hc| ->]|Hc]; [|done|]; exfalso; eauto.
Qed.

Lemma decoded_keys_nodup_relaxed (es : list (value * value)) pairs kvs n :
  NoDup es.*1 → Forall (λ k, canon k = k) es.*1 →
  Forall (λ k, is_callable k = false) es.*1 →
  Forall2 (slots_of st) es pairs →
  dec_seq (st_out st) ds n (flatten_pairs pairs) (flatten_pairs kvs) →
  NoDup (canon <$> kvs.*1).
Proof.
  intros Hnd Hcan Hcall HF Hs.
  pose proof (Forall2_flatten_pairs _ _ _ (dec_seq_Forall2 _ _ _ _ _ Hs)) as Hs0.
  assert (Hlt : ∀ j j' x, j < j' →
    (canon <$> kvs.*1) !! j = Some x → (canon <$> kvs.*1) !! j' = Some x →
    False).
  { intros j j' x Hjj'. rewrite !list_lookup_fmap.
    destruct (kvs !! j) as [[rk rv]|] eqn:Hr; [|done].
    destruct (kvs !! j') as [[rk' rv']|] eqn:Hr'; [|done]. simpl.
    intros [= <-] [= Heq].
    destruct (Forall2_lookup_r _ _ _ _ _ Hs0 Hr) as ([sk sv] & Hsj & _).
    destruct (Forall2_lookup_r _ _ _ _ _ Hs0 Hr') as ([sk' sv'] & Hsj' & _).
    destruct (Forall2_lookup_r _ _ _ _ _ HF Hsj) as ([k v] & He & Hes & _).
    destruct (Forall2_lookup_r _ _ _ _ _ HF Hsj') as ([k' v'] & He' & Hes' & _).
    simpl in *.
    destruct (flatten_pairs_lookup _ _ _ Hsj) as [Hfs _].
    destruct (flatten_pairs_lookup _ _ _ Hsj') as [Hfs' _].
    destruct (flatten_pairs_lookup _ _ _ Hr) as [Hfr _].
    destruct (flatten_pairs_lookup _ _ _ Hr') as [Hfr' _].
    destruct (dec_seq_lookup2 _ _ _ _ _ (2 * j) (2 * j') _ _ _ _ Hs
                ltac:(lia) Hfs Hfr Hfs' Hfr')
      as (m & m' & Hd & Hb & Hd').
    assert (Hk : es.*1 !! j = Some k) by by rewrite list_lookup_fmap, He.
    assert (Hk' : es.*1 !! j' = Some k') by by rewrite list_lookup_fmap, He'.
    eapply (distinct_pair_relaxed k k'); eauto.
    - by eapply (Forall_lookup_1 _ _ _ _ Hcan).
    - by eapply (Forall_lookup_1 _ _ _ _ Hcan).
    - intros ->. pose proof (NoDup_lookup _ _ _ _ Hnd Hk Hk'). lia.
    - by eapply (Forall_lookup_1 _ _ _ _ Hcall).
    - by eapply (Forall_lookup_1 _ _ _ _ Hcall). }
  apply NoDup_alt. intros j j' x Hj Hj'.
  destruct (lt_eq_lt_dec j j') as [[Hc| ->]|Hc]; [|done|]; exfalso; eauto.
Qed.

Lemma string_key_dec_relaxed k i r :
  slot_of st (VPrim (PString k)) i → dec (st_out st) ds 0 i r →
  r = VPrim (PString k).
Proof.
  intros Hi Hd. destruct (Hclosed _ _ Hi) as (rec & Hrec & p' & -> & Hp).
  destruct (dec_cases _ _ Hdone _ _ _ _ Hd Hrec) as [[Hr Hre]|(b & -> & bytes & Hb)].
  - destruct (registered_shape_relaxed _ _ _ Hi Hr) as [[q ->] Hc]. simpl in Hc.
    destruct q as [| | |[]| | | |]; simpl in Hc; congruence.
  - destruct Hb as [[? _]|[? _]]; congruence.
Qed.

Lemma object_entries_relaxed props pairs kvs :
  Forall2 (slots_of st) (key_entries props) pairs →
  Forall2 (λ p kv, dec (st_out st) ds 0 p.1 kv.1 ∧
                   dec (st_out st) ds 0 p.2 kv.2) pairs kvs →
  ∃ props',
    kvs = (λ kv, (VPrim (PString kv.1), kv.2)) <$> props' ∧
    props'.*1 = props.*1 ∧
    Forall2 (λ kv kv', kv.1 = kv'.1 ∧ related st ds kv.2 kv'.2) props props'.
Proof.
  revert pairs kvs. induction props as [|[k v] props IH];
    intros pairs kvs HF HD; simpl in HF.
  - inversion HF; subst. inversion HD; subst. by exists [].
  - inversion HF as [|? [sk sv] ? pairs' [Hk Hv] HF']; subst.
    inversion HD as [|? [rk rv] ? kvs' [Hdk Hdv] HD']; subst. simpl in *.
    destruct (IH _ _ HF' HD') as (props' & -> & Hkeys & Hrel).
    exists ((k, rv) :: props').
    split; [simpl; by rewrite (string_key_dec_relaxed _ _ _ Hk Hdk)|].
    split; [simpl; by f_equal|].
    constructor; [|done]. split; [done|]. by eapply related_dec.
Qed.
Context (Hwf : wf_heap h).

Lemma related_sim_relaxed v i r :
  slot_of st v i → dec (st_out st) ds 0 i r →
  lossy_val_sim h (ds_heap ds) (related st ds) v r.
Proof.
  intros Hi Hd. destruct (Hclosed _ _ Hi) as (rec & Hrec & Hdesc).
  pose proof (dec_cases _ _ Hdone _ _ _ _ Hd Hrec) as Hcases.
  destruct v as [p|l].
  - destruct Hcases as [[Hr Hre]|(b & -> & bytes & Hb)].
    + destruct (registered_shape_relaxed _ _ _ Hi Hr) as [[q ->] Hc].
      unfold lossy_val_sim. destruct (is_callable (VPrim p)); congruence.
    + exfalso. destruct p as [| | |[]| | | |]; simpl in Hdesc;
        try (destruct Hdesc as (p' & -> & _));
        try (destruct Hdesc as (_ & ->));
        subst; destruct Hb as [[? _]|[? _]]; congruence.
  - destruct Hdesc as (o & Hl & Hdo).
    pose proof (wf_heap_lookup _ _ _ Hwf Hl) as [Hch Hwfo].
    assert (Hnb : (∃ z p, rec = (TNum z, p)) →
      ∃ a, r = VRef a ∧ realizes (st_out st) ds rec (VRef a)).
    { intros (z & p & ->).
      destruct Hcases as [[Hr Hre]|(b & -> & bytes & Hb)].
      - destruct (registered_shape_relaxed _ _ _ Hi Hr) as [a ->]. eauto.
      - destruct Hb as [[? _]|[? _]]; congruence. }
    assert (Hkeep : ∀ e, keep_value h false e = negb (is_callable e)).
    { intros e. unfold keep_value. by rewrite shouldSkip_typeOf. }
    assert (Hkeep2 : ∀ k e,
      keep_pair h false k e = negb (is_callable k || is_callable e)).
    { intros k e. unfold keep_pair. by rewrite !shouldSkip_typeOf. }
    destruct o; cbn [describes_obj] in Hdo.
    + destruct Hdo as (slots & -> & HF).
      destruct Hnb as (a & -> & Hre); [eauto|].
      inversion Hre as [? ? Ht|? Ht| | | | | | | | | |]; subst.
      simpl. do 2 eexists. repeat split; try done. constructor.
      by eapply related_each.
    + destruct Hdo as (pairs & -> & HF).
      rewrite (filter_key_entries (keep_value h false)) in HF.
      rewrite (filter_ext_in (λ kv : string * value, keep_value h false kv.2)
                 (λ kv : string * value, negb (is_callable kv.2)))
        in HF by (intros; apply Hkeep).
      destruct Hnb as (a & -> & Hre); [eauto|].
      inversion Hre as [? ? Ht|? Ht| |? ? kvs o' Ho' Hs Hfill| | | | | | | |];
        subst.
      pose proof (Forall2_flatten_pairs _ _ _ (dec_seq_Forall2 _ _ _ _ _ Hs)) as Hs0.
      destruct (object_entries_relaxed _ _ _ HF Hs0) as (props' & -> & Hkeys & Hrel).
      destruct Hwfo as [Hnd Hproto].
      rewrite (fill_object props' [] None) in Hfill.
      * injection Hfill as <-.
        simpl. do 2 eexists. repeat split; try done. by constructor.
      * simpl. rewrite Hkeys. eapply sublist_NoDup; [exact Hnd|].
        apply filter_fst_sublist.
      * rewrite Hkeys. intros Hin. apply Hproto.
        eapply elem_of_sublist; [exact Hin|]. apply filter_fst_sublist.
    + subst. destruct Hnb as (a & -> & Hre); [eauto|].
      inversion Hre; subst.
      simpl. do 2 eexists. repeat split; try done. constructor.
    + subst. destruct Hnb as (a & -> & Hre); [eauto|].
      inversion Hre; subst.
      simpl. do 2 eexists. repeat split; try done. constructor.
    + destruct Hdo as (pairs & -> & HF).
      rewrite (filter_ext_in (λ kv : value * value, keep_pair h false kv.1 kv.2)
                 (λ kv : value * value, negb (is_callable kv.1 || is_callable kv.2)))
        in HF by (intros; apply Hkeep2).
      destruct Hwfo as [Hnd Hcan].
      destruct Hnb as (a & -> & Hre); [eauto|].
      inversion Hre as [? ? Ht|? Ht| | | | |? ? kvs o' Ho' Hs Hfill| | | | |];
        subst.
      pose proof (Forall2_flatten_pairs _ _ _ (dec_seq_Forall2 _ _ _ _ _ Hs)) as Hs0.
      rewrite (fill_map kvs []) in Hfill.
      * injection Hfill as <-.
        simpl. do 2 eexists. repeat split; try done. constructor.
        by apply map_entries with (pairs := pairs).
      * simpl. eapply decoded_keys_nodup_relaxed; [| | |exact HF|exact Hs].
        -- eapply sublist_NoDup; [exact Hnd|]. apply filter_fst_sublist.
        -- eapply Forall_sublist; [exact Hcan|]. apply filter_fst_sublist.
        -- apply Forall_fmap. eapply Forall_impl; [apply Forall_filter_true|].
           intros [k e]. simpl. by destruct (is_callable k).
    + destruct Hdo as (slots & -> & HF).
      rewrite (filter_ext_in (keep_value h false) (λ e, negb (is_callable e)))
        in HF by (intros; apply Hkeep).
      destruct Hwfo as [Hnd Hcan].
      destruct Hnb as (a & -> & Hre); [eauto|].
      inversion Hre as [? ? Ht|? Ht| | | | | |? ? rs o' Ho' Hs Hfill| | | |];
        subst.
      rewrite (fill_set rs []) in Hfill.
      * injection Hfill as <-.
        simpl. do 2 eexists. repeat split; try done. constructor.
        by eapply related_each.
      * simpl. eapply decoded_nodup_relaxed; [| | |exact HF|exact Hs].
        -- eapply sublist_NoDup; [exact Hnd|]. apply filter_sublist.
        -- eapply Forall_sublist; [exact Hcan|]. apply filter_sublist.
        -- eapply Forall_impl; [apply Forall_filter_true|].
           intros e. simpl. by destruct (is_callable e).
    + subst. destruct Hnb as (a & -> & Hre); [eauto|].
      inversion Hre; subst.
      simpl. do 2 eexists. repeat split; try done. constructor.
    + subst. destruct Hcases as [[Hr Hre]|(b' & -> & bytes & Hb)];
        [|destruct Hb as [[? _]|[? _]]; congruence].
      destruct (registered_shape_relaxed _ _ _ Hi Hr) as [a ->].
      inversion Hre as [? ? Ht|? Ht| | | | | | | | | |? ? ? ? Hnew]; subst.
      simpl in Hnew. injection Hnew as <-.
      simpl. do 2 eexists. repeat split; try done. constructor.
    + subst. destruct Hcases as [[Hr Hre]|(b' & -> & bytes & Hb)];
        [|destruct Hb as [[? _]|[? _]]; congruence].
      destruct (registered_shape_relaxed _ _ _ Hi Hr) as [a ->].
      inversion Hre as [? ? Ht|? Ht| | | | | | | | | |? ? ? ? Hnew]; subst.
      simpl in Hnew. injection Hnew as <-.
      simpl. do 2 eexists. repeat split; try done. constructor.
    + subst. destruct Hcases as [[Hr Hre]|(b' & -> & bytes & Hb)];
        [|destruct Hb as [[? _]|[? _]]; congruence].
      destruct (registered_shape_relaxed _ _ _ Hi Hr) as [a ->].
      inversion Hre as [? ? Ht|? Ht| | | | | | | | | |? ? ? ? Hnew]; subst.
      simpl in Hnew. injection Hnew as <-.
      simpl. do 2 eexists. repeat split; try done. constructor.
    + subst. destruct Hcases as [[Hr Hre]|(b' & -> & bytes & Hb)];
        [|destruct Hb as [[? _]|[? _]]; congruence].
      destruct (registered_shape_relaxed _ _ _ Hi Hr) as [a ->].
      inversion Hre as [? ? Ht|? Ht| | | | | | | | |? ? ? Hz|? ? ? ? Hnew];
        subst; [|done].
      rewrite BigInt_of_toString in Hz. injection Hz as <-.
      simpl. do 2 eexists. repeat split; try done. constructor.
    + subst. destruct Hcases as [[Hr Hre]|(b' & -> & bytes & Hb)];
        [|destruct Hb as [[Hb _]|[Hb _]]; by destruct kind].
      destruct (registered_shape_relaxed _ _ _ Hi Hr) as [a ->].
      inversion Hre as [? ? Ht|? Ht| | | | | | | | | |? ? ? ? Hnew];
        subst; try (by destruct kind).
      rewrite env_new_typed in Hnew. injection Hnew as <-.
      simpl. do 2 eexists. repeat split; try done. constructor.
    + subst. destruct Hcases as [[Hr Hre]|(b' & -> & bytes' & Hb)].
      { destruct (registered_shape_relaxed _ _ _ Hi Hr) as [a ->]. by inversion Hre. }
      destruct Hb as [([= <-] & _ & Hb)|[? _]]; [|congruence].
      simpl. do 2 eexists. repeat split; try done. constructor.
    + destruct Hdo as (bytes & Hbuf & ->).
      destruct Hcases as [[Hr Hre]|(b' & -> & bytes' & Hb)].
      { destruct (registered_shape_relaxed _ _ _ Hi Hr) as [a ->]. by inversion Hre. }
      destruct Hb as [[? _]|([= <-] & buf & _ & _ & Hb & Hbuf')]; [congruence|].
      simpl. do 2 eexists. repeat split; try done. by econstructor.
Qed.

Theorem related_lossy_simulation :
  lossy_simulation h (ds_heap ds) (related st ds).
Proof.
  intros v r (i & r0 & Hi & Hd & Hc).
  pose proof (related_sim_relaxed _ _ _ Hi Hd) as Hsim.
  destruct v as [p|l], r0 as [q|a]; unfold lossy_val_sim in Hsim; try done.
  - destruct r as [q'|a']; unfold lossy_val_sim.
    + destruct (is_callable (VPrim p)).
      * subst q. by destruct q' as [| | |[]| | | |].
      * congruence.
    + change (canon (VRef a')) with (VRef a') in Hc. symmetry in Hc.
      apply (proj1 (canon_ref _ _)) in Hc. congruence.
  - change (canon (VRef a)) with (VRef a) in Hc.
    apply (proj1 (canon_ref _ _)) in Hc as ->. done.
Qed.
End relaxed.

Lemma decode_encoded_relaxed h v fuel i st fuel' :
  wf_heap h →
  pair h false false fuel v st_empty = Ok (i, st) → length (st_out st) < fuel' →
  ∃ r ds, unpair (st_out st) fuel' 0 ds_empty = Ok (r, ds) ∧
    related st ds v r ∧
    lossy_simulation h (ds_heap ds) (related st ds) ∧
    (∀ l o r1 r2, h !! l = Some o → ¬ is_buffer o →
       related st ds (VRef l) r1 → related st ds (VRef l) r2 → r1 = r2).
Proof.
  intros Hwf Hrun Hfuel.
  destruct (pair_closed _ _ _ _ _ _ Hrun) as (Hi & Hcl & Hv).
  assert (i = 0) as -> by by apply pair_root in Hrun.
  pose proof (closed_wire_ok _ _ _ Hi Hcl Hwf) as Hok.
  assert (H0 : 0 < length (st_out st)) by by eapply (inv_range _ Hi).
  pose proof (unpair_total (st_out st) fuel' 0 ds_empty (dec_inv_empty _)) as Htot.
  ospecialize* Htot. { pose proof (pending_d_empty (st_out st)). lia. }
  destruct (unpair (st_out st) fuel' 0 ds_empty) as [[r ds]|f] eqn:Hdec.
  2: { destruct Htot as [_ Hbad]. by destruct Hbad. }
  exists r, ds. split; [done|].
  destruct (unpair_spec _ _ _ _ _ _ (dec_inv_empty _) Hdec) as (Hs & _ & Hd & _).
  assert (Hdone : ∀ j r0, dget ds j = Some r0 →
    ∃ rec, st_out st !! j = Some rec ∧ realizes (st_out st) ds rec r0).
  { intros j r0 Hj. by destruct (dstep_new _ _ _ Hs j r0 Hj) as (_ & Hre). }
  split; [|split].
  - by exists 0, r.
  - apply related_lossy_simulation; try done. apply Hs.
  - intros l o r1 r2 Hl Hnb (i1 & q1 & Hi1 & Hd1 & Hc1) (i2 & q2 & Hi2 & Hd2 & Hc2).
    assert (i2 = i1) as -> by (unfold slot_of in *; congruence).
    destruct (Hcl _ _ Hi1) as (rec & Hrec & o' & Hl' & Hdo).
    simpl in Hl'. assert (o' = o) as -> by congruence.
    assert (Hreg : ∀ q, dec (st_out st) ds 0 i1 q → dget ds i1 = Some q).
    { intros q [Hq|(rec' & b & Hrec' & -> & bytes & Hb)]; [done|].
      exfalso. apply Hnb. assert (rec' = rec) as -> by congruence.
      destruct o; simpl in Hdo; try (destruct Hdo as (x & -> & _));
        subst; simpl; try done;
        destruct Hb as [[Hb _]|[Hb _]]; try congruence; by destruct kind. }
    apply Hreg in Hd1, Hd2. assert (q2 = q1) as -> by congruence.
    destruct (registered_shape_relaxed h st ds Hcl Hdone _ _ _ Hi1 Hd1) as [a ->].
    change (canon (VRef a)) with (VRef a) in *.
    apply (proj1 (canon_ref _ _)) in Hc1, Hc2. congruence.
Qed.

(** [[function(){}, {f: function(){}, x: 1}, new Set([Symbol(), "s"]),
     new Map([[function(){}, 1], [2, 3]])]]. *)
Definition heap_lossy : heap :=
  [OArray [VPrim (PFunction 0); VRef 1; VRef 2; VRef 3];
   OObject [("f", VPrim (PFunction 1)); ("x", VPrim (PNumber (Int 1)))] None;
   OSet [VPrim (PSymbol 0); VPrim (PString "s")];
   OMap [(VPrim (PFunction 2), VPrim (PNumber (Int 1)));
         (VPrim (PNumber (Int 2)), VPrim (PNumber (Int 3)))]].

Definition lossy_only : options := {| json := false; lossy := true |}.

Example serialize_lossy :
  serialize 5 heap_lossy (VRef 0) lossy_only
  = Ok [(TNum ARRAY, PaySlots [1; 2; 5; 7]);
        (TNum PRIMITIVE, PayLit PNull);
        (TNum OBJECT, PayPairs [(3, 4)]);
        (TNum PRIMITIVE, PayLit (PString "x"));
        (TNum PRIMITIVE, PayLit (PNumber (Int 1)));
        (TNum SET, PaySlots [6]);
        (TNum PRIMITIVE, PayLit (PString "s"));
        (TNum MAP, PayPairs [(8, 9)]);
        (TNum PRIMITIVE, PayLit (PNumber (Int 2)));
        (TNum PRIMITIVE, PayLit (PNumber (Int 3)))].
Proof. by vm_compute. Qed.

Example deserialize_lossy :
  ∃ w, serialize 5 heap_lossy (VRef 0) lossy_only = Ok w ∧
       deserialize 11 w
       = Ok (VRef 0,
             [OArray [VPrim PNull; VRef 1; VRef 2; VRef 3];
              OObject [("x", VPrim (PNumber (Int 1)))] None;
              OSet [VPrim (PString "s")];
              OMap [(VPrim (PNumber (Int 2)), VPrim (PNumber (Int 3)))]]).
Proof. eexists. split; [exact serialize_lossy|]. by vm_compute. Qed.

Lemma serialize_relaxed h v o fuel :
  strictness o = false → (json o = true → no_toJSON h) →
  serialize fuel h v o = serialize fuel h v lossy_only.
Proof.
  intros Hs Hjson. destruct (json o) eqn:Hj.
  - by apply serialize_json_relaxed; auto.
  - unfold strictness in Hs. rewrite Hj in Hs. destruct o as [j [|]];
      simpl in *; by subst.
Qed.



(** ** The exported [structuredClone] *)


(** A native function that must not be reached. *)
Definition native_stub : heap → value → result (value * heap) :=
  λ _ _, Fail Stuck.

